(** * GRUB memory manager (kern/mm.c): shallow embedding and verification

    The allocator keeps its metadata inside the memory it manages: every
    block starts with a one-cell header, free blocks form a doubly linked
    ring per region, regions form a singly linked list.  The embedding
    below follows kern/mm.c statement by statement for the i386 target
    (the repository's headers are the i386 ones): pointers and
    [grub_size_t] are 32-bit words, a cell is 16 bytes.

    - memory is a finite map from cell addresses to cells; a cell read
      through a [grub_mm_header_t] is a header, and the same cell holds
      sixteen payload bytes when it lies inside an allocated block;
    - the region list is a list of region records (the [next] links);
    - [grub_fatal] never returns: it is an outcome of its own;
    - the two ring walks are loops that need not terminate on a corrupted
      ring: they take fuel, and running out of it is a third outcome. *)

From stdpp Require Import gmap list strings sorting.
From Stdlib Require Import ZArith Lia.
Local Open Scope Z_scope.
Set Warnings "-clear-no-such-hyp".

(** ** Machine words *)

Definition GRUB_CPU_SIZEOF_VOID_P : Z := 4.

(** Conversion to [grub_size_t] / [grub_addr_t]: arithmetic wraps. *)
Definition word (z : Z) : Z := z mod 2 ^ 32.

(** [#if GRUB_CPU_SIZEOF_VOID_P == 4] *)
Definition GRUB_MM_ALIGN_LOG2 : Z := 4.
Definition GRUB_MM_ALIGN : Z := Z.shiftl 1 GRUB_MM_ALIGN_LOG2.

Definition GRUB_MM_FREE_MAGIC : Z := 0x2d3c2808.
Definition GRUB_MM_ALLOC_MAGIC : Z := 0x6db08fa4.

(** ** Data *)

(** [struct grub_mm_header]; fields in declaration order. *)
Record grub_mm_header := Header {
  h_prev : Z;
  h_next : Z;
  h_size : Z;
  h_magic : Z
}.

Global Instance grub_mm_header_inhabited : Inhabited grub_mm_header :=
  populate (Header 0 0 0 0).

Global Instance grub_mm_header_eq_dec : EqDecision grub_mm_header.
Proof. solve_decision. Defined.

(** The strategy selectors stored in [policies[]].  Their numeric values
    are in grub/mm.h; [grub_real_malloc] sends every value other than
    SECOND and LAST to the [default:] label, shared with FIRST. *)
Inductive allocator :=
  | GRUB_MM_ALLOCATOR_SKIP
  | GRUB_MM_ALLOCATOR_FIRST
  | GRUB_MM_ALLOCATOR_SECOND
  | GRUB_MM_ALLOCATOR_LAST.

Global Instance allocator_eq_dec : EqDecision allocator.
Proof. solve_decision. Defined.

(** Policy identifiers index [policies[]].  LOW and LOW_END are defined in
    include/grub/i386/memory.h. *)
Definition GRUB_MM_MALLOC_LOW : nat := 2.
Definition GRUB_MM_MALLOC_LOW_END : nat := 3.

(** Modelled from the spec: GRUB_MM_MALLOC_DEFAULT is defined in grub/mm.h,
    which is not among the sources; the spec names it the default policy,
    first of the policy identifiers. *)
Definition GRUB_MM_MALLOC_DEFAULT : nat := 0.

(** [struct grub_mm_region].  The [next] link is the tail of the list the
    record sits in. *)
Record grub_mm_region := Region {
  r_first : Z;
  r_addr : Z;
  r_size : Z;
  r_policies : list allocator
}.

(** [r->policies[policy]]; an index past the array is outside the struct,
    the model reads SKIP there. *)
Definition policy_of (r : grub_mm_region) (policy : nat) : allocator :=
  default GRUB_MM_ALLOCATOR_SKIP (r_policies r !! policy).

Definition with_first (f : Z) (r : grub_mm_region) : grub_mm_region :=
  Region f (r_addr r) (r_size r) (r_policies r).

Inductive grub_err_t := GRUB_ERR_NONE | GRUB_ERR_OUT_OF_MEMORY.

(** Calls out of the allocator, in the order they are made. *)
Inductive ext_call := DISK_CACHE_INVALIDATE_ALL | DL_UNLOAD_UNNEEDED.

Record mm_state := MmState {
  heap : gmap Z grub_mm_header;
  base : list grub_mm_region;
  grub_errno : grub_err_t;
  grub_errmsg : string;
  calls : list ext_call
}.

Definition with_heap (m : gmap Z grub_mm_header) (st : mm_state) : mm_state :=
  MmState m (base st) (grub_errno st) (grub_errmsg st) (calls st).

Definition with_mem (m : gmap Z grub_mm_header) (b : list grub_mm_region)
    (st : mm_state) : mm_state :=
  MmState m b (grub_errno st) (grub_errmsg st) (calls st).

(** [grub_error (code, msg)] *)
Definition grub_error (e : grub_err_t) (msg : string) (st : mm_state) : mm_state :=
  MmState (heap st) (base st) e msg (calls st).

Definition mm_empty : mm_state := MmState ∅ [] GRUB_ERR_NONE EmptyString [].

(** ** Outcomes *)

Inductive outcome (A : Type) :=
  | Ok (a : A)
  | Fatal (msg : string)
  | OutOfFuel.
Arguments Ok {A} a.
Arguments Fatal {A} msg.
Arguments OutOfFuel {A}.

Global Instance outcome_ret : MRet outcome := @Ok.
Global Instance outcome_bind : MBind outcome := λ A B f c,
  match c with
  | Ok a => f a
  | Fatal msg => Fatal msg
  | OutOfFuel => OutOfFuel
  end.

(** ** Field stores: [p->f = v] *)

Definition set_prev (p v : Z) (m : gmap Z grub_mm_header) : gmap Z grub_mm_header :=
  <[p := Header v (h_next (m !!! p)) (h_size (m !!! p)) (h_magic (m !!! p))]> m.
Definition set_next (p v : Z) (m : gmap Z grub_mm_header) : gmap Z grub_mm_header :=
  <[p := Header (h_prev (m !!! p)) v (h_size (m !!! p)) (h_magic (m !!! p))]> m.
Definition set_size (p v : Z) (m : gmap Z grub_mm_header) : gmap Z grub_mm_header :=
  <[p := Header (h_prev (m !!! p)) (h_next (m !!! p)) v (h_magic (m !!! p))]> m.
Definition set_magic (p v : Z) (m : gmap Z grub_mm_header) : gmap Z grub_mm_header :=
  <[p := Header (h_prev (m !!! p)) (h_next (m !!! p)) (h_size (m !!! p)) v]> m.

(** Pointer arithmetic on [grub_mm_header_t]: [p + k] moves by [k] cells. *)
Definition hdr_add (p k : Z) : Z := word (p + GRUB_MM_ALIGN * k).

(** ** Payload bytes

    Little-endian: byte [j] of a cell is byte [j mod 4] of its word
    [j / 4]. *)

Definition cell_word (c : grub_mm_header) (k : Z) : Z :=
  if k =? 0 then h_prev c else if k =? 1 then h_next c
  else if k =? 2 then h_size c else h_magic c.

Definition cell_set_word (c : grub_mm_header) (k w : Z) : grub_mm_header :=
  if k =? 0 then Header w (h_next c) (h_size c) (h_magic c)
  else if k =? 1 then Header (h_prev c) w (h_size c) (h_magic c)
  else if k =? 2 then Header (h_prev c) (h_next c) w (h_magic c)
  else Header (h_prev c) (h_next c) (h_size c) w.

Definition word_byte (w i : Z) : Z := (w / 2 ^ (8 * i)) mod 256.

Definition word_set_byte (w i b : Z) : Z :=
  w + (b mod 256 - word_byte w i) * 2 ^ (8 * i).

Definition cell_byte (c : grub_mm_header) (j : Z) : Z :=
  word_byte (cell_word c (j / 4)) (j mod 4).

Definition cell_set_byte (c : grub_mm_header) (j b : Z) : grub_mm_header :=
  cell_set_word c (j / 4) (word_set_byte (cell_word c (j / 4)) (j mod 4) b).

Definition cell_of (a : Z) : Z := a - a mod GRUB_MM_ALIGN.

Definition load8 (m : gmap Z grub_mm_header) (a : Z) : Z :=
  cell_byte (m !!! cell_of a) (a mod GRUB_MM_ALIGN).

Definition store8 (a b : Z) (m : gmap Z grub_mm_header) : gmap Z grub_mm_header :=
  <[cell_of a := cell_set_byte (m !!! cell_of a) (a mod GRUB_MM_ALIGN) b]> m.

(** Modelled from the spec: grub_memcpy is defined in grub/misc.h and
    kern/misc.c, which are not among the sources; the spec: "copy
    [size_bytes] from the old pointer".  The [n] source bytes are read
    from [m0], the memory before the copy. *)
Fixpoint copy_bytes (n : nat) (m0 : gmap Z grub_mm_header) (dst src : Z)
    (m : gmap Z grub_mm_header) : gmap Z grub_mm_header :=
  match n with
  | O => m
  | S n' =>
      store8 (word (dst + Z.of_nat n')) (load8 m0 (word (src + Z.of_nat n')))
        (copy_bytes n' m0 dst src m)
  end.

Definition grub_memcpy (m : gmap Z grub_mm_header) (dst src n : Z)
    : gmap Z grub_mm_header :=
  copy_bytes (Z.to_nat n) m dst src m.

(** Modelled from the spec: grub_memset is defined in kern/misc.c, which is
    not among the sources; mm.c calls it with the value 0 only ("result
    zero-filled").  Byte [a] is cleared when it is one of the [n] bytes
    from [dst] on, addresses wrapping.  A cell the map does not hold reads
    as zero and stays so. *)
Definition in_span (dst n a : Z) : bool := word (a - dst) <? n.

Definition clear_word (dst n a w : Z) : Z :=
  (if in_span dst n a then 0 else word_byte w 0)
  + (if in_span dst n (a + 1) then 0 else word_byte w 1) * 2 ^ 8
  + (if in_span dst n (a + 2) then 0 else word_byte w 2) * 2 ^ 16
  + (if in_span dst n (a + 3) then 0 else w / 2 ^ 24) * 2 ^ 24.

Definition clear_cell (dst n a : Z) (c : grub_mm_header) : grub_mm_header :=
  Header (clear_word dst n a (h_prev c)) (clear_word dst n (a + 4) (h_next c))
         (clear_word dst n (a + 8) (h_size c)) (clear_word dst n (a + 12) (h_magic c)).

Definition grub_memset_zero (m : gmap Z grub_mm_header) (dst n : Z)
    : gmap Z grub_mm_header :=
  map_imap (λ a c, Some (clear_cell dst n a c)) m.

(** ** kern/mm.c *)

(** [get_header_from_pointer]: the region is returned with its position
    in the list. *)
Fixpoint find_region (ptr : Z) (rs : list grub_mm_region) (i : nat)
    : option (nat * grub_mm_region) :=
  match rs with
  | [] => None
  | r :: rs' =>
      if (r_addr r <? ptr) && (ptr <=? word (r_addr r + r_size r))
      then Some (i, r)
      else find_region ptr rs' (S i)
  end.

Definition get_header_from_pointer (m : gmap Z grub_mm_header)
    (rs : list grub_mm_region) (ptr : Z) : outcome (Z * nat * grub_mm_region) :=
  if negb (Z.land ptr (GRUB_MM_ALIGN - 1) =? 0) then Fatal "unaligned pointer"
  else
    match find_region ptr rs 0 with
    | None => Fatal "out of range pointer"
    | Some (i, r) =>
        let p := hdr_add ptr (-1) in
        if negb (h_magic (m !!! p) =? GRUB_MM_ALLOC_MAGIC)
        then Fatal "alloc magic is broken"
        else Ok (p, i, r)
    end.

(** Modelled from the spec: ALIGN_UP is a macro of grub/misc.h, which is not
    among the sources; the spec: "aligns [base] up to one cell". *)
Definition ALIGN_UP (addr align : Z) : Z :=
  Z.land (word (addr + align - 1)) (word (Z.lnot (align - 1))).

Section init_region.

(** GRUB_MM_NPOLICIES, the length of [policies[]], is defined in grub/mm.h,
    which is not among the sources. *)
Variable GRUB_MM_NPOLICIES : Z.

(** [sizeof (struct grub_mm_region)]: two pointers, [addr], [size] and the
    policy array. *)
Definition sizeof_region : Z :=
  GRUB_CPU_SIZEOF_VOID_P * (4 + GRUB_MM_NPOLICIES).

(** The insertion loop of [grub_mm_init_region]: [r] goes before the first
    [q] with [q->size > r->size]. *)
Fixpoint insert_region (r : grub_mm_region) (rs : list grub_mm_region)
    : list grub_mm_region :=
  match rs with
  | [] => [r]
  | q :: rs' => if r_size r <? r_size q then r :: q :: rs' else q :: insert_region r rs'
  end.

Definition grub_mm_init_region (st : mm_state) (addr size : Z)
    (policies : list allocator) : mm_state :=
  if size <? GRUB_MM_ALIGN * 4 then st
  else
    let r := ALIGN_UP addr GRUB_MM_ALIGN in
    let size := word (size - word (word (r - addr) + sizeof_region)) in
    let h := word (r + sizeof_region) in
    let m := set_next h h (heap st) in
    let m := set_prev h h m in
    let m := set_magic h GRUB_MM_FREE_MAGIC m in
    let m := set_size h (Z.shiftr size GRUB_MM_ALIGN_LOG2) m in
    let reg := Region h h (word (Z.shiftl (h_size (m !!! h)) GRUB_MM_ALIGN_LOG2))
                      policies in
    with_mem m (insert_region reg (base st)) st.

End init_region.

Definition split_chunk (p size : Z) (m : gmap Z grub_mm_header)
    : gmap Z grub_mm_header :=
  if h_size (m !!! p) <=? size then m
  else
    let q := hdr_add p size in
    let m := set_magic q GRUB_MM_FREE_MAGIC m in
    let m := set_size q (word (h_size (m !!! p) - size)) m in
    let m := set_next q (h_next (m !!! p)) m in
    let m := set_prev q p m in
    let m := set_next p q m in
    let m := set_prev (h_next (m !!! q)) q m in
    set_size p size m.

(** The body of the search loop of [grub_real_malloc] once [p] fits:
    returns the pointer, the memory and [*first]. *)
Definition carve (al : allocator) (align n want p first : Z)
    (m : gmap Z grub_mm_header) : Z * gmap Z grub_mm_header * Z :=
  let want :=
    if decide (al = GRUB_MM_ALLOCATOR_LAST)
    then word (want + word (word (h_size (m !!! p) - want) / align * align))
    else want in
  let m := split_chunk p want m in
  if want =? n then
    let first := if p =? first then h_next (m !!! p) else first in
    let m := set_next (h_prev (m !!! p)) (h_next (m !!! p)) m in
    let m := set_prev (h_next (m !!! p)) (h_prev (m !!! p)) m in
    let m := set_magic p GRUB_MM_ALLOC_MAGIC m in
    (hdr_add p 1, m, first)
  else
    let m := set_size p (word (h_size (m !!! p) - n)) m in
    let p := hdr_add p (h_size (m !!! p)) in
    let m := set_size p n m in
    let m := set_magic p GRUB_MM_ALLOC_MAGIC m in
    (hdr_add p 1, m, first).

(** The search loop of [grub_real_malloc], one unit of fuel per visited
    block. *)
Fixpoint malloc_loop (fuel : nat) (al : allocator) (align n p last first : Z)
    (m : gmap Z grub_mm_header) : outcome (Z * gmap Z grub_mm_header * Z) :=
  match fuel with
  | O => OutOfFuel
  | S fuel' =>
      let want :=
        word (n + Z.land (Z.shiftr (hdr_add p 1) GRUB_MM_ALIGN_LOG2) (word (align - 1))) in
      if p =? 0 then Fatal "null in the ring"
      else if negb (h_magic (m !!! p) =? GRUB_MM_FREE_MAGIC)
      then Fatal "free magic is broken"
      else if want <=? h_size (m !!! p) then Ok (carve al align n want p first m)
      else if p =? last then Ok (0, m, first)
      else
        malloc_loop fuel' al align n
          (if decide (al = GRUB_MM_ALLOCATOR_LAST) then h_prev (m !!! p)
           else h_next (m !!! p))
          last first m
  end.

(** The number of cells a request of [size] bytes takes, header included. *)
Definition cells_for (size : Z) : Z :=
  word (Z.shiftr (word (size + GRUB_MM_ALIGN - 1)) GRUB_MM_ALIGN_LOG2 + 1).

Definition grub_real_malloc (fuel : nat) (align size first : Z) (al : allocator)
    (m : gmap Z grub_mm_header) : outcome (Z * gmap Z grub_mm_header * Z) :=
  let n := cells_for size in
  let align := Z.shiftr align GRUB_MM_ALIGN_LOG2 in
  let align := if align =? 0 then 1 else align in
  if h_magic (m !!! first) =? GRUB_MM_ALLOC_MAGIC then Ok (0, m, first)
  else
    match al with
    | GRUB_MM_ALLOCATOR_SECOND =>
        malloc_loop fuel al align n (h_next (m !!! first)) first first m
    | GRUB_MM_ALLOCATOR_LAST =>
        malloc_loop fuel al align n (h_prev (m !!! first)) first first m
    | _ =>
        malloc_loop fuel al align n first (h_prev (m !!! first)) first m
    end.

(** One pass of [grub_memalign_policy] over the region list: [done] are
    the regions already visited, in reverse. *)
Fixpoint scan_regions (fuel : nat) (align size : Z) (policy : nat)
    (done rest : list grub_mm_region) (m : gmap Z grub_mm_header)
    : outcome (Z * gmap Z grub_mm_header * list grub_mm_region) :=
  match rest with
  | [] => Ok (0, m, rev done)
  | r :: rest' =>
      if decide (policy_of r policy = GRUB_MM_ALLOCATOR_SKIP)
      then scan_regions fuel align size policy (r :: done) rest' m
      else
        '(p, m, first) ← grub_real_malloc fuel align size (r_first r) (policy_of r policy) m;
        if p =? 0
        then scan_regions fuel align size policy (with_first first r :: done) rest' m
        else Ok (p, m, rev done ++ with_first first r :: rest')
  end.

Section allocator.

(** The reclamation hooks are code of other subsystems: they act on the
    memory and on the region list. *)
Variable grub_disk_cache_invalidate_all grub_dl_unload_unneeded :
  gmap Z grub_mm_header * list grub_mm_region →
  gmap Z grub_mm_header * list grub_mm_region.

Definition call_hook (c : ext_call)
    (f : gmap Z grub_mm_header * list grub_mm_region →
         gmap Z grub_mm_header * list grub_mm_region)
    (st : mm_state) : mm_state :=
  MmState (f (heap st, base st)).1 (f (heap st, base st)).2
          (grub_errno st) (grub_errmsg st) (calls st ++ [c]).

(** One pass over the region list, on the state. *)
Definition scan_pass (fuel : nat) (align size : Z) (policy : nat) (st : mm_state)
    : outcome (Z * mm_state) :=
  '(p, m, rs) ← scan_regions fuel align size policy [] (base st) (heap st);
  Ok (p, with_mem m rs st).

(** [grub_memalign_policy] from the label [again] on.  [count] runs from 0
    to 2; the recursion is on [left = 2 - count]. *)
Fixpoint memalign_again (left : nat) (fuel : nat) (align size : Z) (policy : nat)
    (st : mm_state) : outcome (Z * mm_state) :=
  '(p, st) ← scan_pass fuel align size policy st;
  if negb (p =? 0) then Ok (p, st)
  else
    match left with
    | S left' =>
        let st :=
          match left' with
          | S _ => call_hook DISK_CACHE_INVALIDATE_ALL grub_disk_cache_invalidate_all st
          | O => call_hook DL_UNLOAD_UNNEEDED grub_dl_unload_unneeded st
          end in
        memalign_again left' fuel align size policy st
    | O => Ok (0, grub_error GRUB_ERR_OUT_OF_MEMORY "out of memory" st)
    end.

Definition grub_memalign_policy (fuel : nat) (align size : Z) (policy : nat)
    (st : mm_state) : outcome (Z * mm_state) :=
  memalign_again 2 fuel align size policy st.

Definition grub_memalign (fuel : nat) (align size : Z) (st : mm_state)
    : outcome (Z * mm_state) :=
  grub_memalign_policy fuel align size GRUB_MM_MALLOC_DEFAULT st.

Definition grub_malloc (fuel : nat) (size : Z) (st : mm_state)
    : outcome (Z * mm_state) :=
  grub_memalign fuel 0 size st.

Definition grub_zalloc (fuel : nat) (size : Z) (st : mm_state)
    : outcome (Z * mm_state) :=
  '(ret, st) ← grub_memalign fuel 0 size st;
  if negb (ret =? 0)
  then Ok (ret, with_heap (grub_memset_zero (heap st) ret size) st)
  else Ok (ret, st).

End allocator.

(** The insertion walk of [grub_free]: returns [q] at loop exit. *)
Fixpoint free_walk (fuel : nat) (m : gmap Z grub_mm_header) (first p q : Z)
    : outcome Z :=
  match fuel with
  | O => OutOfFuel
  | S fuel' =>
      if (q <=? p) && negb (q =? h_prev (m !!! first)) then
        if negb (h_magic (m !!! q) =? GRUB_MM_FREE_MAGIC)
        then Fatal "free magic is broken"
        else free_walk fuel' m first p (h_next (m !!! q))
      else Ok q
  end.

(** The general case of [grub_free], after the walk stopped at [q]:
    returns the memory and [r->first]. *)
Definition free_insert (p q first : Z) (m : gmap Z grub_mm_header)
    : gmap Z grub_mm_header * Z :=
  let q := if p <? q then h_prev (m !!! q) else q in
  let first :=
    if (first =? h_next (m !!! q)) && (p <? h_next (m !!! q)) then p else first in
  let m := set_magic p GRUB_MM_FREE_MAGIC m in
  let m := set_next p (h_next (m !!! q)) m in
  let m := set_prev (h_next (m !!! p)) p m in
  let m := set_next q p m in
  let m := set_prev (h_next (m !!! q)) q m in
  let m :=
    if hdr_add p (h_size (m !!! p)) =? h_next (m !!! p) then
      let m := set_magic (h_next (m !!! p)) 0 m in
      let m := set_size p (word (h_size (m !!! p) + h_size (m !!! h_next (m !!! p)))) m in
      let m := set_next p (h_next (m !!! h_next (m !!! p))) m in
      set_prev (h_next (m !!! p)) p m
    else m in
  let m :=
    if hdr_add q (h_size (m !!! q)) =? p then
      let m := set_magic p 0 m in
      let m := set_size q (word (h_size (m !!! q) + h_size (m !!! p))) m in
      let m := set_next q (h_next (m !!! p)) m in
      set_prev (h_next (m !!! q)) q m
    else m in
  (m, first).

Definition grub_free (fuel : nat) (ptr : Z) (st : mm_state) : outcome mm_state :=
  if ptr =? 0 then Ok st
  else
    '(p, i, r) ← get_header_from_pointer (heap st) (base st) ptr;
    let m := heap st in
    if h_magic (m !!! r_first r) =? GRUB_MM_ALLOC_MAGIC then
      let m := set_magic p GRUB_MM_FREE_MAGIC m in
      let m := set_prev p p m in
      let m := set_next p p m in
      Ok (with_mem m (<[i := with_first p r]> (base st)) st)
    else
      q ← free_walk fuel m (r_first r) p (r_first r);
      let '(m, first) := free_insert p q (r_first r) m in
      Ok (with_mem m (<[i := with_first first r]> (base st)) st).

Section resize.

Variable grub_disk_cache_invalidate_all grub_dl_unload_unneeded :
  gmap Z grub_mm_header * list grub_mm_region →
  gmap Z grub_mm_header * list grub_mm_region.

Definition grub_rememalign_policy (fuel : nat) (ptr align size : Z) (policy : nat)
    (st : mm_state) : outcome (Z * mm_state) :=
  if ptr =? 0 then
    grub_memalign_policy grub_disk_cache_invalidate_all grub_dl_unload_unneeded
      fuel align size policy st
  else if size =? 0 then
    st ← grub_free fuel ptr st; Ok (0, st)
  else
    let n := cells_for size in
    '(p, i, r) ← get_header_from_pointer (heap st) (base st) ptr;
    let m := heap st in
    if n <=? h_size (m !!! p) then Ok (ptr, st)
    else
      let p2 := hdr_add p (h_size (m !!! p)) in
      if (p2 <? word (r_addr r + word (Z.shiftl (r_size r) GRUB_MM_ALIGN_LOG2)))
         && (h_magic (m !!! p2) =? GRUB_MM_FREE_MAGIC)
         && (n <=? word (h_size (m !!! p) + h_size (m !!! p2)))
      then
        let m := split_chunk p2 (word (n - h_size (m !!! p))) m in
        let m := set_prev (h_next (m !!! p2)) (h_prev (m !!! p2)) m in
        let m := set_next (h_prev (m !!! p2)) (h_next (m !!! p2)) m in
        let first := if r_first r =? p2 then h_next (m !!! p2) else r_first r in
        let first := if first =? p2 then p else first in
        let m := set_size p n m in
        Ok (ptr, with_mem m (<[i := with_first first r]> (base st)) st)
      else
        '(q, st) ← grub_memalign_policy grub_disk_cache_invalidate_all
                     grub_dl_unload_unneeded fuel align size policy st;
        if q =? 0 then Ok (q, st)
        else
          let st := with_heap (grub_memcpy (heap st) q ptr size) st in
          st ← grub_free fuel ptr st;
          Ok (q, st).

Definition grub_realloc (fuel : nat) (ptr size : Z) (st : mm_state)
    : outcome (Z * mm_state) :=
  grub_rememalign_policy fuel ptr 1 size GRUB_MM_MALLOC_DEFAULT st.

End resize.

(** * Verification *)

(** ** Words, shifts and masks *)

Lemma GRUB_MM_ALIGN_16 : GRUB_MM_ALIGN = 16.
Proof. reflexivity. Qed.

Lemma word_small z : 0 ≤ z < 2 ^ 32 → word z = z.
Proof. intros. unfold word. apply Z.mod_small. lia. Qed.

Lemma word_range z : 0 ≤ word z < 2 ^ 32.
Proof. unfold word. apply Z.mod_pos_bound. lia. Qed.

Lemma hdr_add_small p k :
  0 ≤ p + 16 * k < 2 ^ 32 → hdr_add p k = p + 16 * k.
Proof. intros. unfold hdr_add. rewrite GRUB_MM_ALIGN_16. by apply word_small. Qed.

Lemma shiftr_cell z : Z.shiftr z GRUB_MM_ALIGN_LOG2 = z / 16.
Proof. unfold GRUB_MM_ALIGN_LOG2. by rewrite Z.shiftr_div_pow2. Qed.

Lemma shiftl_cell z : Z.shiftl z GRUB_MM_ALIGN_LOG2 = z * 16.
Proof. unfold GRUB_MM_ALIGN_LOG2. by rewrite Z.shiftl_mul_pow2. Qed.

Lemma land_cell_mask z : Z.land z (GRUB_MM_ALIGN - 1) = z mod 16.
Proof. change (GRUB_MM_ALIGN - 1) with (Z.ones 4). by rewrite Z.land_ones. Qed.

Lemma ALIGN_UP_cell addr :
  ALIGN_UP addr GRUB_MM_ALIGN = word (addr + 15) / 16 * 16.
Proof.
  unfold ALIGN_UP. rewrite GRUB_MM_ALIGN_16.
  replace (addr + 16 - 1) with (addr + 15) by lia.
  change (word (Z.lnot (16 - 1))) with (Z.land (Z.lnot (Z.ones 4)) (Z.ones 32)).
  rewrite (Z.land_comm (Z.lnot _)), Z.land_assoc, Z.land_ones by lia.
  fold (word (word (addr + 15))).
  rewrite (word_small (word _)) by apply word_range.
  rewrite <- Z.ldiff_land, Z.ldiff_ones_r by lia.
  by rewrite Z.shiftl_mul_pow2, Z.shiftr_div_pow2.
Qed.

(** The cell count of a request, without the shifts. *)
Lemma cells_for_eq size : cells_for size = word (word (size + 15) / 16 + 1).
Proof.
  unfold cells_for. rewrite shiftr_cell, GRUB_MM_ALIGN_16.
  by replace (size + 16 - 1) with (size + 15) by lia.
Qed.

(** ** Reading a field after a field store *)

Section field_stores.
Implicit Types (m : gmap Z grub_mm_header) (p q v : Z).

Lemma prev_set_prev m p q v :
  h_prev (set_prev p v m !!! q) = if decide (p = q) then v else h_prev (m !!! q).
Proof. unfold set_prev. rewrite lookup_total_insert. by case_decide; subst. Qed.
Lemma next_set_prev m p q v : h_next (set_prev p v m !!! q) = h_next (m !!! q).
Proof. unfold set_prev. rewrite lookup_total_insert. by case_decide; subst. Qed.
Lemma size_set_prev m p q v : h_size (set_prev p v m !!! q) = h_size (m !!! q).
Proof. unfold set_prev. rewrite lookup_total_insert. by case_decide; subst. Qed.
Lemma magic_set_prev m p q v : h_magic (set_prev p v m !!! q) = h_magic (m !!! q).
Proof. unfold set_prev. rewrite lookup_total_insert. by case_decide; subst. Qed.

Lemma prev_set_next m p q v : h_prev (set_next p v m !!! q) = h_prev (m !!! q).
Proof. unfold set_next. rewrite lookup_total_insert. by case_decide; subst. Qed.
Lemma next_set_next m p q v :
  h_next (set_next p v m !!! q) = if decide (p = q) then v else h_next (m !!! q).
Proof. unfold set_next. rewrite lookup_total_insert. by case_decide; subst. Qed.
Lemma size_set_next m p q v : h_size (set_next p v m !!! q) = h_size (m !!! q).
Proof. unfold set_next. rewrite lookup_total_insert. by case_decide; subst. Qed.
Lemma magic_set_next m p q v : h_magic (set_next p v m !!! q) = h_magic (m !!! q).
Proof. unfold set_next. rewrite lookup_total_insert. by case_decide; subst. Qed.

Lemma prev_set_size m p q v : h_prev (set_size p v m !!! q) = h_prev (m !!! q).
Proof. unfold set_size. rewrite lookup_total_insert. by case_decide; subst. Qed.
Lemma next_set_size m p q v : h_next (set_size p v m !!! q) = h_next (m !!! q).
Proof. unfold set_size. rewrite lookup_total_insert. by case_decide; subst. Qed.
Lemma size_set_size m p q v :
  h_size (set_size p v m !!! q) = if decide (p = q) then v else h_size (m !!! q).
Proof. unfold set_size. rewrite lookup_total_insert. by case_decide; subst. Qed.
Lemma magic_set_size m p q v : h_magic (set_size p v m !!! q) = h_magic (m !!! q).
Proof. unfold set_size. rewrite lookup_total_insert. by case_decide; subst. Qed.

Lemma prev_set_magic m p q v : h_prev (set_magic p v m !!! q) = h_prev (m !!! q).
Proof. unfold set_magic. rewrite lookup_total_insert. by case_decide; subst. Qed.
Lemma next_set_magic m p q v : h_next (set_magic p v m !!! q) = h_next (m !!! q).
Proof. unfold set_magic. rewrite lookup_total_insert. by case_decide; subst. Qed.
Lemma size_set_magic m p q v : h_size (set_magic p v m !!! q) = h_size (m !!! q).
Proof. unfold set_magic. rewrite lookup_total_insert. by case_decide; subst. Qed.
Lemma magic_set_magic m p q v :
  h_magic (set_magic p v m !!! q) = if decide (p = q) then v else h_magic (m !!! q).
Proof. unfold set_magic. rewrite lookup_total_insert. by case_decide; subst. Qed.

(** A store leaves every other cell as it was. *)
Lemma lookup_set_prev_ne m p q v : p ≠ q → set_prev p v m !!! q = m !!! q.
Proof. intros. unfold set_prev. by rewrite lookup_total_insert_ne. Qed.
Lemma lookup_set_next_ne m p q v : p ≠ q → set_next p v m !!! q = m !!! q.
Proof. intros. unfold set_next. by rewrite lookup_total_insert_ne. Qed.
Lemma lookup_set_size_ne m p q v : p ≠ q → set_size p v m !!! q = m !!! q.
Proof. intros. unfold set_size. by rewrite lookup_total_insert_ne. Qed.
Lemma lookup_set_magic_ne m p q v : p ≠ q → set_magic p v m !!! q = m !!! q.
Proof. intros. unfold set_magic. by rewrite lookup_total_insert_ne. Qed.

End field_stores.

Create Rewrite HintDb fields.
#[export] Hint Rewrite prev_set_prev next_set_prev size_set_prev magic_set_prev
  prev_set_next next_set_next size_set_next magic_set_next
  prev_set_size next_set_size size_set_size magic_set_size
  prev_set_magic next_set_magic size_set_magic magic_set_magic : fields.

(** ** The free ring

    [dll m pv l nx]: the headers at [l] are linked in this order, [pv]
    before the first of them and [nx] after the last.  A ring is a segment
    closed on itself. *)

Fixpoint dll (m : gmap Z grub_mm_header) (pv : Z) (l : list Z) (nx : Z) : Prop :=
  match l with
  | [] => True
  | a :: l' => h_prev (m !!! a) = pv ∧ h_next (m !!! a) = hd nx l' ∧ dll m a l' nx
  end.

Definition ring (m : gmap Z grub_mm_header) (l : list Z) : Prop :=
  match l with
  | [] => True
  | a :: _ => dll m (List.last l a) l a
  end.

Section lists.
Context {A : Type}.
Implicit Types (l : list A) (d : A).

Lemma hd_app l1 l2 d : hd d (l1 ++ l2) = hd (hd d l2) l1.
Proof. by destruct l1. Qed.

Lemma List_last_default l d d' : l ≠ [] → List.last l d = List.last l d'.
Proof.
  induction l as [|a [|b l] IH]; [done|done|]. intros _.
  change (List.last (b :: l) d = List.last (b :: l) d'). by apply IH.
Qed.

Lemma List_last_elem_of l d : l ≠ [] → List.last l d ∈ l.
Proof.
  induction l as [|a [|b l] IH]; [done| |].
  - intros _. simpl. apply list_elem_of_here.
  - intros _. apply list_elem_of_further.
    change (List.last (b :: l) d ∈ b :: l). by apply IH.
Qed.

Lemma hd_elem_of l d : l ≠ [] → hd d l ∈ l.
Proof. destruct l; [done|]. intros _. apply list_elem_of_here. Qed.

Lemma List_last_cons a l d : List.last (a :: l) d = List.last l a.
Proof.
  destruct l as [|b l]; [done|].
  change (List.last (b :: l) d = List.last (b :: l) a). by apply List_last_default.
Qed.

Lemma List_last_app l1 l2 d : List.last (l1 ++ l2) d = List.last l2 (List.last l1 d).
Proof.
  revert d. induction l1 as [|a l1 IH]; intros d; [done|].
  by rewrite <- app_comm_cons, !List_last_cons, IH.
Qed.

Lemma NoDup_rotate l1 a l2 : NoDup (l1 ++ a :: l2) → NoDup (a :: (l2 ++ l1)).
Proof.
  intros H. eapply NoDup_Permutation_proper; [|exact H].
  rewrite <- Permutation_middle. apply Permutation_skip, Permutation_app_comm.
Qed.

End lists.

Section ring.
Implicit Types (m : gmap Z grub_mm_header) (l : list Z) (a pv nx : Z).

Lemma dll_app m pv l1 l2 nx :
  dll m pv (l1 ++ l2) nx ↔ dll m pv l1 (hd nx l2) ∧ dll m (List.last l1 pv) l2 nx.
Proof.
  revert pv. induction l1 as [|a l1 IH]; intros pv.
  - simpl. tauto.
  - rewrite List_last_cons. simpl. rewrite IH, hd_app. tauto.
Qed.

(** A segment survives every store that keeps the links inside it; the
    two outer links may be redirected. *)
Lemma dll_change m m' pv pv' nx nx' l :
  NoDup l → l ≠ [] →
  (∀ a, a ∈ l → a ≠ List.last l 0 → h_next (m' !!! a) = h_next (m !!! a)) →
  h_next (m' !!! List.last l 0) = nx' →
  (∀ a, a ∈ l → a ≠ hd 0 l → h_prev (m' !!! a) = h_prev (m !!! a)) →
  h_prev (m' !!! hd 0 l) = pv' →
  dll m pv l nx → dll m' pv' l nx'.
Proof.
  revert pv pv'. induction l as [|a l IH]; [done|].
  intros pv pv' [Ha Hnd]%NoDup_cons _ Hn Hnl Hp Hph (Hpa & Hna & Hd).
  simpl in Hph. rewrite List_last_cons in Hn, Hnl.
  destruct l as [|b l].
  - simpl in *. done.
  - split_and!; [done| |].
    + rewrite Hn; [done|apply list_elem_of_here|].
      intros E. apply Ha. rewrite E. by apply List_last_elem_of.
    + simpl in Hd. apply (IH a); [done|done| | | | |done].
      * intros c Hc Hcl. apply Hn; [by apply list_elem_of_further|].
        by rewrite (List_last_default _ a 0).
      * by rewrite (List_last_default _ 0 a).
      * intros c Hc Hcl. apply Hp; [by apply list_elem_of_further|].
        simpl. intros ->. done.
      * simpl. rewrite Hp; [tauto|apply list_elem_of_further, list_elem_of_here|].
        simpl. intros ->. apply Ha, list_elem_of_here.
Qed.

Lemma dll_frame m m' pv nx l :
  (∀ a, a ∈ l → h_next (m' !!! a) = h_next (m !!! a)) →
  (∀ a, a ∈ l → h_prev (m' !!! a) = h_prev (m !!! a)) →
  dll m pv l nx → dll m' pv l nx.
Proof.
  revert pv. induction l as [|a l IH]; [done|].
  intros pv Hn Hp (Hpa & Hna & Hd). split_and!.
  - rewrite Hp; [done|apply list_elem_of_here].
  - rewrite Hn; [done|apply list_elem_of_here].
  - apply IH; [| |done]; intros; [apply Hn|apply Hp]; by apply list_elem_of_further.
Qed.

Lemma ring_frame m m' l :
  (∀ a, a ∈ l → h_next (m' !!! a) = h_next (m !!! a)) →
  (∀ a, a ∈ l → h_prev (m' !!! a) = h_prev (m !!! a)) →
  ring m l → ring m' l.
Proof. destruct l; [done|]. apply dll_frame. Qed.

Lemma ring_cons m a l :
  ring m (a :: l) ↔
  h_prev (m !!! a) = List.last l a ∧ h_next (m !!! a) = hd a l ∧ dll m a l a.
Proof. unfold ring. rewrite List_last_cons. done. Qed.

Lemma ring_rotate m l1 l2 : ring m (l1 ++ l2) → ring m (l2 ++ l1).
Proof.
  destruct l1 as [|a l1]; [by rewrite app_nil_r|].
  destruct l2 as [|b l2]; [by rewrite app_nil_r|].
  rewrite <- !app_comm_cons, !ring_cons.
  rewrite !List_last_app, !hd_app, !dll_app, !List_last_cons. simpl. tauto.
Qed.

(** The links of a node, read off the ring. *)
Lemma ring_next m l1 a l2 :
  ring m (l1 ++ a :: l2) → h_next (m !!! a) = hd (hd a l1) l2.
Proof.
  intros H%ring_rotate. simpl in H. apply ring_cons in H as (_ & H & _).
  by rewrite H, hd_app.
Qed.

Lemma ring_prev m l1 a l2 :
  ring m (l1 ++ a :: l2) → h_prev (m !!! a) = List.last l1 (List.last l2 a).
Proof.
  intros H%ring_rotate. simpl in H. apply ring_cons in H as (H & _ & _).
  by rewrite H, List_last_app.
Qed.

Lemma dll_last_next m pv l nx :
  l ≠ [] → dll m pv l nx → h_next (m !!! List.last l 0) = nx.
Proof.
  revert pv. induction l as [|a l IH]; [done|].
  intros pv _ (_ & Hn & Hd). destruct l as [|b l]; [done|].
  change (List.last (a :: b :: l) 0) with (List.last (b :: l) 0).
  by apply (IH a).
Qed.

(** Unlinking [x]: its predecessor and its successor are linked to each
    other, every other link stays. *)
Lemma ring_remove m m' l1 x l2 :
  NoDup (l1 ++ x :: l2) →
  ring m (l1 ++ x :: l2) →
  (∀ a, a ∈ l1 ++ l2 →
     h_next (m' !!! a) =
     if decide (a = h_prev (m !!! x)) then h_next (m !!! x) else h_next (m !!! a)) →
  (∀ a, a ∈ l1 ++ l2 →
     h_prev (m' !!! a) =
     if decide (a = h_next (m !!! x)) then h_prev (m !!! x) else h_prev (m !!! a)) →
  ring m' (l1 ++ l2).
Proof.
  intros Hnd Hr Hn Hp. apply ring_rotate.
  assert (Hin : ∀ a, a ∈ l2 ++ l1 → a ∈ l1 ++ l2).
  { intros a. rewrite !elem_of_app. tauto. }
  apply (ring_rotate _ l1 (x :: l2)) in Hr. rewrite <- app_comm_cons in Hr.
  assert (Hnd' : NoDup (x :: (l2 ++ l1))).
  { by apply NoDup_rotate. }
  apply NoDup_cons in Hnd' as [Hx Hnd'].
  revert Hr Hn Hp Hin Hx Hnd'. generalize (l2 ++ l1). intros R Hr Hn Hp Hin Hx Hnd'.
  apply ring_cons in Hr as (Hpx & Hnx & Hd).
  destruct R as [|b R]; [done|].
  unfold ring. rewrite Hpx, Hnx in *. simpl hd in *.
  eapply (dll_change m m'); [done|done| | | | |exact Hd].
  - intros a Ha Hal. rewrite Hn by auto. rewrite (List_last_default _ x 0) by done.
    by rewrite decide_False.
  - rewrite Hn by (apply Hin; by apply List_last_elem_of).
    rewrite (List_last_default _ x 0) by done. by rewrite decide_True.
  - intros a Ha Hah. rewrite Hp by auto. by rewrite decide_False.
  - change (hd 0 (b :: R)) with b.
    rewrite Hp by (apply Hin, list_elem_of_here). rewrite decide_True by done.
    by apply List_last_default.
Qed.

(** Linking the new node [x] after [q]. *)
Lemma ring_insert m m' l1 q l2 x :
  NoDup (l1 ++ q :: l2) → x ∉ l1 ++ q :: l2 →
  ring m (l1 ++ q :: l2) →
  h_next (m' !!! q) = x →
  h_prev (m' !!! x) = q →
  h_next (m' !!! x) = h_next (m !!! q) →
  h_prev (m' !!! h_next (m !!! q)) = x →
  (∀ a, a ∈ l1 ++ q :: l2 → a ≠ q → h_next (m' !!! a) = h_next (m !!! a)) →
  (∀ a, a ∈ l1 ++ q :: l2 → a ≠ h_next (m !!! q) →
     h_prev (m' !!! a) = h_prev (m !!! a)) →
  ring m' (l1 ++ q :: x :: l2).
Proof.
  intros Hnd Hx Hr Hnq Hpx Hnx Hpn Hn Hp.
  apply (ring_rotate _ (q :: x :: l2) l1). rewrite <- !app_comm_cons.
  assert (Hin : ∀ a, a ∈ q :: (l2 ++ l1) → a ∈ l1 ++ q :: l2).
  { intros a. rewrite !elem_of_app, !elem_of_cons, elem_of_app. tauto. }
  apply (ring_rotate _ l1 (q :: l2)) in Hr. rewrite <- app_comm_cons in Hr.
  assert (Hnd' : NoDup (q :: (l2 ++ l1))).
  { by apply NoDup_rotate. }
  assert (Hx' : x ∉ q :: (l2 ++ l1)) by (intros ?; apply Hx; auto).
  clear Hnd Hx. apply NoDup_cons in Hnd' as [Hq Hnd].
  revert Hr Hin Hq Hnd Hx'. generalize (l2 ++ l1).
  intros R Hr Hin Hq Hnd Hx. apply ring_cons in Hr as (Hpq & Hnq0 & Hd).
  apply ring_cons. rewrite List_last_cons. simpl hd. rewrite Hnq0 in *.
  destruct R as [|b R].
  - simpl in *. done.
  - simpl hd in *. split_and!; [|done|].
    + rewrite Hp; [rewrite Hpq; by apply List_last_default| apply Hin, list_elem_of_here|].
      intros ->. apply Hq, list_elem_of_here.
    + split_and!; [done|done|].
      eapply (dll_change m m'); [done|done| | | | |exact Hd].
      * intros a Ha _. apply Hn; [by apply Hin, list_elem_of_further|].
        intros ->. done.
      * rewrite Hn.
        -- by apply (dll_last_next m q).
        -- apply Hin, list_elem_of_further. by apply List_last_elem_of.
        -- intros E. apply Hq. rewrite <- E. by apply List_last_elem_of.
      * intros a Ha Hab. apply Hp; [by apply Hin, list_elem_of_further|done].
      * done.
Qed.

End ring.

Lemma ring_next_elem_of m l a : ring m l → a ∈ l → h_next (m !!! a) ∈ l.
Proof.
  intros Hr (l1 & l2 & ->)%list_elem_of_split.
  rewrite (ring_next _ _ _ _ Hr). destruct l2 as [|b l2]; simpl.
  - destruct l1 as [|c l1]; simpl; [apply list_elem_of_here|].
    apply list_elem_of_here.
  - apply elem_of_app. right. apply list_elem_of_further, list_elem_of_here.
Qed.

Lemma ring_prev_elem_of m l a : ring m l → a ∈ l → h_prev (m !!! a) ∈ l.
Proof.
  intros Hr (l1 & l2 & ->)%list_elem_of_split.
  rewrite (ring_prev _ _ _ _ Hr). destruct l1 as [|c l1].
  - simpl. destruct l2 as [|b l2]; [apply list_elem_of_here|].
    apply list_elem_of_further. by apply List_last_elem_of.
  - apply elem_of_app. left. rewrite (List_last_default _ _ 0) by done.
    by apply List_last_elem_of.
Qed.

(** ** Blocks

    A region at rest is tiled by blocks; [b_free] tells whether the header
    carries the FREE or the ALLOC magic. *)

Record block := Block { b_addr : Z; b_size : Z; b_free : bool }.

Definition tag (free : bool) : Z :=
  if free then GRUB_MM_FREE_MAGIC else GRUB_MM_ALLOC_MAGIC.

Fixpoint tiling (m : gmap Z grub_mm_header) (a e : Z) (bs : list block) : Prop :=
  match bs with
  | [] => a = e
  | b :: bs' =>
      b_addr b = a ∧ 1 ≤ b_size b ∧
      h_size (m !!! a) = b_size b ∧ h_magic (m !!! a) = tag (b_free b) ∧
      tiling m (a + 16 * b_size b) e bs'
  end.

Fixpoint frees (bs : list block) : list Z :=
  match bs with
  | [] => []
  | b :: bs' => if b_free b then b_addr b :: frees bs' else frees bs'
  end.

Fixpoint allocs (bs : list block) : list Z :=
  match bs with
  | [] => []
  | b :: bs' => if b_free b then allocs bs' else b_addr b :: allocs bs'
  end.

(** No two neighbouring blocks are both free. *)
Fixpoint no_adj (bs : list block) : Prop :=
  match bs with
  | b1 :: bs' =>
      match bs' with
      | b2 :: _ => ¬ (b_free b1 = true ∧ b_free b2 = true)
      | [] => True
      end ∧ no_adj bs'
  | [] => True
  end.

Section tiling.
Implicit Types (m : gmap Z grub_mm_header) (bs : list block) (a e : Z).

Lemma frees_app bs1 bs2 : frees (bs1 ++ bs2) = frees bs1 ++ frees bs2.
Proof.
  induction bs1 as [|b bs1 IH]; [done|]. simpl. destruct (b_free b); [|done].
  by rewrite IH.
Qed.

Lemma allocs_app bs1 bs2 : allocs (bs1 ++ bs2) = allocs bs1 ++ allocs bs2.
Proof.
  induction bs1 as [|b bs1 IH]; [done|]. simpl. destruct (b_free b); [done|].
  by rewrite IH.
Qed.

Lemma tiling_le m a e bs : tiling m a e bs → a ≤ e.
Proof.
  revert a. induction bs as [|b bs IH]; simpl; intros a; [lia|].
  intros (_ & ? & _ & _ & H%IH). lia.
Qed.

Lemma tiling_app m a e bs1 bs2 :
  tiling m a e (bs1 ++ bs2) ↔ ∃ c, tiling m a c bs1 ∧ tiling m c e bs2.
Proof.
  revert a. induction bs1 as [|b bs1 IH]; intros a; simpl.
  - split; [eauto|]. by intros (c & -> & ?).
  - rewrite IH. naive_solver.
Qed.

Lemma tiling_frame m m' a e bs :
  (∀ x, a ≤ x < e →
     h_size (m' !!! x) = h_size (m !!! x) ∧ h_magic (m' !!! x) = h_magic (m !!! x)) →
  tiling m a e bs → tiling m' a e bs.
Proof.
  revert a. induction bs as [|b bs IH]; [done|].
  intros a Hf (? & ? & Hs & Hm & Ht). pose proof (tiling_le _ _ _ _ Ht).
  destruct (Hf a) as [Hs' Hm']; [lia|]. rewrite <- Hs', <- Hm' in *.
  split_and!; [done..|].
  apply IH; [|done]. intros x ?. apply Hf. lia.
Qed.

(** Every block lies inside the tiled span. *)
Lemma tiling_block m a e bs b :
  tiling m a e bs → b ∈ bs →
  a ≤ b_addr b ∧ 1 ≤ b_size b ∧ b_addr b + 16 * b_size b ≤ e ∧
  h_size (m !!! b_addr b) = b_size b ∧ h_magic (m !!! b_addr b) = tag (b_free b).
Proof.
  revert a. induction bs as [|b' bs IH]; intros a; [by intros _ ?%elem_of_nil|].
  intros (<- & ? & ? & ? & Ht) [->|Hb]%elem_of_cons.
  - apply tiling_le in Ht. split_and!; [lia|done|lia|done|done].
  - destruct (IH _ Ht Hb) as (? & ? & ? & ? & ?). split_and!; [lia|done..].
Qed.

Lemma elem_of_frees bs x :
  x ∈ frees bs ↔ ∃ b, b ∈ bs ∧ b_addr b = x ∧ b_free b = true.
Proof.
  induction bs as [|b bs IH]; simpl.
  - split; [by intros ?%elem_of_nil|]. by intros (? & ?%elem_of_nil & _).
  - destruct (b_free b) eqn:Hb.
    + rewrite elem_of_cons, IH. setoid_rewrite elem_of_cons. split.
      * intros [->|(b0 & ? & ? & ?)]; [exists b; auto|exists b0; auto].
      * intros (b0 & [->|?] & ? & ?); [by left|right; exists b0; auto].
    + rewrite IH. setoid_rewrite elem_of_cons. split.
      * intros (b0 & ? & ? & ?). exists b0; auto.
      * intros (b0 & [->|?] & ? & ?); [congruence|exists b0; auto].
Qed.

Lemma elem_of_allocs bs x :
  x ∈ allocs bs ↔ ∃ b, b ∈ bs ∧ b_addr b = x ∧ b_free b = false.
Proof.
  induction bs as [|b bs IH]; simpl.
  - split; [by intros ?%elem_of_nil|]. by intros (? & ?%elem_of_nil & _).
  - destruct (b_free b) eqn:Hb.
    + rewrite IH. setoid_rewrite elem_of_cons. split.
      * intros (b0 & ? & ? & ?). exists b0; auto.
      * intros (b0 & [->|?] & ? & ?); [congruence|exists b0; auto].
    + rewrite elem_of_cons, IH. setoid_rewrite elem_of_cons. split.
      * intros [->|(b0 & ? & ? & ?)]; [exists b; auto|exists b0; auto].
      * intros (b0 & [->|?] & ? & ?); [by left|right; exists b0; auto].
Qed.

Lemma tiling_frees m a e bs x :
  tiling m a e bs → x ∈ frees bs →
  a ≤ x < e ∧ 1 ≤ h_size (m !!! x) ∧ x + 16 * h_size (m !!! x) ≤ e ∧
  h_magic (m !!! x) = GRUB_MM_FREE_MAGIC.
Proof.
  intros Ht (b & Hb & <- & Hf)%elem_of_frees.
  destruct (tiling_block _ _ _ _ _ Ht Hb) as (? & ? & ? & -> & ->).
  rewrite Hf. split_and!; [lia|lia|done|done|done].
Qed.

Lemma tiling_allocs m a e bs x :
  tiling m a e bs → x ∈ allocs bs →
  a ≤ x < e ∧ 1 ≤ h_size (m !!! x) ∧ x + 16 * h_size (m !!! x) ≤ e ∧
  h_magic (m !!! x) = GRUB_MM_ALLOC_MAGIC.
Proof.
  intros Ht (b & Hb & <- & Hf)%elem_of_allocs.
  destruct (tiling_block _ _ _ _ _ Ht Hb) as (? & ? & ? & -> & ->).
  rewrite Hf. split_and!; [lia|lia|done|done|done].
Qed.

Lemma tiling_frees_NoDup m a e bs : tiling m a e bs → NoDup (frees bs).
Proof.
  revert a. induction bs as [|b bs IH]; intros a; [constructor|].
  intros (<- & ? & ? & ? & Ht). simpl. destruct (b_free b); [|by eapply IH].
  apply NoDup_cons. split; [|by eapply IH].
  intros Hin. destruct (tiling_frees _ _ _ _ _ Ht Hin). lia.
Qed.

Lemma no_adj_app_l bs1 bs2 : no_adj (bs1 ++ bs2) → no_adj bs1.
Proof.
  induction bs1 as [|b bs1 IH]; [done|]. simpl. intros [H1 H2]. split; [|auto].
  destruct bs1; [done|]. done.
Qed.

Lemma no_adj_app_r bs1 bs2 : no_adj (bs1 ++ bs2) → no_adj bs2.
Proof. induction bs1 as [|b bs1 IH]; [done|]. simpl. intros [_ ?]. auto. Qed.

End tiling.

(** ** The primitives of the block engine on a tiled region *)

Ltac fields := autorewrite with fields in *.
Ltac cases :=
  repeat (case_decide; try lia); subst; try done; try lia; try congruence.
Ltac words := rewrite ?word_small, ?hdr_add_small in * by lia.

Section primitives.
Implicit Types (m : gmap Z grub_mm_header) (bs : list block).

(** The tiling around one block. *)
Lemma tiling_focus m A E bs1 b bs2 :
  tiling m A E (bs1 ++ b :: bs2) →
  tiling m A (b_addr b) bs1 ∧ A ≤ b_addr b ∧ 1 ≤ b_size b ∧
  h_size (m !!! b_addr b) = b_size b ∧ h_magic (m !!! b_addr b) = tag (b_free b) ∧
  tiling m (b_addr b + 16 * b_size b) E bs2 ∧ b_addr b + 16 * b_size b ≤ E.
Proof.
  intros (c & H1 & <- & ? & ? & ? & H2)%tiling_app.
  pose proof (tiling_le _ _ _ _ H1). pose proof (tiling_le _ _ _ _ H2). done.
Qed.

Lemma tiling_unfocus m A E bs1 bs bs2 c d :
  tiling m A c bs1 → tiling m c d bs → tiling m d E bs2 →
  tiling m A E (bs1 ++ bs ++ bs2).
Proof. intros. apply tiling_app. exists c. split; [done|]. apply tiling_app. eauto. Qed.

Lemma header_ext (c c' : grub_mm_header) :
  h_prev c = h_prev c' → h_next c = h_next c' →
  h_size c = h_size c' → h_magic c = h_magic c' → c = c'.
Proof. destruct c, c'. simpl. by intros -> -> -> ->. Qed.

Lemma not_elem_of_frees_focus m A E bs1 bs2 p e x :
  tiling m A p bs1 → tiling m e E bs2 → p < x → x < e →
  x ∉ frees bs1 ++ p :: frees bs2.
Proof.
  intros Ht1 Ht2 ? ?. rewrite elem_of_app, elem_of_cons.
  intros [Hx|[->|Hx]]; [|lia|].
  - destruct (tiling_frees _ _ _ _ _ Ht1 Hx). lia.
  - destruct (tiling_frees _ _ _ _ _ Ht2 Hx). lia.
Qed.

Lemma split_chunk_spec m A E bs1 p sz bs2 w :
  0 < A → E < 2 ^ 32 →
  tiling m A E (bs1 ++ Block p sz true :: bs2) →
  ring m (frees (bs1 ++ Block p sz true :: bs2)) →
  1 ≤ w < sz →
  tiling (split_chunk p w m) A E
    (bs1 ++ [Block p w true; Block (p + 16 * w) (sz - w) true] ++ bs2) ∧
  ring (split_chunk p w m)
    (frees (bs1 ++ [Block p w true; Block (p + 16 * w) (sz - w) true] ++ bs2)) ∧
  (∀ a, a ≠ p → a ≠ p + 16 * w → a ≠ h_next (m !!! p) →
        split_chunk p w m !!! a = m !!! a).
Proof.
  intros HA HE Ht Hr Hw.
  pose proof (tiling_frees_NoDup _ _ _ _ Ht) as Hnd.
  destruct (tiling_focus _ _ _ _ _ _ Ht) as (Ht1 & ? & ? & Hsz & Hmg & Ht2 & ?).
  simpl in *. unfold split_chunk.
  rewrite Hsz. rewrite (proj2 (Z.leb_gt _ _)) by lia.
  rewrite hdr_add_small by lia.
  split_and!.
  - eapply (tiling_unfocus _ _ _ _ [_; _]); [| |].
    + eapply tiling_frame; [|exact Ht1]. intros x ?. fields. cases.
    + simpl. fields. words. split_and!; [done|lia| | |done|lia| | |reflexivity]; cases.
    + replace (p + 16 * w + 16 * (sz - w)) with (p + 16 * sz) by lia.
      eapply tiling_frame; [|exact Ht2]. intros x ?. fields. cases.
  - rewrite frees_app in *. simpl in *.
    assert (Hq : p + 16 * w ∉ frees bs1 ++ p :: frees bs2).
    { eapply not_elem_of_frees_focus; [done|done|lia|lia]. }
    assert (h_next (m !!! p) ≠ p + 16 * w).
    { intros E'. apply Hq. rewrite <- E'. apply ring_next_elem_of; [done|].
      apply elem_of_app. right. apply list_elem_of_here. }
    apply ring_insert with (m := m); [done|done|done|..].
    + fields. cases.
    + fields. cases.
    + fields. cases.
    + fields. cases.
    + intros a Ha Hne. assert (a ≠ p + 16 * w) by (by intros ->). fields. cases.
    + intros a Ha Hne. assert (a ≠ p + 16 * w) by (by intros ->). fields. cases.
  - intros a ? ? ?. apply header_ext; fields; cases.
Qed.

(** Taking the free block [p] off the ring and marking it allocated, as
    the exact-fit branch of [grub_real_malloc] does. *)
Lemma unlink_spec m A E bs1 p n bs2 :
  tiling m A E (bs1 ++ Block p n true :: bs2) →
  ring m (frees (bs1 ++ Block p n true :: bs2)) →
  let m1 := set_next (h_prev (m !!! p)) (h_next (m !!! p)) m in
  let m2 := set_prev (h_next (m1 !!! p)) (h_prev (m1 !!! p)) m1 in
  let m3 := set_magic p GRUB_MM_ALLOC_MAGIC m2 in
  tiling m3 A E (bs1 ++ Block p n false :: bs2) ∧
  ring m3 (frees (bs1 ++ Block p n false :: bs2)) ∧
  (∀ a, a ≠ p → a ≠ h_prev (m !!! p) → a ≠ h_next (m !!! p) → m3 !!! a = m !!! a).
Proof.
  intros Ht Hr m1 m2 m3. subst m1 m2 m3.
  pose proof (tiling_frees_NoDup _ _ _ _ Ht) as Hnd.
  destruct (tiling_focus _ _ _ _ _ _ Ht) as (Ht1 & ? & ? & Hsz & Hmg & Ht2 & ?).
  simpl in *. split_and!.
  - eapply (tiling_unfocus _ _ _ _ [_]); [| |].
    + eapply tiling_frame; [|exact Ht1]. intros x ?. fields. cases.
    + simpl. fields. split_and!; [done|lia| | |reflexivity]; cases.
    + eapply tiling_frame; [|exact Ht2]. intros x ?. fields. cases.
  - rewrite frees_app in *. simpl in *.
    apply ring_remove with (m := m) (x := p); [done|done|..].
    + intros a Ha. fields. cases.
    + intros a Ha. fields. cases.
  - intros a ? ? ?. apply header_ext; fields; cases.
Qed.

(** Carving the allocation from the high end of the free block [p], as the
    other branch of [grub_real_malloc] does. *)
Lemma tail_spec m A E bs1 p w bs2 n :
  0 < A → E < 2 ^ 32 →
  tiling m A E (bs1 ++ Block p w true :: bs2) →
  ring m (frees (bs1 ++ Block p w true :: bs2)) →
  1 ≤ n < w →
  let m1 := set_size p (word (h_size (m !!! p) - n)) m in
  let p' := hdr_add p (h_size (m1 !!! p)) in
  let m2 := set_size p' n m1 in
  let m3 := set_magic p' GRUB_MM_ALLOC_MAGIC m2 in
  p' = p + 16 * (w - n) ∧
  tiling m3 A E (bs1 ++ [Block p (w - n) true; Block p' n false] ++ bs2) ∧
  ring m3 (frees (bs1 ++ [Block p (w - n) true; Block p' n false] ++ bs2)) ∧
  (∀ a, a ≠ p → a ≠ p' → m3 !!! a = m !!! a).
Proof.
  intros HA HE Ht Hr Hn m1 p' m2 m3.
  destruct (tiling_focus _ _ _ _ _ _ Ht) as (Ht1 & ? & ? & Hsz & Hmg & Ht2 & ?).
  simpl in *.
  assert (Hp' : p' = p + 16 * (w - n)).
  { subst p' m1. fields. rewrite decide_True by done. rewrite Hsz. by words. }
  clearbody p'. subst p' m1 m2 m3. split; [done|]. rewrite Hsz. words. split_and!.
  - eapply (tiling_unfocus _ _ _ _ [_; _]); [| |].
    + eapply tiling_frame; [|exact Ht1]. intros x ?. fields. cases.
    + simpl. fields. split_and!; [done|lia| | |done|lia| | |reflexivity]; cases.
    + replace (p + 16 * (w - n) + 16 * n) with (p + 16 * w) by lia.
      eapply tiling_frame; [|exact Ht2]. intros x ?. fields. cases.
  - rewrite frees_app in *. simpl in *.
    eapply ring_frame; [| |exact Hr]; intros a Ha; by fields.
  - intros a ? ?. apply header_ext; fields; cases.
Qed.

(** The free block [a] swallows its ring successor [s], which lies right
    behind it: the coalescing steps of [grub_free]. *)
Lemma absorb_spec m A E bs1 a s1 s s2 bs2 :
  E < 2 ^ 32 → 0 < A →
  tiling m A E (bs1 ++ [Block a s1 true; Block s s2 true] ++ bs2) →
  ring m (frees (bs1 ++ [Block a s1 true; Block s s2 true] ++ bs2)) →
  let m1 := set_magic s 0 m in
  let m2 := set_size a (word (h_size (m1 !!! a) + h_size (m1 !!! s))) m1 in
  let m3 := set_next a (h_next (m2 !!! s)) m2 in
  let m4 := set_prev (h_next (m3 !!! a)) a m3 in
  tiling m4 A E (bs1 ++ Block a (s1 + s2) true :: bs2) ∧
  ring m4 (frees (bs1 ++ Block a (s1 + s2) true :: bs2)) ∧
  (∀ x, x ≠ a → x ≠ s → x ≠ h_next (m !!! s) → m4 !!! x = m !!! x).
Proof.
  intros HE HA Ht Hr m1 m2 m3 m4. subst m1 m2 m3 m4.
  pose proof (tiling_frees_NoDup _ _ _ _ Ht) as Hnd.
  destruct (tiling_focus _ _ _ _ _ _ Ht) as (Ht1 & ? & ? & Hsz & Hmg & Ht2 & ?).
  simpl in *. destruct Ht2 as (-> & ? & Hsz' & Hmg' & Ht2).
  pose proof (tiling_le _ _ _ _ Ht2).
  rewrite frees_app in *. simpl in *.
  assert (Hps : h_prev (m !!! (a + 16 * s1)) = a).
  { rewrite (ring_prev _ (frees bs1 ++ [a]) _ (frees bs2)).
    - by rewrite List_last_app.
    - by rewrite <- app_assoc. }
  split_and!.
  - eapply (tiling_unfocus _ _ _ _ [_]); [| |].
    + eapply tiling_frame; [|exact Ht1]. intros x ?. fields. cases.
    + simpl. fields. rewrite Hsz, Hsz'. words.
      split_and!; [done|lia| | |reflexivity]; cases.
    + replace (a + 16 * (s1 + s2)) with (a + 16 * s1 + 16 * s2) by lia.
      eapply tiling_frame; [|exact Ht2]. intros x ?. fields. cases.
  - replace (frees bs1 ++ a :: frees bs2) with ((frees bs1 ++ [a]) ++ frees bs2)
      by (by rewrite <- app_assoc).
    apply ring_remove with (m := m) (x := a + 16 * s1).
    + by rewrite <- app_assoc.
    + by rewrite <- app_assoc.
    + intros x Hx. rewrite Hps. fields. cases.
    + intros x Hx. rewrite Hps. fields. cases.
  - intros x ? ? ?. apply header_ext; fields; cases.
Qed.

(** [grub_rememalign_policy] growing the allocated block [p] over the free
    block [p2] behind it. *)
Lemma grow_spec m A E bs1 p s1 p2 k bs2 :
  E < 2 ^ 32 → 0 < A →
  tiling m A E (bs1 ++ [Block p s1 false; Block p2 k true] ++ bs2) →
  ring m (frees (bs1 ++ [Block p s1 false; Block p2 k true] ++ bs2)) →
  let m1 := set_prev (h_next (m !!! p2)) (h_prev (m !!! p2)) m in
  let m2 := set_next (h_prev (m1 !!! p2)) (h_next (m1 !!! p2)) m1 in
  let m3 := set_size p (s1 + k) m2 in
  tiling m3 A E (bs1 ++ Block p (s1 + k) false :: bs2) ∧
  ring m3 (frees (bs1 ++ Block p (s1 + k) false :: bs2)) ∧
  (∀ x, x ≠ p → x ≠ h_prev (m !!! p2) → x ≠ h_next (m !!! p2) → m3 !!! x = m !!! x).
Proof.
  intros HE HA Ht Hr m1 m2 m3. subst m1 m2 m3.
  pose proof (tiling_frees_NoDup _ _ _ _ Ht) as Hnd.
  destruct (tiling_focus _ _ _ _ _ _ Ht) as (Ht1 & ? & ? & Hsz & Hmg & Ht2 & ?).
  simpl in *. destruct Ht2 as (-> & ? & Hsz' & Hmg' & Ht2).
  pose proof (tiling_le _ _ _ _ Ht2).
  rewrite frees_app in *. simpl in *.
  assert (Hp : p ∉ frees bs1 ++ (p + 16 * s1) :: frees bs2).
  { rewrite elem_of_app, elem_of_cons. intros [Hx|[?|Hx]]; [|lia|].
    - destruct (tiling_frees _ _ _ _ _ Ht1 Hx). lia.
    - destruct (tiling_frees _ _ _ _ _ Ht2 Hx). lia. }
  split_and!.
  - eapply (tiling_unfocus _ _ _ _ [_]); [| |].
    + eapply tiling_frame; [|exact Ht1]. intros x ?. fields. cases.
    + simpl. fields. split_and!; [done|lia| | |reflexivity]; cases.
    + replace (p + 16 * (s1 + k)) with (p + 16 * s1 + 16 * k) by lia.
      eapply tiling_frame; [|exact Ht2]. intros x ?. fields. cases.
  - apply ring_remove with (m := m) (x := p + 16 * s1); [done|done|..].
    + intros x Hx. fields. cases.
    + intros x Hx. fields. cases.
  - intros x ? ? ?. apply header_ext; fields; cases.
Qed.

(** Linking [p] into an address-ordered ring: [F1] are the nodes below
    [p], [F2] those above, and [p] goes after the last node below it, or
    after the last node of all when none is below. *)
Lemma ring_link m m' F1 F2 p :
  NoDup (F1 ++ F2) → p ∉ F1 ++ F2 → F1 ++ F2 ≠ [] →
  ring m (F1 ++ F2) →
  ∀ q, q = List.last F1 (List.last F2 0) →
  h_next (m' !!! q) = p →
  h_prev (m' !!! p) = q →
  h_next (m' !!! p) = h_next (m !!! q) →
  h_prev (m' !!! h_next (m !!! q)) = p →
  (∀ a, a ∈ F1 ++ F2 → a ≠ q → h_next (m' !!! a) = h_next (m !!! a)) →
  (∀ a, a ∈ F1 ++ F2 → a ≠ h_next (m !!! q) →
     h_prev (m' !!! a) = h_prev (m !!! a)) →
  ring m' (F1 ++ p :: F2).
Proof.
  intros Hnd Hp Hne Hr q ->. destruct F1 as [|q1 F1 _] using rev_ind.
  - destruct F2 as [|q2 F2 _] using rev_ind; [done|].
    simpl in *. rewrite List_last_app. simpl. intros.
    apply (ring_rotate _ (F2 ++ [q2]) [p]). rewrite <- app_assoc. simpl.
    eapply ring_insert; eauto.
  - rewrite List_last_app. simpl. rewrite <- !app_assoc in *. simpl in *.
    intros. eapply ring_insert; eauto.
Qed.

(** Linking the allocated block [p] back into the ring, as the general
    case of [grub_free] does before it coalesces. *)
Lemma link_spec m A E bs1 p n bs2 :
  tiling m A E (bs1 ++ Block p n false :: bs2) →
  ring m (frees (bs1 ++ Block p n false :: bs2)) →
  frees (bs1 ++ bs2) ≠ [] →
  let q := List.last (frees bs1) (List.last (frees bs2) 0) in
  let m1 := set_magic p GRUB_MM_FREE_MAGIC m in
  let m2 := set_next p (h_next (m1 !!! q)) m1 in
  let m3 := set_prev (h_next (m2 !!! p)) p m2 in
  let m4 := set_next q p m3 in
  let m5 := set_prev (h_next (m4 !!! q)) q m4 in
  tiling m5 A E (bs1 ++ Block p n true :: bs2) ∧
  ring m5 (frees (bs1 ++ Block p n true :: bs2)) ∧
  (∀ a, a ≠ p → a ≠ q → a ≠ h_next (m !!! q) → m5 !!! a = m !!! a).
Proof.
  intros Ht Hr Hne q m1 m2 m3 m4 m5. subst m1 m2 m3 m4 m5.
  pose proof (tiling_frees_NoDup _ _ _ _ Ht) as Hnd.
  destruct (tiling_focus _ _ _ _ _ _ Ht) as (Ht1 & ? & ? & Hsz & Hmg & Ht2 & ?).
  simpl in *. rewrite frees_app in *. simpl in *.
  assert (Hp : p ∉ frees bs1 ++ frees bs2).
  { rewrite elem_of_app. intros [Hx|Hx].
    - destruct (tiling_frees _ _ _ _ _ Ht1 Hx). lia.
    - destruct (tiling_frees _ _ _ _ _ Ht2 Hx). lia. }
  assert (Hqd : q = List.last (frees bs1) (List.last (frees bs2) 0)) by done.
  assert (Hq : q ∈ frees bs1 ++ frees bs2).
  { assert (q ∈ frees bs2 ++ frees bs1) as Hq.
    { subst q. rewrite <- List_last_app. apply List_last_elem_of.
      intros [E2 E1]%app_eq_nil. rewrite E1, E2 in Hne. done. }
    revert Hq. rewrite !elem_of_app. tauto. }
  assert (q ≠ p) by (by intros <-).
  assert (h_next (m !!! q) ≠ p).
  { intros E'. apply Hp. rewrite <- E'. by apply ring_next_elem_of. }
  clearbody q. split_and!.
  - eapply (tiling_unfocus _ _ _ _ [_]); [| |].
    + eapply tiling_frame; [|exact Ht1]. intros x ?. fields. cases.
    + simpl. fields. split_and!; [done|lia| | |reflexivity]; cases.
    + eapply tiling_frame; [|exact Ht2]. intros x ?. fields. cases.
  - eapply ring_link with (m := m) (q := q); [done|done|done|done|done|..].
    + fields. cases.
    + fields. cases.
    + fields. cases.
    + fields. cases.
    + intros a Ha Hne'. assert (a ≠ p) by (by intros ->). fields. cases.
    + intros a Ha Hne'. assert (a ≠ p) by (by intros ->). fields. cases.
  - intros x ? ? ?. apply header_ext; fields; cases.
Qed.

End primitives.

(** ** The invariant of a region at rest *)

Record region_inv (m : gmap Z grub_mm_header) (r : grub_mm_region)
    (bs : list block) : Prop := RegionInv {
  ri_low : 0 < r_addr r;
  ri_high : r_addr r + r_size r < 2 ^ 32;
  ri_aligned : r_addr r mod 16 = 0;
  ri_tiling : tiling m (r_addr r) (r_addr r + r_size r) bs;
  ri_no_adj : no_adj bs;
  ri_ring : ring m (frees bs);
  ri_first :
    match frees bs with
    | f :: _ => r_first r = f
    | [] => r_first r ∈ allocs bs
    end
}.

Definition free_head (bs : list block) : bool :=
  match bs with b :: _ => b_free b | [] => false end.

Definition free_last (bs : list block) : bool :=
  match last bs with Some b => b_free b | None => false end.

Section no_adj.
Implicit Types (bs : list block) (b : block).

Lemma no_adj_cons b bs :
  no_adj (b :: bs) ↔ ¬ (b_free b = true ∧ free_head bs = true) ∧ no_adj bs.
Proof.
  simpl. destruct bs as [|b' bs]; simpl; [|tauto].
  split; [|tauto]. intros _. split; [|done]. by intros [_ ?].
Qed.

Lemma free_last_cons b bs :
  free_last (b :: bs) = if bs is [] then b_free b else free_last bs.
Proof.
  unfold free_last. rewrite last_cons. destruct bs as [|b' bs]; [done|].
  destruct (last (b' :: bs)) eqn:E; [done|]. by apply last_None in E.
Qed.

Lemma no_adj_app bs1 bs2 :
  no_adj (bs1 ++ bs2) ↔
  no_adj bs1 ∧ no_adj bs2 ∧ ¬ (free_last bs1 = true ∧ free_head bs2 = true).
Proof.
  induction bs1 as [|b bs1 IH].
  - simpl. unfold free_last. simpl. split; [|tauto]. intros ?. split_and!; [done..|].
    by intros [? _].
  - rewrite <- app_comm_cons, !no_adj_cons, IH, free_last_cons.
    destruct bs1 as [|b1 bs1].
    + change (free_last []) with false. simpl. intuition congruence.
    + change (free_head ((b1 :: bs1) ++ bs2)) with (free_head (b1 :: bs1)). tauto.
Qed.

Lemma free_last_snoc bs b : free_last (bs ++ [b]) = b_free b.
Proof. unfold free_last. by rewrite last_snoc. Qed.

Lemma free_last_app bs1 bs2 :
  bs2 ≠ [] → free_last (bs1 ++ bs2) = free_last bs2.
Proof.
  intros H. unfold free_last. rewrite last_app.
  destruct (last bs2) eqn:E; [done|]. by apply last_None in E.
Qed.

Lemma free_head_app bs1 bs2 :
  free_head (bs1 ++ bs2) = if bs1 is [] then free_head bs2 else free_head bs1.
Proof. by destruct bs1. Qed.

End no_adj.

(** ** The search loop of [grub_real_malloc] *)

Fixpoint chain (step : Z → Z) (l : list Z) : Prop :=
  match l with
  | a :: l' =>
      match l' with
      | b :: _ => step a = b
      | [] => True
      end ∧ chain step l'
  | [] => True
  end.

Section search.
Implicit Types (m : gmap Z grub_mm_header) (l : list Z).

Lemma chain_snoc step l a :
  chain step (l ++ [a]) ↔ chain step l ∧ (l = [] ∨ step (List.last l 0) = a).
Proof.
  induction l as [|b l IH]; [simpl; tauto|].
  rewrite <- app_comm_cons. rewrite List_last_cons.
  change (chain step (b :: l ++ [a])) with
    (match l ++ [a] with c :: _ => step b = c | [] => True end ∧ chain step (l ++ [a])).
  change (chain step (b :: l)) with
    (match l with c :: _ => step b = c | [] => True end ∧ chain step l).
  rewrite IH. destruct l as [|c l].
  - simpl. intuition congruence.
  - rewrite (List_last_default _ b 0) by done. simpl. intuition congruence.
Qed.

Lemma chain_ext (f g : Z → Z) l :
  (∀ x, g x = f x) → chain g l → chain f l.
Proof.
  intros E. induction l as [|a l IH]; [done|]. intros [H1 H2].
  split; [|auto]. destruct l; [done|]. by rewrite <- E.
Qed.

Lemma dll_chain_next m pv l nx : dll m pv l nx → chain (λ x, h_next (m !!! x)) l.
Proof.
  revert pv. induction l as [|a l IH]; [done|]. intros pv (_ & Hn & Hd).
  split; [|by eapply IH]. by destruct l.
Qed.

Lemma dll_chain_prev m pv l nx :
  dll m pv l nx → chain (λ x, h_prev (m !!! x)) (rev l).
Proof.
  revert pv. induction l as [|a l IH]; [done|]. intros pv (_ & _ & Hd).
  simpl. apply chain_snoc. split; [by eapply IH|].
  destruct l as [|b l]; [by left|]. right.
  destruct Hd as (Hp & _). simpl rev. rewrite List_last_app. done.
Qed.

(** The span a request of [n] cells needs in the block at [p]. *)
Definition want_of (align n p : Z) : Z :=
  word (n + Z.land (Z.shiftr (hdr_add p 1) GRUB_MM_ALIGN_LOG2) (word (align - 1))).

(** The direction of the walk. *)
Definition step_of (al : allocator) m (x : Z) : Z :=
  if decide (al = GRUB_MM_ALLOCATOR_LAST) then h_prev (m !!! x) else h_next (m !!! x).

(** Walking the nodes [l] in order, with fuel for each of them, the loop
    ends: it carves from a node that fits or reports failure without a
    store. *)
Lemma malloc_loop_spec m al align n first lst l :
  NoDup l →
  (∀ x, x ∈ l → x ≠ 0 ∧ h_magic (m !!! x) = GRUB_MM_FREE_MAGIC) →
  chain (step_of al m) l → l ≠ [] → lst = List.last l 0 →
  ∀ fuel, (length l ≤ fuel)%nat →
  ∃ res, malloc_loop fuel al align n (hd 0 l) lst first m = Ok res ∧
    (res = (0, m, first) ∨
     ∃ x, x ∈ l ∧ want_of align n x ≤ h_size (m !!! x) ∧
          res = carve al align n (want_of align n x) x first m).
Proof.
  induction l as [|a l IH]; [done|].
  intros [Ha Hnd]%NoDup_cons Hm Hc _ Hl [|fuel] Hf; [simpl in Hf; lia|].
  simpl hd. simpl malloc_loop. fold (want_of align n a).
  destruct (Hm a) as [Ha0 Hma]; [apply list_elem_of_here|].
  rewrite (proj2 (Z.eqb_neq a 0)) by done.
  rewrite Hma, Z.eqb_refl. simpl negb. cbv iota.
  destruct (Z.leb_spec (want_of align n a) (h_size (m !!! a))).
  { eexists. split; [done|]. right. exists a. split; [apply list_elem_of_here|done]. }
  destruct (Z.eqb_spec a lst) as [E|E].
  { eexists. split; [done|]. by left. }
  destruct l as [|b l]; [by rewrite Hl in E|].
  destruct Hc as [Hab Hc]. fold (step_of al m a). rewrite Hab.
  destruct (IH Hnd) with (fuel := fuel) as (res & Hres & Hcase).
  - intros x Hx. apply Hm. by apply list_elem_of_further.
  - done.
  - done.
  - by rewrite Hl, List_last_cons, (List_last_default _ a 0).
  - simpl in Hf |- *. lia.
  - exists res. split; [done|]. destruct Hcase as [?|(x & ? & ?)]; [by left|].
    right. exists x. split; [by apply list_elem_of_further|done].
Qed.

End search.

(** ** Allocation inside one region *)

(** What becomes of the free block at [p], of [sz] cells, when [n] cells
    are carved from a span of [w]: padding, the allocation, the rest. *)
Definition carved (p sz w n : Z) : list block :=
  (if decide (n < w) then [Block p (w - n) true] else []) ++
  [Block (p + 16 * (w - n)) n false] ++
  (if decide (w < sz) then [Block (p + 16 * w) (sz - w) true] else []).

Section carve.
Implicit Types (m : gmap Z grub_mm_header) (bs : list block) (r : grub_mm_region).

Lemma split_chunk_id m p w : h_size (m !!! p) ≤ w → split_chunk p w m = m.
Proof. intros. unfold split_chunk. by rewrite (proj2 (Z.leb_le _ _)). Qed.

Lemma region_inv_frees_range m r bs x :
  region_inv m r bs → x ∈ frees bs →
  r_addr r ≤ x < r_addr r + r_size r ∧ x ≠ 0 ∧
  h_magic (m !!! x) = GRUB_MM_FREE_MAGIC.
Proof.
  intros [] Hx. destruct (tiling_frees _ _ _ _ _ ri_tiling0 Hx) as (? & ? & ? & ?).
  split_and!; [lia|lia|lia|done].
Qed.

Lemma no_adj_carved bs1 p sz bs2 w n :
  no_adj (bs1 ++ Block p sz true :: bs2) → no_adj (bs1 ++ carved p sz w n ++ bs2).
Proof.
  intros (H1 & (H2 & H4)%no_adj_cons & H3)%no_adj_app. simpl in H2, H3.
  apply no_adj_app. unfold carved.
  repeat case_decide; simpl app; rewrite ?no_adj_cons; simpl; intuition congruence.
Qed.

Lemma frees_carved p sz w n :
  frees (carved p sz w n) =
  (if decide (n < w) then [p] else []) ++
  (if decide (w < sz) then [p + 16 * w] else []).
Proof. unfold carved. by repeat case_decide. Qed.

Lemma allocs_carved p sz w n : allocs (carved p sz w n) = [p + 16 * (w - n)].
Proof. unfold carved. by repeat case_decide. Qed.

Lemma split_stage m A E bs1 p sz bs2 w :
  0 < A → E < 2 ^ 32 →
  tiling m A E (bs1 ++ Block p sz true :: bs2) →
  ring m (frees (bs1 ++ Block p sz true :: bs2)) →
  1 ≤ w ≤ sz →
  let post := if decide (w < sz) then [Block (p + 16 * w) (sz - w) true] else [] in
  tiling (split_chunk p w m) A E (bs1 ++ Block p w true :: post ++ bs2) ∧
  ring (split_chunk p w m) (frees (bs1 ++ Block p w true :: post ++ bs2)) ∧
  (∀ a, ¬ (p ≤ a < p + 16 * sz) → a ≠ h_next (m !!! p) →
        split_chunk p w m !!! a = m !!! a).
Proof.
  intros HA HE Ht Hr Hw post. subst post. case_decide.
  - destruct (split_chunk_spec m A E bs1 p sz bs2 w) as (? & ? & Hf); [done..|lia|].
    split_and!; [done|done|]. intros a ? ?. apply Hf; lia.
  - destruct (tiling_focus _ _ _ _ _ _ Ht) as (_ & _ & _ & Hsz & _).
    simpl in Hsz. rewrite split_chunk_id by lia.
    assert (w = sz) as -> by lia. done.
Qed.

Lemma carve_spec m r bs1 p sz bs2 al align n want ptr m' first' :
  region_inv m r (bs1 ++ Block p sz true :: bs2) →
  1 ≤ n → n ≤ want ≤ sz → 1 ≤ align →
  carve al align n want p (r_first r) m = (ptr, m', first') →
  ∃ w, n ≤ w ≤ sz ∧ ptr = p + 16 * (w - n) + 16 ∧
    region_inv m' (with_first first' r) (bs1 ++ carved p sz w n ++ bs2) ∧
    (∀ a, ¬ (p ≤ a < p + 16 * sz) → a ∉ frees (bs1 ++ Block p sz true :: bs2) →
          m' !!! a = m !!! a).
Proof.
  intros [Hlo Hhi Hal Ht Hna Hr Hf] Hn Hw Ha.
  destruct (tiling_focus _ _ _ _ _ _ Ht) as (Ht1 & ? & ? & Hsz & Hmg & Ht2 & ?).
  simpl in *. unfold carve. rewrite Hsz.
  set (w := if decide (al = GRUB_MM_ALLOCATOR_LAST)
            then word (want + word (word (sz - want) / align * align)) else want).
  assert (Hww : n ≤ w ≤ sz).
  { subst w. case_decide; [|done].
    assert (0 ≤ (sz - want) / align * align ≤ sz - want).
    { pose proof (Z.mul_div_le (sz - want) align ltac:(lia)).
      pose proof (Z.div_pos (sz - want) align ltac:(lia) ltac:(lia)). nia. }
    rewrite (word_small (sz - want)) by lia.
    rewrite (word_small (_ * _)) by lia. rewrite word_small by lia. lia. }
  clearbody w. intros Hc. exists w. split; [done|].
  destruct (split_stage m _ _ bs1 p sz bs2 w Hlo Hhi Ht Hr) as (HtA & HrA & HfA);
    [lia|].
  assert (Hnp : h_next (m !!! p) ∈ frees (bs1 ++ Block p sz true :: bs2)).
  { apply ring_next_elem_of; [done|]. rewrite frees_app. simpl.
    apply elem_of_app. right. apply list_elem_of_here. }
  set (post := if decide (w < sz) then [Block (p + 16 * w) (sz - w) true] else [])
    in *.
  set (m1 := split_chunk p w m) in *. clearbody m1.
  assert (Hp1 : hdr_add p 1 = p + 16) by (apply hdr_add_small; lia).
  assert (Hsub : ∀ x,
    x ∈ frees (bs1 ++ Block p w true :: post ++ bs2) →
    x ∈ frees (bs1 ++ Block p sz true :: bs2) ∨ p ≤ x < p + 16 * sz).
  { intros x. rewrite !frees_app. simpl. rewrite frees_app. subst post.
    case_decide; simpl; rewrite !elem_of_app, !elem_of_cons, ?elem_of_app;
      intros; intuition lia. }
  assert (Hfoot : ∀ a x, ¬ (p ≤ a < p + 16 * sz) →
    a ∉ frees (bs1 ++ Block p sz true :: bs2) →
    x ∈ frees (bs1 ++ Block p w true :: post ++ bs2) → a ≠ x).
  { intros a x ? ? [?|?]%Hsub ->; [done|lia]. }
  assert (Hpin : p ∈ frees (bs1 ++ Block p w true :: post ++ bs2)).
  { rewrite frees_app. simpl. apply elem_of_app. right. apply list_elem_of_here. }
  destruct (Z.eqb_spec w n) as [->|Hne].
  - destruct (unlink_spec m1 _ _ bs1 p n (post ++ bs2) HtA HrA) as (HtB & HrB & HfB).
    injection Hc as <- <- <-. split; [lia|].
    assert (Hcv : carved p sz n n = Block p n false :: post).
    { unfold carved. rewrite decide_False by lia. simpl.
      by replace (p + 16 * (n - n)) with p by lia. }
    pose proof (no_adj_carved _ _ _ _ n n Hna) as Hna'.
    rewrite Hcv in *. split.
    + constructor; simpl; [done|done|done|done|done|done|].
      pose proof (tiling_frees_NoDup _ _ _ _ Ht) as Hnd.
      rewrite !frees_app, !allocs_app in *. simpl in *.
      pose proof (ring_next _ _ _ _ HrA) as Hnx.
      destruct (frees bs1) as [|f F1] eqn:EF; simpl in *.
      * rewrite Hf, Z.eqb_refl, Hnx.
        destruct (frees (post ++ bs2)); simpl; [|done].
        apply elem_of_app. right. apply list_elem_of_here.
      * rewrite (proj2 (Z.eqb_neq p (r_first r))); [done|].
        intros ->. apply NoDup_cons in Hnd as [Hnd _]. apply Hnd.
        rewrite Hf. apply elem_of_app. right. apply list_elem_of_here.
    + intros a Hout Hnf. rewrite HfB; [apply HfA|..].
      * done.
      * by intros ->.
      * lia.
      * eapply Hfoot; [done|done|]. by apply ring_prev_elem_of.
      * eapply Hfoot; [done|done|]. by apply ring_next_elem_of.
  - destruct (tail_spec m1 _ _ bs1 p w (post ++ bs2) n Hlo Hhi HtA HrA)
      as (Hp' & HtB & HrB & HfB); [lia|].
    cbv zeta in Hp', HtB, HrB, HfB.
    destruct (tiling_focus _ _ _ _ _ _ HtA) as (_ & _ & _ & HszA & _).
    simpl in HszA. rewrite HszA in *.
    injection Hc as <- <- <-. rewrite Hp' in *.
    split; [rewrite hdr_add_small; lia|].
    assert (Hcv : carved p sz w n =
      [Block p (w - n) true; Block (p + 16 * (w - n)) n false] ++ post).
    { unfold carved. by rewrite decide_True by lia. }
    pose proof (no_adj_carved _ _ _ _ w n Hna) as Hna'.
    rewrite Hcv in *. rewrite <- !app_assoc in *. split.
    + constructor; simpl; [done|done|done|done|done|done|].
      rewrite !frees_app in *. simpl in *.
      destruct (frees bs1) as [|f F1] eqn:EF; simpl in *; done.
    + intros a Hout Hnf. rewrite HfB; [apply HfA|..].
      * done.
      * by intros ->.
      * lia.
      * lia.
Qed.

End carve.

Lemma land_le_r a b : 0 ≤ a → 0 ≤ b → 0 ≤ Z.land a b ≤ b.
Proof.
  intros Ha Hb. split; [apply Z.land_nonneg; auto|].
  assert (E : Z.land (Z.ldiff b a) (Z.land a b) = 0).
  { apply Z.bits_inj'. intros n Hn.
    rewrite Z.land_spec, Z.ldiff_spec, Z.land_spec, Z.bits_0.
    by destruct (Z.testbit a n), (Z.testbit b n). }
  assert (E2 : Z.lor (Z.ldiff b a) (Z.land a b) = b).
  { rewrite (Z.land_comm a b). apply Z.lor_ldiff_and. }
  rewrite <- Z.lxor_lor, <- Z.add_nocarry_lxor in E2 by done.
  assert (0 ≤ Z.ldiff b a) by (apply Z.ldiff_nonneg; auto).
  lia.
Qed.

Lemma cells_for_range size : 1 ≤ cells_for size ≤ 2 ^ 28.
Proof.
  rewrite cells_for_eq. pose proof (word_range (size + 15)).
  assert (0 ≤ word (size + 15) / 16 < 2 ^ 28).
  { split; [apply Z.div_pos; lia|]. apply Z.div_lt_upper_bound; lia. }
  rewrite word_small; lia.
Qed.

(** The alignment in cells, as [grub_real_malloc] normalises it. *)
Definition align_cells (align : Z) : Z :=
  if Z.shiftr align GRUB_MM_ALIGN_LOG2 =? 0 then 1
  else Z.shiftr align GRUB_MM_ALIGN_LOG2.

Lemma align_cells_range align :
  0 ≤ align < 2 ^ 32 → 1 ≤ align_cells align < 2 ^ 28.
Proof.
  intros. unfold align_cells. rewrite shiftr_cell.
  assert (0 ≤ align / 16 < 2 ^ 28).
  { split; [apply Z.div_pos; lia|]. apply Z.div_lt_upper_bound; lia. }
  destruct (Z.eqb_spec (align / 16) 0); lia.
Qed.

Lemma want_of_range al n p :
  1 ≤ n ≤ 2 ^ 28 → 1 ≤ al < 2 ^ 28 →
  want_of al n p =
    n + Z.land (Z.shiftr (hdr_add p 1) GRUB_MM_ALIGN_LOG2) (al - 1) ∧
  n ≤ want_of al n p < n + al.
Proof.
  intros. unfold want_of. rewrite (word_small (al - 1)) by lia.
  assert (0 ≤ Z.shiftr (hdr_add p 1) GRUB_MM_ALIGN_LOG2).
  { rewrite shiftr_cell. apply Z.div_pos; [apply word_range|lia]. }
  pose proof (land_le_r (Z.shiftr (hdr_add p 1) GRUB_MM_ALIGN_LOG2) (al - 1)).
  rewrite word_small; lia.
Qed.

Lemma hd_rev {A} (l : list A) d : hd d (rev l) = List.last l d.
Proof.
  revert d. induction l as [|a l IH]; intros d; [done|].
  simpl rev. by rewrite hd_app, IH, List_last_cons.
Qed.

Lemma elem_of_frees_split bs x :
  x ∈ frees bs → ∃ bs1 sz bs2, bs = bs1 ++ Block x sz true :: bs2.
Proof.
  intros (b & (bs1 & bs2 & ->)%list_elem_of_split & <- & Hf)%elem_of_frees.
  exists bs1, (b_size b), bs2. destruct b. simpl in *. by subst.
Qed.

Lemma elem_of_allocs_split bs x :
  x ∈ allocs bs → ∃ bs1 sz bs2, bs = bs1 ++ Block x sz false :: bs2.
Proof.
  intros (b & (bs1 & bs2 & ->)%list_elem_of_split & <- & Hf)%elem_of_allocs.
  exists bs1, (b_size b), bs2. destruct b. simpl in *. by subst.
Qed.

(** [grub_real_malloc] on a region at rest: with fuel for every free
    block it returns, either null with nothing changed or a pointer one
    cell past a block carved from a free block, the region at rest again. *)
Lemma grub_real_malloc_spec m r bs fuel align size al :
  region_inv m r bs → 0 ≤ align < 2 ^ 32 →
  (length (frees bs) ≤ fuel)%nat →
  ∃ ptr m' first',
    grub_real_malloc fuel align size (r_first r) al m = Ok (ptr, m', first') ∧
    ((ptr = 0 ∧ m' = m ∧ first' = r_first r) ∨
     ∃ bs1 p sz bs2 w,
       bs = bs1 ++ Block p sz true :: bs2 ∧
       cells_for size ≤ w ≤ sz ∧
       ptr = p + 16 * (w - cells_for size) + 16 ∧
       region_inv m' (with_first first' r)
         (bs1 ++ carved p sz w (cells_for size) ++ bs2) ∧
       (∀ a, ¬ (p ≤ a < p + 16 * sz) → a ∉ frees bs → m' !!! a = m !!! a)).
Proof.
  intros Hinv Hal Hfuel. unfold grub_real_malloc. fold (align_cells align).
  pose proof (cells_for_range size) as Hn.
  pose proof (align_cells_range _ Hal) as Hac.
  pose proof Hinv as [Hlo Hhi Haln Ht Hna Hr Hf].
  destruct (frees bs) as [|f F] eqn:EF.
  { destruct (tiling_allocs _ _ _ _ _ Ht Hf) as (_ & _ & _ & ->).
    rewrite Z.eqb_refl. eexists _, _, _. split; [done|]. by left. }
  assert (Hfr : ∀ x, x ∈ f :: F → x ≠ 0 ∧ h_magic (m !!! x) = GRUB_MM_FREE_MAGIC).
  { intros x Hx. rewrite <- EF in Hx.
    by destruct (region_inv_frees_range _ _ _ _ Hinv Hx) as (_ & ? & ?). }
  pose proof (tiling_frees_NoDup _ _ _ _ Ht) as Hnd. rewrite EF in Hnd.
  destruct (Hfr f) as [_ Hmf]; [apply list_elem_of_here|].
  rewrite Hf, Hmf. change (GRUB_MM_FREE_MAGIC =? GRUB_MM_ALLOC_MAGIC) with false.
  cbv iota.
  assert (Hloop : ∃ l, l ≠ [] ∧ l ≡ₚ f :: F ∧ chain (step_of al m) l ∧
    match al with
    | GRUB_MM_ALLOCATOR_SECOND => h_next (m !!! f) = hd 0 l ∧ f = List.last l 0
    | GRUB_MM_ALLOCATOR_LAST => h_prev (m !!! f) = hd 0 l ∧ f = List.last l 0
    | _ => f = hd 0 l ∧ h_prev (m !!! f) = List.last l 0
    end).
  { pose proof (ring_next m [] f F Hr) as Hnx.
    pose proof (ring_prev m [] f F Hr) as Hpv. simpl in Hnx, Hpv.
    assert (Hd : dll m (List.last (f :: F) f) (f :: F) f) by done.
    destruct (decide (al = GRUB_MM_ALLOCATOR_SECOND)) as [->|];
      [|destruct (decide (al = GRUB_MM_ALLOCATOR_LAST)) as [->|]].
    - exists (F ++ [f]). split_and!.
      + by destruct F.
      + by rewrite Permutation_app_comm.
      + apply (ring_rotate m [f] F) in Hr.
        destruct (F ++ [f]) eqn:E; [done|]. by eapply dll_chain_next.
      + by rewrite Hnx, hd_app.
      + by rewrite List_last_app.
    - exists (rev (f :: F)). split_and!.
      + simpl. by destruct (rev F).
      + symmetry. apply Permutation_rev.
      + by eapply dll_chain_prev.
      + by rewrite hd_rev, Hpv, List_last_cons.
      + simpl rev. by rewrite List_last_app.
    - exists (f :: F). split_and!; [done|done| |].
      { eapply chain_ext; [|by eapply dll_chain_next].
        intros x. unfold step_of. by rewrite decide_False. }
      rewrite Hpv, List_last_cons.
      destruct al; done. }
  destruct Hloop as (l & Hl & Hperm & Hch & Hends).
  assert (NoDup l) by (by rewrite Hperm).
  assert (Hlen : (length l ≤ fuel)%nat).
  { by rewrite (Permutation_length Hperm). }
  assert (Hfr' : ∀ x, x ∈ l → x ≠ 0 ∧ h_magic (m !!! x) = GRUB_MM_FREE_MAGIC).
  { intros x Hx. apply Hfr. by rewrite <- Hperm. }
  assert (∃ res,
    match al with
    | GRUB_MM_ALLOCATOR_SECOND =>
        malloc_loop fuel al (align_cells align) (cells_for size)
          (h_next (m !!! f)) f f m
    | GRUB_MM_ALLOCATOR_LAST =>
        malloc_loop fuel al (align_cells align) (cells_for size)
          (h_prev (m !!! f)) f f m
    | _ =>
        malloc_loop fuel al (align_cells align) (cells_for size)
          f (h_prev (m !!! f)) f m
    end = Ok res ∧
    (res = (0, m, f) ∨
     ∃ x, x ∈ l ∧
       want_of (align_cells align) (cells_for size) x ≤ h_size (m !!! x) ∧
       res = carve al (align_cells align) (cells_for size)
               (want_of (align_cells align) (cells_for size) x) x f m))
    as (res & -> & Hres).
  { destruct al; destruct Hends as [-> ->];
      by apply malloc_loop_spec. }
  destruct Hres as [->|(x & Hx & Hwant & ->)].
  { eexists _, _, _. split; [done|]. left. done. }
  rewrite Hperm, <- EF in Hx.
  destruct (elem_of_frees_split _ _ Hx) as (bs1 & sz & bs2 & ->).
  destruct (tiling_focus _ _ _ _ _ _ Ht) as (_ & ? & _ & Hsz & _).
  simpl in *. rewrite Hsz in Hwant.
  destruct (want_of_range (align_cells align) (cells_for size) x) as [_ ?];
    [done|done|].
  destruct (carve al (align_cells align) (cells_for size)
              (want_of (align_cells align) (cells_for size) x) x f m)
    as [[ptr m'] first'] eqn:Hc.
  rewrite <- Hf in Hc.
  eapply carve_spec in Hc as (w & ? & ? & ? & ?); [|exact Hinv|lia|lia|lia].
  eexists _, _, _. split; [done|]. right.
  exists bs1, x, sz, bs2, w.
  split_and!; [done|lia|lia|done|done|by rewrite <- EF].
Qed.

(** ** Release inside one region *)

(** The two blocks of stores [grub_free] is made of. *)
Definition link_after (p q : Z) (m : gmap Z grub_mm_header) : gmap Z grub_mm_header :=
  let m := set_magic p GRUB_MM_FREE_MAGIC m in
  let m := set_next p (h_next (m !!! q)) m in
  let m := set_prev (h_next (m !!! p)) p m in
  let m := set_next q p m in
  set_prev (h_next (m !!! q)) q m.

Definition absorb (a s : Z) (m : gmap Z grub_mm_header) : gmap Z grub_mm_header :=
  let m := set_magic s 0 m in
  let m := set_size a (word (h_size (m !!! a) + h_size (m !!! s))) m in
  let m := set_next a (h_next (m !!! s)) m in
  set_prev (h_next (m !!! a)) a m.

Lemma free_insert_eq p q0 first m :
  free_insert p q0 first m =
  let q := if p <? q0 then h_prev (m !!! q0) else q0 in
  let first' :=
    if (first =? h_next (m !!! q)) && (p <? h_next (m !!! q)) then p else first in
  let m5 := link_after p q m in
  let m6 :=
    if hdr_add p (h_size (m5 !!! p)) =? h_next (m5 !!! p)
    then absorb p (h_next (m5 !!! p)) m5 else m5 in
  let m7 := if hdr_add q (h_size (m6 !!! q)) =? p then absorb q p m6 else m6 in
  (m7, first').
Proof.
  unfold free_insert, link_after, absorb. cbv zeta.
  rewrite !next_set_size, !next_set_magic. reflexivity.
Qed.

Lemma link_after_spec m A E bs1 p n bs2 q :
  tiling m A E (bs1 ++ Block p n false :: bs2) →
  ring m (frees (bs1 ++ Block p n false :: bs2)) →
  frees (bs1 ++ bs2) ≠ [] →
  q = List.last (frees bs1) (List.last (frees bs2) 0) →
  tiling (link_after p q m) A E (bs1 ++ Block p n true :: bs2) ∧
  ring (link_after p q m) (frees (bs1 ++ Block p n true :: bs2)) ∧
  (∀ a, a ≠ p → a ≠ q → a ≠ h_next (m !!! q) → link_after p q m !!! a = m !!! a).
Proof. intros ? ? ? ->. by apply link_spec. Qed.

Lemma absorb_ok m A E bs1 a s1 s s2 bs2 :
  E < 2 ^ 32 → 0 < A →
  tiling m A E (bs1 ++ [Block a s1 true; Block s s2 true] ++ bs2) →
  ring m (frees (bs1 ++ [Block a s1 true; Block s s2 true] ++ bs2)) →
  tiling (absorb a s m) A E (bs1 ++ Block a (s1 + s2) true :: bs2) ∧
  ring (absorb a s m) (frees (bs1 ++ Block a (s1 + s2) true :: bs2)) ∧
  (∀ x, x ≠ a → x ≠ s → x ≠ h_next (m !!! s) → absorb a s m !!! x = m !!! x).
Proof. intros. by apply absorb_spec. Qed.

Lemma NoDup_last_tail (l1 : list Z) a l2 d :
  NoDup (l1 ++ a :: l2) → a = List.last (l1 ++ a :: l2) d → l2 = [].
Proof.
  intros Hnd E. destruct l2 as [|b l2]; [done|]. exfalso.
  rewrite List_last_app, List_last_cons in E.
  apply NoDup_app in Hnd as (_ & _ & [Ha _]%NoDup_cons).
  apply Ha. rewrite E. by apply List_last_elem_of.
Qed.

(** The walk of [grub_free] stops at the first node above [p], or at the
    last node of the ring when none is. *)
Lemma free_walk_spec m first p F1 F2 :
  ring m (F1 ++ F2) → NoDup (F1 ++ F2) → first = hd 0 (F1 ++ F2) →
  (∀ x, x ∈ F1 → x < p) → (∀ x, x ∈ F2 → p < x) →
  (∀ x, x ∈ F1 ++ F2 → h_magic (m !!! x) = GRUB_MM_FREE_MAGIC) →
  ∀ G1 done fuel, F1 = done ++ G1 → G1 ++ F2 ≠ [] → (length G1 < fuel)%nat →
  free_walk fuel m first p (hd 0 (G1 ++ F2)) = Ok (hd (List.last F1 0) F2).
Proof.
  intros Hr Hnd Hfirst H1 H2 Hm.
  assert (Hpv : F1 ++ F2 ≠ [] → h_prev (m !!! first) = List.last (F1 ++ F2) 0).
  { intros Hne. destruct (F1 ++ F2) as [|f F] eqn:E; [done|]. simpl in Hfirst. subst f.
    rewrite (ring_prev m [] first F Hr). by rewrite List_last_cons. }
  induction G1 as [|g G1 IH]; intros done [|fuel] HF Hne Hlen; simpl in Hlen; try lia.
  - destruct F2 as [|f F2]; [done|]. simpl.
    rewrite (proj2 (Z.leb_gt f p)); [done|]. apply H2, list_elem_of_here.
  - simpl hd. simpl free_walk.
    assert (Hg : g ∈ F1) by (subst F1; apply elem_of_app; right; apply list_elem_of_here).
    rewrite (proj2 (Z.leb_le g p)) by (apply H1 in Hg; lia).
    rewrite Hpv by (subst F1; by destruct done).
    subst F1. rewrite <- ?app_assoc in *. rewrite <- ?app_comm_cons in *.
    destruct (Z.eqb_spec g (List.last (done ++ g :: G1 ++ F2) 0)) as [E|E]; simpl.
    + apply NoDup_last_tail in E; [|done].
      apply app_eq_nil in E as [-> ->]. simpl. by rewrite List_last_app.
    + rewrite Hm, Z.eqb_refl by (apply elem_of_app; right; apply list_elem_of_here).
      simpl. rewrite (ring_next m done g (G1 ++ F2) Hr).
      assert (G1 ++ F2 ≠ []).
      { intros E'. rewrite E' in *. by rewrite List_last_app in E. }
      replace (hd (hd g done) (G1 ++ F2)) with (hd 0 (G1 ++ F2))
        by (by destruct (G1 ++ F2)).
      by rewrite (IH (done ++ [g])); [|by rewrite <- app_assoc|done|lia].
Qed.

Section free_stages.
Implicit Types (m : gmap Z grub_mm_header) (bs : list block).

Lemma absorb_size m a s x : x ≠ a → h_size (absorb a s m !!! x) = h_size (m !!! x).
Proof. intros. unfold absorb. fields. cases. Qed.

(** Forward coalescing. *)
Lemma fwd_stage m A E bs1 p n bs2 :
  0 < A → E < 2 ^ 32 →
  tiling m A E (bs1 ++ Block p n true :: bs2) →
  ring m (frees (bs1 ++ Block p n true :: bs2)) →
  no_adj bs2 →
  let m' := if hdr_add p (h_size (m !!! p)) =? h_next (m !!! p)
            then absorb p (h_next (m !!! p)) m else m in
  ∃ n' bs2',
    tiling m' A E (bs1 ++ Block p n' true :: bs2') ∧
    ring m' (frees (bs1 ++ Block p n' true :: bs2')) ∧
    free_head bs2' = false ∧ no_adj bs2' ∧ allocs bs2' = allocs bs2 ∧
    (∀ x, x ≠ p → x ∉ frees bs1 → x ∉ frees bs2 → m' !!! x = m !!! x) ∧
    (∀ x, x ∈ frees bs2 →
       p < x ∧ 0 ≤ h_size (m' !!! x) ∧ x + 16 * h_size (m' !!! x) ≤ E) ∧
    (∀ x, x ∈ frees bs2' → x ∈ frees bs2).
Proof.
  intros HA HE Ht Hr Hna m'.
  pose proof (tiling_frees_NoDup _ _ _ _ Ht) as Hnd.
  destruct (tiling_focus _ _ _ _ _ _ Ht) as (Ht1 & ? & ? & Hsz & Hmg & Ht2 & ?).
  simpl in *.
  assert (Hb2 : ∀ x, x ∈ frees bs2 →
    p + 16 * n ≤ x ∧ 1 ≤ h_size (m !!! x) ∧ x + 16 * h_size (m !!! x) ≤ E).
  { intros x Hx. destruct (tiling_frees _ _ _ _ _ Ht2 Hx) as (? & ? & ? & _). lia. }
  assert (Hnx : h_next (m !!! p) = hd (hd p (frees bs1)) (frees bs2)).
  { rewrite frees_app in Hr. simpl in Hr. by rewrite (ring_next _ _ _ _ Hr). }
  subst m'. rewrite Hsz, hdr_add_small by lia.
  destruct bs2 as [|b bs2].
  { (* nothing behind [p] *)
    rewrite (proj2 (Z.eqb_neq _ _)).
    - exists n, []. split_and!; try done. intros x []%elem_of_nil.
    - rewrite Hnx. simpl. destruct (frees bs1) as [|f F] eqn:EF; simpl; [lia|].
      assert (f ∈ frees bs1) as Hf by (rewrite EF; apply list_elem_of_here).
      destruct (tiling_frees _ _ _ _ _ Ht1 Hf). lia. }
  destruct Ht2 as (Hba & ? & Hbs & Hbm & Ht2). apply no_adj_cons in Hna as [Hna1 Hna2].
  destruct (b_free b) eqn:Hbf.
  - (* a free block behind [p]: absorbed *)
    destruct b as [ba bz bf]. simpl in *. subst ba bf.
    rewrite Hnx. simpl hd. rewrite Z.eqb_refl.
    destruct (absorb_ok m A E bs1 p n (p + 16 * n) bz bs2 HE HA Ht Hr)
      as (Ht' & Hr' & Hf').
    exists (n + bz), bs2. split_and!; try done.
    + destruct (free_head bs2); [|done]. exfalso. by apply Hna1.
    + intros x ? Hx1 Hx. apply not_elem_of_cons in Hx as [? Hx].
      apply Hf'; [done|done|]. intros ->.
      assert (Hin : h_next (m !!! (p + 16 * n)) ∈
                frees bs1 ++ p :: (p + 16 * n) :: frees bs2).
      { rewrite frees_app in Hr. simpl in Hr. apply ring_next_elem_of; [done|].
        apply elem_of_app. right. apply list_elem_of_further, list_elem_of_here. }
      rewrite elem_of_app, !elem_of_cons in Hin. tauto.
    + intros x Hx. rewrite absorb_size by (destruct (Hb2 x Hx); lia).
      destruct (Hb2 x Hx). lia.
    + intros x Hx. by apply list_elem_of_further.
  - (* an allocated block behind [p] *)
    rewrite (proj2 (Z.eqb_neq _ _)).
    + exists n, (b :: bs2).
      split_and!; [done|done|done| |done|done| |done].
      { apply no_adj_cons. by rewrite Hbf. }
      intros x Hx. destruct (Hb2 x); [done|]. lia.
    + rewrite Hnx. simpl. rewrite Hbf.
      destruct (frees bs2) as [|f F] eqn:EF; simpl.
      * destruct (frees bs1) as [|f F] eqn:EF1; simpl; [lia|].
        assert (f ∈ frees bs1) as Hf by (rewrite EF1; apply list_elem_of_here).
        destruct (tiling_frees _ _ _ _ _ Ht1 Hf). lia.
      * assert (f ∈ frees bs2) as Hf by (rewrite EF; apply list_elem_of_here).
        destruct (tiling_frees _ _ _ _ _ Ht2 Hf). lia.
Qed.

(** Backward coalescing; [q] is the node [p] was linked after. *)
Lemma bwd_stage m A E bs1 p n bs2 q :
  0 < A → E < 2 ^ 32 →
  tiling m A E (bs1 ++ Block p n true :: bs2) →
  ring m (frees (bs1 ++ Block p n true :: bs2)) →
  no_adj bs1 →
  (frees bs1 ≠ [] → q = List.last (frees bs1) 0) →
  (frees bs1 = [] →
     p < q ∧ 0 ≤ h_size (m !!! q) ∧ q + 16 * h_size (m !!! q) ≤ E) →
  let m' := if hdr_add q (h_size (m !!! q)) =? p then absorb q p m else m in
  ∃ bs1' a k,
    tiling m' A E (bs1' ++ Block a k true :: bs2) ∧
    ring m' (frees (bs1' ++ Block a k true :: bs2)) ∧
    free_last bs1' = false ∧ no_adj bs1' ∧ allocs bs1' = allocs bs1 ∧
    (∀ x, x ≠ p → x ∉ frees bs1 → x ∉ frees bs2 → m' !!! x = m !!! x) ∧
    hd a (frees bs1') = hd p (frees bs1).
Proof.
  intros HA HE Ht Hr Hna Hq1 Hq2 m'.
  destruct (tiling_focus _ _ _ _ _ _ Ht) as (_ & Hp0 & _). simpl in Hp0.
  assert (Hfar : p < q ∧ 0 ≤ h_size (m !!! q) ∧ q + 16 * h_size (m !!! q) ≤ E →
    (hdr_add q (h_size (m !!! q)) =? p) = false).
  { intros (? & ? & ?). apply Z.eqb_neq. rewrite hdr_add_small; lia. }
  subst m'. destruct bs1 as [|b bs1 _] using rev_ind.
  { rewrite Hfar by auto. exists [], p, n. by split_and!. }
  rewrite <- app_assoc in Ht. simpl in Ht.
  destruct (tiling_focus _ _ _ _ _ _ Ht) as (Ht1 & ? & ? & Hsz & Hmg & Ht2 & ?).
  destruct Ht2 as (Hp & ? & Hpz & Hpm & Ht2). simpl in Hp, Hpz, Hpm, Ht2.
  apply no_adj_app in Hna as (Hna1 & _ & Hna2).
  rewrite frees_app in Hq1, Hq2. simpl in Hq1, Hq2.
  destruct (b_free b) eqn:Hbf.
  - (* a free block before [p]: it absorbs [p] *)
    destruct b as [ba bz bf]. simpl in *. subst bf p.
    rewrite Hq1 by (by destruct (frees bs1)). rewrite List_last_app. simpl.
    rewrite Hsz, hdr_add_small, Z.eqb_refl by lia.
    rewrite <- app_assoc in Hr. simpl in Hr.
    destruct (absorb_ok m A E bs1 ba bz (ba + 16 * bz) n bs2 HE HA Ht Hr)
      as (Ht' & Hr' & Hf').
    exists bs1, ba, (bz + n). split_and!; try done.
    + destruct (free_last bs1); [|done]. exfalso. by apply Hna2.
    + rewrite allocs_app. simpl. by rewrite app_nil_r.
    + intros x ? Hx1 Hx2. rewrite frees_app in Hx1. simpl in Hx1.
      apply Hf'; [|done|].
      * intros ->. apply Hx1, elem_of_app. right. apply list_elem_of_here.
      * intros ->.
        assert (Hin : h_next (m !!! (ba + 16 * bz)) ∈
                  frees bs1 ++ ba :: (ba + 16 * bz) :: frees bs2).
        { rewrite frees_app in Hr. simpl in Hr. apply ring_next_elem_of; [done|].
          apply elem_of_app. right. apply list_elem_of_further, list_elem_of_here. }
        rewrite elem_of_app, !elem_of_cons in Hin.
        rewrite elem_of_app, elem_of_cons in Hx1. tauto.
    + rewrite frees_app. simpl. by rewrite !hd_app.
  - (* an allocated block before [p] *)
    rewrite app_nil_r in Hq1, Hq2.
    assert (Hc : (hdr_add q (h_size (m !!! q)) =? p) = false).
    { destruct (frees bs1) as [|f F] eqn:EF; [auto|].
      rewrite Hq1 by done.
      assert (Hl : List.last (f :: F) 0 ∈ frees bs1).
      { rewrite EF. by apply List_last_elem_of. }
      destruct (tiling_frees _ _ _ _ _ Ht1 Hl) as (? & ? & ? & _).
      apply Z.eqb_neq. rewrite hdr_add_small; lia. }
    rewrite Hc.
    exists (bs1 ++ [b]), p, n. rewrite <- app_assoc in Hr |- *. simpl in Hr |- *.
    split_and!; try done.
    + by rewrite free_last_snoc.
    + apply no_adj_app. split_and!; [done| |done]. apply no_adj_cons. simpl.
      split; [|done]. by intros [_ ?].
Qed.

End free_stages.

Lemma ring_next_last m l :
  ring m l → l ≠ [] → h_next (m !!! List.last l 0) = hd 0 l.
Proof.
  destruct l as [|a l]; [done|]. intros Hr _. unfold ring in Hr.
  by apply dll_last_next in Hr.
Qed.

(** [r->first] after the insertion: the lowest free block. *)
Lemma first_after_link m F1 F2 p first :
  ring m (F1 ++ F2) → NoDup (F1 ++ F2) → F1 ++ F2 ≠ [] →
  first = hd 0 (F1 ++ F2) →
  (∀ x, x ∈ F1 → x < p) → (∀ x, x ∈ F2 → p < x) →
  ∀ q, q = List.last F1 (List.last F2 0) →
  (if (first =? h_next (m !!! q)) && (p <? h_next (m !!! q)) then p else first) =
  hd p F1.
Proof.
  intros Hr Hnd Hne -> Hlt Hgt q ->.
  destruct F1 as [|q F1 _] using rev_ind.
  - simpl in *. rewrite ring_next_last by done.
    rewrite Z.eqb_refl. destruct F2 as [|f F2]; [done|]. simpl.
    by rewrite (proj2 (Z.ltb_lt _ _)) by (apply Hgt, list_elem_of_here).
  - rewrite List_last_app. simpl List.last. rewrite <- app_assoc in *. simpl in *.
    rewrite (ring_next _ _ _ _ Hr).
    assert (Hh : hd p (F1 ++ [q]) = hd 0 (F1 ++ q :: F2)) by (by destruct F1).
    rewrite Hh. destruct F2 as [|f F2]; simpl.
    + replace (hd q F1) with (hd 0 (F1 ++ [q])) by (by destruct F1).
      rewrite Z.eqb_refl. rewrite (proj2 (Z.ltb_ge _ _)); [done|].
      assert (hd 0 (F1 ++ [q]) ∈ F1 ++ [q]) as Hin by (apply hd_elem_of; by destruct F1).
      apply Hlt in Hin. lia.
    + rewrite (proj2 (Z.eqb_neq _ _)); [done|]. intros E.
      assert (hd p (F1 ++ [q]) ∈ F1 ++ [q]) as Hin by (apply hd_elem_of; by destruct F1).
      apply Hlt in Hin. rewrite Hh, E in Hin.
      specialize (Hgt f (list_elem_of_here _ _)). lia.
Qed.

(** The general case of [grub_free] on a region at rest: the block at [p]
    joins the ring and its free neighbours; the region is at rest again,
    with one allocated block fewer. *)
Lemma free_general_spec m r bs1 p n bs2 fuel :
  region_inv m r (bs1 ++ Block p n false :: bs2) →
  frees (bs1 ++ bs2) ≠ [] →
  (length (frees (bs1 ++ bs2)) < fuel)%nat →
  ∃ q m' first' bs',
    free_walk fuel m (r_first r) p (r_first r) = Ok q ∧
    free_insert p q (r_first r) m = (m', first') ∧
    region_inv m' (with_first first' r) bs' ∧
    allocs bs' = allocs bs1 ++ allocs bs2 ∧
    (∀ a, a ≠ p → a ∉ frees (bs1 ++ bs2) → m' !!! a = m !!! a).
Proof.
  intros [Hlo Hhi Hal Ht Hna Hr Hf] Hne Hfuel.
  pose proof (tiling_frees_NoDup _ _ _ _ Ht) as Hnd.
  destruct (tiling_focus _ _ _ _ _ _ Ht) as (Ht1 & Hp0 & Hn0 & Hsz & Hmg & Ht2 & Hpe).
  simpl in *. rewrite frees_app in Hne, Hfuel, Hf, Hnd |- *.
  assert (Hr0 := Hr). rewrite frees_app in Hr0. simpl in Hf, Hnd, Hr0.
  set (F1 := frees bs1) in *. set (F2 := frees bs2) in *.
  assert (Hlt : ∀ x, x ∈ F1 → x < p).
  { intros x Hx. destruct (tiling_frees _ _ _ _ _ Ht1 Hx). lia. }
  assert (Hgt : ∀ x, x ∈ F2 → p < x).
  { intros x Hx. destruct (tiling_frees _ _ _ _ _ Ht2 Hx). lia. }
  assert (Hfirst : r_first r = hd 0 (F1 ++ F2)).
  { by destruct (F1 ++ F2). }
  assert (Hmag : ∀ x, x ∈ F1 ++ F2 → h_magic (m !!! x) = GRUB_MM_FREE_MAGIC).
  { intros x Hx. eapply (tiling_frees _ _ _ _ x Ht).
    by rewrite frees_app. }
  pose proof (free_walk_spec m _ p F1 F2 Hr0 Hnd Hfirst Hlt Hgt Hmag F1 [] fuel
                eq_refl Hne) as Hwalk.
  rewrite <- Hfirst in Hwalk. rewrite Hwalk by (rewrite length_app in Hfuel; lia).
  set (qx := hd (List.last F1 0) F2) in *.
  set (q := List.last F1 (List.last F2 0)).
  assert (Hq : (if p <? qx then h_prev (m !!! qx) else qx) = q).
  { subst qx q. destruct F2 as [|f F2']; simpl hd.
    - rewrite app_nil_r in Hne.
      rewrite (proj2 (Z.ltb_ge _ _)); [done|].
      specialize (Hlt (List.last F1 0) (List_last_elem_of _ _ Hne)). lia.
    - rewrite (proj2 (Z.ltb_lt _ _)) by (apply Hgt, list_elem_of_here).
      rewrite (ring_prev m F1 f F2' Hr0). by rewrite List_last_cons. }
  assert (Hqin : q ∈ F1 ++ F2).
  { assert (q ∈ F2 ++ F1) as Hq'.
    { subst q. rewrite <- List_last_app. apply List_last_elem_of.
      intros [E2 E1]%app_eq_nil. rewrite E1, E2 in Hne. done. }
    revert Hq'. rewrite !elem_of_app. tauto. }
  exists qx. rewrite free_insert_eq. cbv zeta. rewrite Hq.
  eexists _, _. 
  destruct (link_after_spec m _ _ bs1 p n bs2 q Ht Hr) as (HtL & HrL & HfL);
    [by rewrite frees_app|done|].
  destruct (fwd_stage _ _ _ bs1 p n bs2 Hlo Hhi HtL HrL)
    as (n' & bs2' & HtF & HrF & Hh2 & Hna2 & Hal2 & HfF & HszF & Hsub).
  { by apply no_adj_app_r, no_adj_cons in Hna as [_ ?]. }
  cbv zeta in HtF, HrF, HfF, HszF.
  set (m5 := link_after p q m) in *.
  set (m6 := if hdr_add p (h_size (m5 !!! p)) =? h_next (m5 !!! p)
             then absorb p (h_next (m5 !!! p)) m5 else m5) in *.
  destruct (bwd_stage m6 _ _ bs1 p n' bs2' q Hlo Hhi HtF HrF)
    as (bs1' & a & k & HtB & HrB & Hl1 & Hna1 & Hal1 & HfB & Hhd).
  { by apply no_adj_app_l in Hna. }
  { intros ?. by apply List_last_default. }
  { fold F1. intros E. apply HszF. subst q. rewrite E. simpl.
    apply List_last_elem_of. rewrite E in Hne. done. }
  cbv zeta in HtB, HrB, HfB.
  exists (bs1' ++ Block a k true :: bs2').
  split; [done|]. split; [done|]. split_and!.
  - constructor; simpl; [done|done|done|done| |done|].
    + apply no_adj_app. split_and!; [done| |].
      * apply no_adj_cons. split; [|done]. rewrite Hh2. by intros [_ ?].
      * rewrite Hl1. by intros [? _].
    + rewrite frees_app. simpl.
      rewrite (first_after_link m F1 F2 p (r_first r)) by done.
      fold F1 in Hhd. rewrite <- Hhd. by destruct (frees bs1').
  - rewrite allocs_app. simpl. by rewrite Hal1, Hal2.
  - intros x Hxp Hx. apply not_elem_of_app in Hx as [Hx1 Hx2].
    rewrite HfB, HfF, HfL; [done|done|..]; try done.
    + intros E. rewrite <- E in Hqin. apply elem_of_app in Hqin. tauto.
    + intros E. apply (ring_next_elem_of m) in Hqin; [|done].
      rewrite <- E in Hqin. apply elem_of_app in Hqin. tauto.
    + intros ?%Hsub. done.
Qed.

Lemma frees_nil_free_head bs : frees bs = [] → free_head bs = false.
Proof. destruct bs as [|b bs]; [done|]. simpl. by destruct (b_free b). Qed.

Lemma frees_nil_free_last bs : frees bs = [] → free_last bs = false.
Proof.
  destruct bs as [|b bs _] using rev_ind; [done|].
  rewrite frees_app, free_last_snoc. simpl. destruct (b_free b); [|done].
  by intros [_ ?]%app_eq_nil.
Qed.

(** [grub_free] on a region without a free block: the block at [p] becomes
    the ring. *)
Lemma free_full_spec m r bs1 p n bs2 :
  region_inv m r (bs1 ++ Block p n false :: bs2) →
  frees (bs1 ++ bs2) = [] →
  let m' := set_next p p (set_prev p p (set_magic p GRUB_MM_FREE_MAGIC m)) in
  region_inv m' (with_first p r) (bs1 ++ Block p n true :: bs2) ∧
  (∀ a, a ≠ p → m' !!! a = m !!! a).
Proof.
  intros [Hlo Hhi Hal Ht Hna Hr Hf] Hnil m'. subst m'.
  destruct (tiling_focus _ _ _ _ _ _ Ht) as (Ht1 & ? & ? & Hsz & Hmg & Ht2 & ?).
  simpl in *. rewrite frees_app in Hnil. apply app_eq_nil in Hnil as [Hn1 Hn2].
  apply no_adj_app in Hna as (Hna1 & [_ Hna2]%no_adj_cons & _).
  split; [constructor; simpl; try done|].
  - eapply (tiling_unfocus _ _ _ _ [_]); [| |].
    + eapply tiling_frame; [|exact Ht1]. intros x ?. fields. cases.
    + simpl. fields. split_and!; [done|lia| | |reflexivity]; cases.
    + eapply tiling_frame; [|exact Ht2]. intros x ?. fields. cases.
  - apply no_adj_app. split_and!; [done| |].
    + apply no_adj_cons. split; [|done].
      rewrite frees_nil_free_head by done. by intros [_ ?].
    + rewrite frees_nil_free_last by done. by intros [? _].
  - rewrite frees_app. simpl. rewrite Hn1, Hn2. simpl. fields. cases.
  - rewrite frees_app. simpl. by rewrite Hn1.
  - intros a ?. apply header_ext; fields; cases.
Qed.

(** ** The invariant of the allocator at rest *)

(** The regions lie apart: a region header sits between any two. *)
Definition separated (rs : list grub_mm_region) : Prop :=
  ∀ i j ri rj, rs !! i = Some ri → rs !! j = Some rj → i ≠ j →
    r_addr ri + r_size ri < r_addr rj ∨ r_addr rj + r_size rj < r_addr ri.

(** The cell behind a region is not the header of a free block. *)
Definition end_clean (m : gmap Z grub_mm_header) (rs : list grub_mm_region) : Prop :=
  ∀ r, r ∈ rs → h_magic (m !!! (r_addr r + r_size r)) ≠ GRUB_MM_FREE_MAGIC.

Definition mm_inv (m : gmap Z grub_mm_header) (rs : list grub_mm_region)
    (bss : list (list block)) : Prop :=
  Forall2 (region_inv m) rs bss ∧ separated rs ∧ end_clean m rs.

(** The header addresses of the allocated blocks. *)
Definition live (bss : list (list block)) : list Z := concat (allocs <$> bss).

(** What [grub_mm_init_region] fixes for good. *)
Definition static (r : grub_mm_region) : Z * Z * list allocator :=
  (r_addr r, r_size r, r_policies r).

(** Enough fuel for a walk over any ring. *)
Definition fuel_for (rs : list grub_mm_region) : nat :=
  S (Z.to_nat (foldr Z.max 0 (r_size <$> rs))).

Section state.
Implicit Types (m : gmap Z grub_mm_header) (rs : list grub_mm_region)
  (bss : list (list block)) (r : grub_mm_region) (bs : list block).

Lemma region_inv_frame m m' r bs :
  (∀ a, r_addr r ≤ a < r_addr r + r_size r → m' !!! a = m !!! a) →
  region_inv m r bs → region_inv m' r bs.
Proof.
  intros Hf [Hlo Hhi Hal Ht Hna Hr Hfi]. constructor; try done.
  - eapply tiling_frame; [|done]. intros x ?. by rewrite Hf.
  - eapply ring_frame; [| |done]; intros a Ha;
      destruct (tiling_frees _ _ _ _ _ Ht Ha) as (? & _); by rewrite Hf.
Qed.

Lemma region_inv_first m r bs f :
  region_inv m r bs → r_first r = f → region_inv m (with_first f r) bs.
Proof. intros [] <-. by constructor. Qed.

Lemma tiling_length m a e bs : tiling m a e bs → 16 * Z.of_nat (length bs) ≤ e - a.
Proof.
  revert a. induction bs as [|b bs IH]; intros a; simpl; [lia|].
  intros (_ & ? & _ & _ & H%IH). lia.
Qed.

Lemma frees_length bs : (length (frees bs) ≤ length bs)%nat.
Proof.
  induction bs as [|b bs IH]; [done|]. simpl. destruct (b_free b); simpl; lia.
Qed.

Lemma fuel_for_ge rs r : r ∈ rs → r_size r < Z.of_nat (fuel_for rs).
Proof.
  unfold fuel_for. rewrite Nat2Z.inj_succ.
  assert (Hnn : ∀ l, 0 ≤ foldr Z.max 0 l).
  { induction l; simpl; [done|]. apply Z.max_le_iff. by right. }
  rewrite Z2Nat.id by apply Hnn.
  induction rs as [|r' rs IH]; [by intros ?%elem_of_nil|].
  intros [->|H]%elem_of_cons; simpl.
  - apply Z.lt_succ_r, Z.le_max_l.
  - specialize (IH H). apply Z.lt_succ_r, Z.max_le_iff. right. by apply Z.lt_succ_r.
Qed.

Lemma fuel_for_ring m rs r bs fuel :
  r ∈ rs → region_inv m r bs → (fuel_for rs ≤ fuel)%nat →
  (length (frees bs) < fuel)%nat.
Proof.
  intros Hr [_ _ _ Ht%tiling_length _ _ _] Hfuel.
  pose proof (fuel_for_ge _ _ Hr). pose proof (frees_length bs). lia.
Qed.

Lemma static_with_first f r : static (with_first f r) = static r.
Proof. done. Qed.

Lemma mm_inv_lookup m rs bss i r :
  mm_inv m rs bss → rs !! i = Some r →
  ∃ bs, bss !! i = Some bs ∧ region_inv m r bs.
Proof. intros (H & _) Hi. by apply (Forall2_lookup_l _ _ _ _ _ H Hi). Qed.

(** A step inside region [i] leaves the other regions at rest. *)
Lemma mm_inv_update m m' rs bss i r bs' f :
  mm_inv m rs bss → rs !! i = Some r →
  region_inv m' (with_first f r) bs' →
  (∀ a, ¬ (r_addr r ≤ a < r_addr r + r_size r) → m' !!! a = m !!! a) →
  mm_inv m' (<[i := with_first f r]> rs) (<[i := bs']> bss).
Proof.
  intros (HF & Hsep & Hend) Hi Hinv Hfoot.
  pose proof (Forall2_length _ _ _ HF) as Hlen.
  assert (Hri : region_inv m' (with_first f r) bs') by done.
  destruct Hri as [Hlo Hhi _ _ _ _ _]. simpl in Hlo, Hhi.
  split_and!.
  - apply Forall2_same_length_lookup. split; [by rewrite !length_insert|].
    intros j x y Hx Hy. destruct (decide (i = j)) as [->|Hij].
    + rewrite list_lookup_insert_eq in Hx by (by eapply lookup_lt_Some).
      rewrite list_lookup_insert_eq in Hy
        by (rewrite <- Hlen; by eapply lookup_lt_Some).
      by simplify_eq.
    + rewrite list_lookup_insert_ne in Hx by done.
      rewrite list_lookup_insert_ne in Hy by done.
      eapply region_inv_frame; [|by eapply Forall2_lookup_lr].
      intros a Ha. apply Hfoot. destruct (Hsep i j r x Hi Hx Hij); lia.
  - intros j k rj rk Hj Hk Hjk.
    assert (∀ j rj, <[i:=with_first f r]> rs !! j = Some rj →
      ∃ rj', rs !! j = Some rj' ∧ r_addr rj = r_addr rj' ∧ r_size rj = r_size rj')
      as Hlk.
    { intros j' rj' Hj'. destruct (decide (i = j')) as [->|].
      - rewrite list_lookup_insert_eq in Hj' by (by eapply lookup_lt_Some).
        simplify_eq. by exists r.
      - rewrite list_lookup_insert_ne in Hj' by done. by exists rj'. }
    destruct (Hlk _ _ Hj) as (rj' & ? & -> & ->).
    destruct (Hlk _ _ Hk) as (rk' & ? & -> & ->). by eapply Hsep.
  - intros x (j & Hx)%list_elem_of_lookup. destruct (decide (i = j)) as [->|Hij].
    + rewrite list_lookup_insert_eq in Hx by (by eapply lookup_lt_Some).
      simplify_eq. simpl. rewrite Hfoot by lia. apply Hend.
      by eapply list_elem_of_lookup_2.
    + rewrite list_lookup_insert_ne in Hx by done.
      rewrite Hfoot; [apply Hend; by eapply list_elem_of_lookup_2|].
      destruct (mm_inv_lookup m rs bss j x) as (bsx & _ & [? ? _ Htx _ _ _]);
        [done|done|]. apply tiling_le in Htx.
      destruct (Hsep i j r x Hi Hx Hij); lia.
Qed.

End state.

Section pointers.
Implicit Types (m : gmap Z grub_mm_header) (rs : list grub_mm_region)
  (bss : list (list block)) (r : grub_mm_region) (bs : list block).

Lemma with_first_id r : with_first (r_first r) r = r.
Proof. by destruct r. Qed.

Lemma with_mem_id st : with_mem (heap st) (base st) st = st.
Proof. by destruct st. Qed.

Definition owns (r : grub_mm_region) (ptr : Z) : Prop :=
  r_addr r < ptr ≤ word (r_addr r + r_size r).

Lemma find_region_Some ptr rs k i r :
  find_region ptr rs k = Some (i, r) →
  ∃ j, i = (k + j)%nat ∧ rs !! j = Some r ∧ owns r ptr ∧
       ∀ j' r', (j' < j)%nat → rs !! j' = Some r' → ¬ owns r' ptr.
Proof.
  revert k. induction rs as [|r' rs IH]; intros k; simpl; [done|].
  destruct (_ && _) eqn:Hin.
  - intros [= <- <-]. exists 0%nat. apply andb_true_iff in Hin as [?%Z.ltb_lt ?%Z.leb_le].
    split_and!; [lia|done|done|lia].
  - intros (j & -> & ? & ? & Hlt)%IH. exists (S j). split_and!; [lia|done|done|].
    intros [|j'] r'' ? Hj'; simpl in Hj'.
    + injection Hj' as <-. unfold owns. apply andb_false_iff in Hin as [?%Z.ltb_ge|?%Z.leb_gt]; lia.
    + apply (Hlt j'); [lia|done].
Qed.

Lemma find_region_None ptr rs k :
  find_region ptr rs k = None ↔ ∀ r, r ∈ rs → ¬ owns r ptr.
Proof.
  revert k. induction rs as [|r' rs IH]; intros k; simpl.
  - split; [by intros _ ? ?%elem_of_nil|done].
  - destruct (_ && _) eqn:Hin.
    + split; [done|]. intros H. destruct (H r'); [left|].
      apply andb_true_iff in Hin as [?%Z.ltb_lt ?%Z.leb_le]. done.
    + rewrite IH. split.
      * intros H r [->|?]%elem_of_cons; [|by apply H].
        unfold owns. apply andb_false_iff in Hin as [?%Z.ltb_ge|?%Z.leb_gt]; lia.
      * intros H r ?. apply H. by right.
Qed.

Lemma find_region_owner ptr rs i r :
  separated rs → (∀ r', r' ∈ rs → 0 ≤ r_size r' ∧ r_addr r' + r_size r' < 2 ^ 32 ∧ 0 ≤ r_addr r') →
  rs !! i = Some r → r_addr r < ptr ≤ r_addr r + r_size r →
  find_region ptr rs 0 = Some (i, r).
Proof.
  intros Hsep Hrg Hi Hp.
  destruct (find_region ptr rs 0) as [[j r']|] eqn:Hf.
  - apply find_region_Some in Hf as (j' & -> & Hj & Ho & _). simpl.
    destruct (decide (i = j')) as [->|Hne]; [congruence|].
    unfold owns in Ho.
    destruct (Hrg r') as (? & ? & ?); [by eapply list_elem_of_lookup_2|].
    rewrite word_small in Ho by lia.
    destruct (Hsep i j' r r' Hi Hj Hne); lia.
  - rewrite find_region_None in Hf. destruct (Hf r); [by eapply list_elem_of_lookup_2|].
    destruct (Hrg r) as (? & ? & ?); [by eapply list_elem_of_lookup_2|].
    unfold owns. rewrite word_small by lia. done.
Qed.

Lemma tiling_aligned m a e bs x :
  tiling m a e bs → a mod 16 = 0 → (x ∈ frees bs ∨ x ∈ allocs bs) → x mod 16 = 0.
Proof.
  revert a. induction bs as [|b bs IH]; intros a; simpl.
  - intros _ _ [?%elem_of_nil|?%elem_of_nil]; done.
  - intros (<- & ? & _ & _ & Ht) Ha Hx.
    assert ((b_addr b + 16 * b_size b) mod 16 = 0) as Ha'.
    { rewrite Z.add_mod, Ha, Z.mul_comm, Z.mod_mul by lia. done. }
    destruct (b_free b); rewrite elem_of_cons in Hx; destruct Hx as [Hx|Hx];
      try (destruct Hx as [->|Hx]; [done|]); eapply IH; eauto.
Qed.

Lemma mm_inv_range m rs bss r :
  mm_inv m rs bss → r ∈ rs →
  0 ≤ r_size r ∧ r_addr r + r_size r < 2 ^ 32 ∧ 0 ≤ r_addr r.
Proof.
  intros Hinv (i & Hi)%list_elem_of_lookup.
  destruct (mm_inv_lookup _ _ _ _ _ Hinv Hi) as (bs & _ & [? ? _ Ht%tiling_le _ _ _]). lia.
Qed.

(** A pointer handed out and not yet freed passes the checks of
    [get_header_from_pointer]. *)
Lemma get_header_live m rs bss i r bs p :
  mm_inv m rs bss → rs !! i = Some r → bss !! i = Some bs → p ∈ allocs bs →
  get_header_from_pointer m rs (p + 16) = Ok (p, i, r).
Proof.
  intros Hinv Hi Hbs Hp.
  destruct (mm_inv_lookup _ _ _ _ _ Hinv Hi) as (bs' & Hbs' & Hr).
  rewrite Hbs in Hbs'. injection Hbs' as <-.
  pose proof Hr as [Hlo Hhi Hal Ht _ _ _].
  destruct (tiling_allocs _ _ _ _ _ Ht Hp) as (? & ? & ? & Hmg).
  pose proof (tiling_aligned _ _ _ _ p Ht Hal (or_intror Hp)) as Hpa.
  unfold get_header_from_pointer. rewrite land_cell_mask.
  replace ((p + 16) mod 16) with 0
    by (rewrite Z.add_mod, Hpa, Z.mod_same by lia; done).
  simpl. rewrite (find_region_owner _ _ i r);
    [| |intros; by eapply mm_inv_range|done|lia].
  - rewrite hdr_add_small by lia. replace (p + 16 + 16 * -1) with p by lia.
    rewrite Hmg. done.
  - by destruct Hinv as (_ & ? & _).
Qed.

End pointers.

Section free_state.
Implicit Types (m : gmap Z grub_mm_header) (rs : list grub_mm_region)
  (bss : list (list block)) (r : grub_mm_region) (bs : list block).

Lemma static_insert rs i r f :
  rs !! i = Some r → static <$> <[i := with_first f r]> rs = static <$> rs.
Proof.
  intros Hi. rewrite list_fmap_insert, static_with_first.
  apply list_insert_id. by rewrite list_lookup_fmap, Hi.
Qed.

Lemma frees_focus bs1 p n bs2 :
  frees (bs1 ++ Block p n false :: bs2) = frees (bs1 ++ bs2).
Proof. by rewrite !frees_app. Qed.

Lemma allocs_focus bs1 p n bs2 :
  allocs (bs1 ++ Block p n false :: bs2) = allocs bs1 ++ p :: allocs bs2.
Proof. by rewrite !allocs_app. Qed.

Lemma region_inv_span m r bs1 b bs2 :
  region_inv m r (bs1 ++ b :: bs2) →
  r_addr r ≤ b_addr b ∧ b_addr b + 16 * b_size b ≤ r_addr r + r_size r ∧
  1 ≤ b_size b.
Proof.
  intros [_ _ _ Ht _ _ _].
  destruct (tiling_focus _ _ _ _ _ _ Ht) as (_ & ? & ? & _ & _ & _ & ?). done.
Qed.

(** [grub_free] of a pointer handed out and not yet freed. *)
Lemma grub_free_spec st bss i bs1 p n bs2 fuel :
  mm_inv (heap st) (base st) bss →
  bss !! i = Some (bs1 ++ Block p n false :: bs2) →
  (fuel_for (base st) ≤ fuel)%nat →
  ∃ m' rs' bs',
    grub_free fuel (p + 16) st = Ok (with_mem m' rs' st) ∧
    mm_inv m' rs' (<[i := bs']> bss) ∧
    allocs bs' = allocs bs1 ++ allocs bs2 ∧
    static <$> rs' = static <$> base st ∧
    (∀ a, a ≠ p → a ∉ frees (bs1 ++ bs2) → m' !!! a = heap st !!! a).
Proof.
  intros Hinv Hbs Hfuel. pose proof Hinv as (HF & _ & _).
  destruct (Forall2_lookup_r _ _ _ _ _ HF Hbs) as (r & Hi & Hr).
  pose proof (region_inv_span _ _ _ _ _ Hr) as (Hsp1 & Hsp2 & Hsp3). simpl in *.
  pose proof Hr as [Hlo Hhi Hal Ht Hna Hring Hfirst].
  unfold grub_free. destruct (p + 16 =? 0) eqn:Hz; [lia|].
  rewrite (get_header_live _ _ bss i r _ p Hinv Hi Hbs)
    by (rewrite allocs_focus, elem_of_app, elem_of_cons; auto).
  cbn -[free_insert free_walk]. rewrite frees_focus in Hfirst, Hring.
  assert (Hframe : ∀ m', (∀ a, a ≠ p → a ∉ frees (bs1 ++ bs2) → m' !!! a = heap st !!! a) →
            ∀ a, ¬ (r_addr r ≤ a < r_addr r + r_size r) → m' !!! a = heap st !!! a).
  { intros m' Hm' a Ha. apply Hm'; [lia|]. intros Hin.
    rewrite <- (frees_focus _ p n) in Hin.
    destruct (tiling_frees _ _ _ _ _ Ht Hin). lia. }
  destruct (frees (bs1 ++ bs2)) as [|f F] eqn:HF'.
  - destruct (tiling_allocs _ _ _ _ _ Ht Hfirst) as (_ & _ & _ & ->). simpl.
    destruct (free_full_spec _ _ _ _ _ _ Hr HF') as (Hr' & Hfoot).
    eexists _, _, _. split; [done|]. split_and!.
    + eapply mm_inv_update; [done..|]. intros a Ha. apply Hfoot. lia.
    + by rewrite !allocs_app.
    + by apply static_insert.
    + intros a ? _. by apply Hfoot.
  - assert (h_magic (heap st !!! r_first r) = GRUB_MM_FREE_MAGIC) as ->.
    { eapply (tiling_frees _ _ _ _ _ Ht). rewrite frees_focus, HF', Hfirst. left. }
    cbn -[free_insert free_walk].
    destruct (free_general_spec _ _ _ _ _ _ fuel Hr) as (q & m' & f' & bs' & -> & Hins & Hr' & Hal' & Hfoot).
    { by rewrite HF'. }
    { rewrite <- frees_focus with (p := p) (n := n).
      eapply fuel_for_ring; [by eapply list_elem_of_lookup_2|done|done]. }
    cbn -[free_insert]. rewrite Hins. rewrite HF' in Hfoot.
    eexists _, _, _. split; [done|]. split_and!.
    + eapply mm_inv_update; [done..|]. by apply Hframe.
    + done.
    + by apply static_insert.
    + done.
Qed.

End free_state.

(** ** The scan over the regions *)

(** Region [r] has nothing for the request: it is skipped under this
    policy, or its search comes back empty-handed. *)
Definition region_fails (fuel : nat) (align size : Z) (policy : nat)
    (m : gmap Z grub_mm_header) (r : grub_mm_region) : Prop :=
  policy_of r policy = GRUB_MM_ALLOCATOR_SKIP ∨
  grub_real_malloc fuel align size (r_first r) (policy_of r policy) m
    = Ok (0, m, r_first r).

(** Region [k] serves the request with the pointer [p]: a free block at
    [q] of [sz] cells gives the cells of the new block. *)
Definition alloc_step (m : gmap Z grub_mm_header) (rs : list grub_mm_region)
    (bss : list (list block)) (size p : Z) (k : nat)
    (m' : gmap Z grub_mm_header) (rs' : list grub_mm_region)
    (bss' : list (list block)) : Prop :=
  ∃ r bs1 q sz bs2 w f,
    rs !! k = Some r ∧ bss !! k = Some (bs1 ++ Block q sz true :: bs2) ∧
    cells_for size ≤ w ≤ sz ∧ p = q + 16 * (w - cells_for size) + 16 ∧
    rs' = <[k := with_first f r]> rs ∧
    bss' = <[k := bs1 ++ carved q sz w (cells_for size) ++ bs2]> bss ∧
    (∀ a, ¬ (q ≤ a < q + 16 * sz) →
          a ∉ frees (bs1 ++ Block q sz true :: bs2) → m' !!! a = m !!! a).

Section scan.
Implicit Types (m : gmap Z grub_mm_header) (rs : list grub_mm_region)
  (bss : list (list block)) (r : grub_mm_region) (bs : list block).

Lemma scan_regions_spec fuel align size policy m rest : ∀ done,
  (∀ r, r ∈ rest → ∃ p m' f,
     grub_real_malloc fuel align size (r_first r) (policy_of r policy) m
       = Ok (p, m', f) ∧ (p = 0 → m' = m ∧ f = r_first r)) →
  ∃ p m' rs',
    scan_regions fuel align size policy done rest m = Ok (p, m', rs') ∧
    ((p = 0 ∧ m' = m ∧ rs' = rev done ++ rest ∧
      Forall (region_fails fuel align size policy m) rest) ∨
     (p ≠ 0 ∧ ∃ k r f,
        rest !! k = Some r ∧ rs' = rev done ++ <[k := with_first f r]> rest ∧
        policy_of r policy ≠ GRUB_MM_ALLOCATOR_SKIP ∧
        grub_real_malloc fuel align size (r_first r) (policy_of r policy) m
          = Ok (p, m', f) ∧
        Forall (region_fails fuel align size policy m) (take k rest))).
Proof.
  induction rest as [|r rest IH]; intros done Htry; simpl.
  - eexists _, _, _. split; [done|]. left. by rewrite app_nil_r.
  - assert (Hnext : region_fails fuel align size policy m r →
      ∃ p m' rs',
        scan_regions fuel align size policy (r :: done) rest m = Ok (p, m', rs') ∧
        ((p = 0 ∧ m' = m ∧ rs' = rev done ++ r :: rest ∧
          Forall (region_fails fuel align size policy m) (r :: rest)) ∨
         (p ≠ 0 ∧ ∃ k r0 f,
            (r :: rest) !! k = Some r0 ∧
            rs' = rev done ++ <[k := with_first f r0]> (r :: rest) ∧
            policy_of r0 policy ≠ GRUB_MM_ALLOCATOR_SKIP ∧
            grub_real_malloc fuel align size (r_first r0) (policy_of r0 policy) m
              = Ok (p, m', f) ∧
            Forall (region_fails fuel align size policy m) (take k (r :: rest))))).
    { intros Hfail. destruct (IH (r :: done)) as (p & m' & rs' & -> & H).
      { intros r' ?. apply Htry. by right. }
      eexists _, _, _. split; [done|]. simpl in H. rewrite <- app_assoc in H. simpl in H.
      destruct H as [(-> & -> & -> & ?)|(? & k & r0 & f & ? & -> & ? & ? & ?)].
      - left. split_and!; try done. by constructor.
      - right. split; [done|]. exists (S k), r0, f. simpl.
        rewrite <- app_assoc. split_and!; try done; by constructor. }
    case_decide as Hsk; [apply Hnext; by left|].
    destruct (Htry r) as (p & m' & f & Hm & H0); [left|]. rewrite Hm. simpl.
    destruct (p =? 0) eqn:Hp.
    + apply Z.eqb_eq in Hp as ->. destruct H0 as [-> ->]; [done|].
      rewrite with_first_id. apply Hnext. by right.
    + apply Z.eqb_neq in Hp. eexists _, _, _. split; [done|]. right. split; [done|].
      exists 0%nat, r, f. simpl. split_and!; done.
Qed.

Lemma carved_first m r bs1 q sz bs2 :
  region_inv m r (bs1 ++ Block q sz true :: bs2) → r_addr r ≤ q ∧ 0 < q.
Proof. intros H. pose proof (region_inv_span _ _ _ _ _ H). destruct H. simpl in *. lia. Qed.

(** One pass over the regions of a state at rest. *)
Lemma scan_pass_spec st bss fuel align size policy :
  mm_inv (heap st) (base st) bss → (fuel_for (base st) ≤ fuel)%nat →
  0 ≤ align < 2 ^ 32 →
  ∃ p st',
    scan_pass fuel align size policy st = Ok (p, st') ∧
    grub_errno st' = grub_errno st ∧ grub_errmsg st' = grub_errmsg st ∧
    calls st' = calls st ∧
    ((p = 0 ∧ st' = st ∧
      Forall (region_fails fuel align size policy (heap st)) (base st)) ∨
     (p ≠ 0 ∧ ∃ k bss',
        mm_inv (heap st') (base st') bss' ∧
        alloc_step (heap st) (base st) bss size p k (heap st') (base st') bss' ∧
        (∃ r f, base st !! k = Some r ∧
              policy_of r policy ≠ GRUB_MM_ALLOCATOR_SKIP ∧
              grub_real_malloc fuel align size (r_first r) (policy_of r policy)
                (heap st) = Ok (p, heap st', f) ∧
              base st' = <[k := with_first f r]> (base st)) ∧
        Forall (region_fails fuel align size policy (heap st))
               (take k (base st)))).
Proof.
  intros Hinv Hfuel Hal. unfold scan_pass.
  destruct (scan_regions_spec fuel align size policy (heap st) (base st) [])
    as (p & m' & rs' & -> & H).
  { intros r (i & Hi)%list_elem_of_lookup.
    destruct (mm_inv_lookup _ _ _ _ _ Hinv Hi) as (bs & _ & Hr).
    destruct (grub_real_malloc_spec _ _ _ fuel align size (policy_of r policy) Hr Hal)
      as (p & m' & f & -> & H).
    { assert (length (frees bs) < fuel)%nat; [|lia].
      eapply fuel_for_ring; [by eapply list_elem_of_lookup_2|done|done]. }
    eexists _, _, _. split; [done|]. intros ->.
    destruct H as [(_ & -> & ->)|(bs1 & q & sz & bs2 & w & -> & ? & ? & _)]; [done|].
    destruct (carved_first _ _ _ _ _ _ Hr). lia. }
  simpl. eexists _, _. split; [done|]. split_and!; try done.
  destruct H as [(-> & -> & -> & ?)|(? & k & r & f & Hk & -> & ? & Hm & ?)].
  - left. simpl. by rewrite with_mem_id.
  - right. split; [done|]. simpl.
    destruct (mm_inv_lookup _ _ _ _ _ Hinv Hk) as (bs & Hbs & Hr).
    destruct (grub_real_malloc_spec _ _ _ fuel align size (policy_of r policy) Hr Hal)
      as (p' & m'' & f' & Hm' & H').
    { assert (length (frees bs) < fuel)%nat; [|lia].
      eapply fuel_for_ring; [by eapply list_elem_of_lookup_2|done|done]. }
    rewrite Hm in Hm'. injection Hm' as <- <- <-.
    destruct H' as [(-> & _)|(bs1 & q & sz & bs2 & w & -> & ? & -> & Hr' & Hfoot)];
      [done|].
    exists k, (<[k := bs1 ++ carved q sz w (cells_for size) ++ bs2]> bss).
    split_and!; [|by exists r, bs1, q, sz, bs2, w, f|by exists r, f|done].
    eapply mm_inv_update; [done..|]. intros a Ha.
    pose proof (region_inv_span _ _ _ _ _ Hr) as (? & ? & ?). simpl in *.
    apply Hfoot; [lia|]. intros Hin. destruct Hr as [_ _ _ Ht _ _ _].
    destruct (tiling_frees _ _ _ _ _ Ht Hin). lia.
Qed.

End scan.

(** ** Allocation with the reclamation hooks *)

Lemma fuel_for_static rs rs' :
  static <$> rs' = static <$> rs → fuel_for rs' = fuel_for rs.
Proof.
  intros H. unfold fuel_for.
  assert (∀ l : list grub_mm_region,
    r_size <$> l = (λ s : Z * Z * list allocator, s.1.2) <$> (static <$> l)) as E.
  { intros l. rewrite <- list_fmap_compose. done. }
  by rewrite !E, H.
Qed.

Section memalign.

Variable grub_disk_cache_invalidate_all grub_dl_unload_unneeded :
  gmap Z grub_mm_header * list grub_mm_region →
  gmap Z grub_mm_header * list grub_mm_region.

(** What the caller relies on; the hooks keep it. *)
Variable Inv :
  gmap Z grub_mm_header → list grub_mm_region → list (list block) → Prop.

Definition hook_keeps
    (h : gmap Z grub_mm_header * list grub_mm_region →
         gmap Z grub_mm_header * list grub_mm_region) : Prop :=
  ∀ m rs bss, Inv m rs bss →
    static <$> (h (m, rs)).2 = static <$> rs ∧
    ∃ bss', Inv (h (m, rs)).1 (h (m, rs)).2 bss'.

Hypothesis Inv_mm_inv : ∀ m rs bss, Inv m rs bss → mm_inv m rs bss.
Hypothesis disk_keeps : hook_keeps grub_disk_cache_invalidate_all.
Hypothesis dl_keeps : hook_keeps grub_dl_unload_unneeded.

(** The state at the start of scan number [j]. *)
Definition stage (j : nat) (st : mm_state) : mm_state :=
  match j with
  | O => st
  | S O => call_hook DISK_CACHE_INVALIDATE_ALL grub_disk_cache_invalidate_all st
  | _ => call_hook DL_UNLOAD_UNNEEDED grub_dl_unload_unneeded
           (call_hook DISK_CACHE_INVALIDATE_ALL grub_disk_cache_invalidate_all st)
  end.

Lemma stage_inv st bss j :
  Inv (heap st) (base st) bss →
  static <$> base (stage j st) = static <$> base st ∧
  ∃ bss', Inv (heap (stage j st)) (base (stage j st)) bss'.
Proof.
  intros H. destruct j as [|[|j]]; simpl.
  - eauto.
  - by apply (disk_keeps _ _ _ H).
  - destruct (disk_keeps _ _ _ H) as (E1 & bss1 & H1).
    destruct (dl_keeps _ _ _ H1) as (E2 & bss2 & H2).
    split; [by rewrite E2|eauto].
Qed.

Lemma memalign_policy_stages st bss fuel align size policy :
  Inv (heap st) (base st) bss → (fuel_for (base st) ≤ fuel)%nat →
  0 ≤ align < 2 ^ 32 →
  ∃ p st' j,
    grub_memalign_policy grub_disk_cache_invalidate_all grub_dl_unload_unneeded
      fuel align size policy st = Ok (p, st') ∧
    (j ≤ 2)%nat ∧
    (∀ i, (i < j)%nat →
       scan_pass fuel align size policy (stage i st) = Ok (0, stage i st)) ∧
    ((p = 0 ∧ j = 2%nat ∧
      scan_pass fuel align size policy (stage 2 st) = Ok (0, stage 2 st) ∧
      st' = grub_error GRUB_ERR_OUT_OF_MEMORY "out of memory" (stage 2 st)) ∨
     (p ≠ 0 ∧ scan_pass fuel align size policy (stage j st) = Ok (p, st'))).
Proof.
  intros HI Hfuel Hal.
  assert (Hscan : ∀ j, ∃ p st',
    scan_pass fuel align size policy (stage j st) = Ok (p, st') ∧
    (p = 0 → st' = stage j st)).
  { intros j. destruct (stage_inv st bss j HI) as (Hst & bss' & HI').
    destruct (scan_pass_spec (stage j st) bss' fuel align size policy)
      as (p & st' & -> & _ & _ & _ & H); [by apply Inv_mm_inv| |done|].
    - by rewrite (fuel_for_static _ _ Hst).
    - eexists _, _. split; [done|]. intros ->. by destruct H as [(_ & -> & _)|[? _]]. }
  unfold grub_memalign_policy. cbn -[scan_pass].
  destruct (Hscan 0%nat) as (p0 & st0 & H0 & E0). simpl in H0, E0. rewrite H0. cbn -[scan_pass].
  destruct (p0 =? 0) eqn:Hp0; cbn -[scan_pass].
  2:{ apply Z.eqb_neq in Hp0. exists p0, st0, 0%nat.
      split_and!; [done|lia|lia|by right]. }
  apply Z.eqb_eq in Hp0 as ->. rewrite E0 in * by done. clear E0.
  destruct (Hscan 1%nat) as (p1 & st1 & H1 & E1). simpl in H1, E1. rewrite H1. cbn -[scan_pass].
  destruct (p1 =? 0) eqn:Hp1; cbn -[scan_pass].
  2:{ apply Z.eqb_neq in Hp1. exists p1, st1, 1%nat.
      split_and!; [done|lia| |by right].
      intros i ?. by replace i with 0%nat by lia. }
  apply Z.eqb_eq in Hp1 as ->. rewrite E1 in * by done. clear E1.
  destruct (Hscan 2%nat) as (p2 & st2 & H2 & E2). simpl in H2, E2. rewrite H2. cbn -[scan_pass].
  assert (∀ i, (i < 2)%nat →
    scan_pass fuel align size policy (stage i st) = Ok (0, stage i st)).
  { intros [|[|i]] ?; [done|done|lia]. }
  destruct (p2 =? 0) eqn:Hp2; cbn -[scan_pass].
  2:{ apply Z.eqb_neq in Hp2. exists p2, st2, 2%nat.
      split_and!; [done|lia|done|by right]. }
  apply Z.eqb_eq in Hp2 as ->. rewrite E2 in * by done.
  eexists 0, _, 2%nat. split_and!; [done|lia|done|]. left. done.
Qed.

End memalign.

(** ** Blocks in use *)

(** Cell [a] lies in block [b], header included. *)
Definition in_block (b : block) (a : Z) : Prop :=
  b_addr b ≤ a < b_addr b + 16 * b_size b.

(** [b] is an allocated block of some region. *)
Definition held_block (bss : list (list block)) (b : block) : Prop :=
  b_free b = false ∧ ∃ bs, bs ∈ bss ∧ b ∈ bs.

Section blocks.
Implicit Types (m : gmap Z grub_mm_header) (rs : list grub_mm_region)
  (bss : list (list block)) (r : grub_mm_region) (bs : list block) (b : block).

Lemma tiling_disjoint m A E bs b b' a :
  tiling m A E bs → b ∈ bs → b' ∈ bs → in_block b a → in_block b' a → b = b'.
Proof.
  unfold in_block. revert A. induction bs as [|c bs IH]; intros A; simpl.
  - by intros _ ?%elem_of_nil.
  - intros (<- & ? & _ & _ & Ht) [->|Hb]%elem_of_cons [->|Hb']%elem_of_cons ? ?.
    + done.
    + destruct (tiling_block _ _ _ _ _ Ht Hb') as (? & _). lia.
    + destruct (tiling_block _ _ _ _ _ Ht Hb) as (? & _). lia.
    + by eapply IH.
Qed.

Lemma region_inv_block m r bs b a :
  region_inv m r bs → b ∈ bs → in_block b a →
  r_addr r ≤ a < r_addr r + r_size r.
Proof.
  intros [_ _ _ Ht _ _ _] Hb ?. unfold in_block in *.
  destruct (tiling_block _ _ _ _ _ Ht Hb) as (? & ? & ? & _). lia.
Qed.

Lemma mm_inv_disjoint m rs bss i j bs bs' b b' a :
  mm_inv m rs bss → bss !! i = Some bs → bss !! j = Some bs' →
  b ∈ bs → b' ∈ bs' → in_block b a → in_block b' a → i = j ∧ b = b'.
Proof.
  intros (HF & Hsep & _) Hi Hj Hb Hb' Ha Ha'.
  destruct (Forall2_lookup_r _ _ _ _ _ HF Hi) as (r & Hri & Hr).
  destruct (Forall2_lookup_r _ _ _ _ _ HF Hj) as (r' & Hrj & Hr').
  pose proof (region_inv_block _ _ _ _ _ Hr Hb Ha).
  pose proof (region_inv_block _ _ _ _ _ Hr' Hb' Ha').
  destruct (decide (i = j)) as [->|Hne].
  - split; [done|]. rewrite Hi in Hj. injection Hj as <-.
    destruct Hr as [_ _ _ Ht _ _ _]. by eapply tiling_disjoint.
  - destruct (Hsep i j r r' Hri Hrj Hne); lia.
Qed.

Lemma mm_inv_lookup_r m rs bss i bs :
  mm_inv m rs bss → bss !! i = Some bs →
  ∃ r, rs !! i = Some r ∧ region_inv m r bs.
Proof. intros (H & _) Hi. by apply (Forall2_lookup_r _ _ _ _ _ H Hi). Qed.

Lemma elem_of_frees_block m A E bs x :
  tiling m A E bs → x ∈ frees bs →
  ∃ b, b ∈ bs ∧ b_free b = true ∧ b_addr b = x ∧ in_block b x.
Proof.
  intros Ht (b & Hb & <- & Hf)%elem_of_frees. exists b. split_and!; try done.
  destruct (tiling_block _ _ _ _ _ Ht Hb) as (_ & ? & _). unfold in_block. lia.
Qed.

(** A cell of a block in use is no header of a free block, and lies in no
    other block. *)
Lemma held_block_apart m rs bss b a k bs c :
  mm_inv m rs bss → held_block bss b → in_block b a →
  bss !! k = Some bs → c ∈ bs → c ≠ b → ¬ in_block c a ∧ a ∉ frees bs.
Proof.
  intros Hinv (Hf & bs' & (j & Hj)%list_elem_of_lookup & Hb) Ha Hk Hc Hne. split.
  - intros Hca. destruct (mm_inv_disjoint _ _ _ _ _ _ _ _ _ _ Hinv Hk Hj Hc Hb Hca Ha).
    done.
  - intros Hin. destruct (mm_inv_lookup_r m rs bss k bs Hinv Hk) as (r & _ & [_ _ _ Ht _ _ _]).
    destruct (elem_of_frees_block _ _ _ _ _ Ht Hin) as (c' & Hc' & Hfc & _ & Hca).
    destruct (mm_inv_disjoint _ _ _ _ _ _ _ _ _ _ Hinv Hk Hj Hc' Hb Hca Ha) as (_ & ->).
    congruence.
Qed.

Lemma live_lookup bss k bs :
  bss !! k = Some bs →
  live bss = live (take k bss) ++ allocs bs ++ live (drop (S k) bss).
Proof.
  intros Hk. unfold live. rewrite <- (take_drop_middle _ _ _ Hk) at 1.
  by rewrite fmap_app, concat_app.
Qed.

Lemma live_insert bss k bs bs' :
  bss !! k = Some bs →
  live (<[k := bs']> bss) = live (take k bss) ++ allocs bs' ++ live (drop (S k) bss).
Proof.
  intros Hk. unfold live. rewrite insert_take_drop by (by eapply lookup_lt_Some).
  by rewrite fmap_app, concat_app.
Qed.

Lemma allocs_carved_focus bs1 q sz w n bs2 :
  allocs (bs1 ++ carved q sz w n ++ bs2) =
  allocs bs1 ++ (q + 16 * (w - n)) :: allocs bs2.
Proof. by rewrite !allocs_app, allocs_carved. Qed.

Lemma allocs_free_focus bs1 q sz bs2 :
  allocs (bs1 ++ Block q sz true :: bs2) = allocs bs1 ++ allocs bs2.
Proof. by rewrite !allocs_app. Qed.

Lemma alloc_step_live m rs bss size p k m' rs' bss' :
  alloc_step m rs bss size p k m' rs' bss' → live bss' ≡ₚ (p - 16) :: live bss.
Proof.
  intros (r & bs1 & q & sz & bs2 & w & f & _ & Hk & _ & -> & _ & -> & _).
  rewrite (live_insert _ _ _ _ Hk), (live_lookup _ _ _ Hk).
  rewrite allocs_carved_focus, allocs_free_focus.
  replace (q + 16 * (w - cells_for size) + 16 - 16) with (q + 16 * (w - cells_for size)) by lia.
  rewrite <- !app_assoc, <- app_comm_cons, !(app_assoc (live _) (allocs bs1)).
  symmetry. apply Permutation_middle.
Qed.

Lemma alloc_step_static m rs bss size p k m' rs' bss' :
  alloc_step m rs bss size p k m' rs' bss' → static <$> rs' = static <$> rs.
Proof.
  intros (r & bs1 & q & sz & bs2 & w & f & Hk & _ & _ & _ & -> & _).
  by apply static_insert.
Qed.

Lemma alloc_step_frame m rs bss size p k m' rs' bss' b a :
  mm_inv m rs bss → alloc_step m rs bss size p k m' rs' bss' →
  held_block bss b → in_block b a → m' !!! a = m !!! a.
Proof.
  intros Hinv (r & bs1 & q & sz & bs2 & w & f & _ & Hk & _ & _ & _ & _ & Hfoot) Hb Ha.
  destruct (held_block_apart m rs bss b a k _ (Block q sz true) Hinv Hb Ha Hk)
    as (Hn & Hfr).
  { apply elem_of_app. right. left. }
  { intros <-. by destruct Hb. }
  apply Hfoot; [|done]. intros ?. apply Hn. done.
Qed.

Lemma elem_of_carved_alloc q sz w n :
  Block (q + 16 * (w - n)) n false ∈ carved q sz w n.
Proof. unfold carved. rewrite !elem_of_app, elem_of_cons. auto. Qed.

Lemma alloc_step_new m rs bss size p k m' rs' bss' :
  alloc_step m rs bss size p k m' rs' bss' →
  held_block bss' (Block (p - 16) (cells_for size) false).
Proof.
  intros (r & bs1 & q & sz & bs2 & w & f & _ & Hk & _ & -> & _ & -> & _).
  split; [done|]. eexists. split.
  - apply list_elem_of_lookup. exists k. apply list_lookup_insert_eq.
    by eapply lookup_lt_Some.
  - rewrite !elem_of_app.
    replace (q + 16 * (w - cells_for size) + 16 - 16) with (q + 16 * (w - cells_for size)) by lia.
    right. left. apply elem_of_carved_alloc.
Qed.

Lemma alloc_step_held m rs bss size p k m' rs' bss' b :
  alloc_step m rs bss size p k m' rs' bss' →
  held_block bss b → held_block bss' b.
Proof.
  intros (r & bs1 & q & sz & bs2 & w & f & _ & Hk & _ & _ & _ & -> & _)
    (Hf & bs & (j & Hj)%list_elem_of_lookup & Hb).
  split; [done|]. destruct (decide (j = k)) as [->|Hne].
  - eexists. split.
    + apply list_elem_of_lookup. exists k. apply list_lookup_insert_eq.
      by eapply lookup_lt_Some.
    + rewrite Hk in Hj. injection Hj as <-.
      rewrite !elem_of_app, elem_of_cons in Hb. rewrite !elem_of_app.
      destruct Hb as [?|[->|?]]; [auto|done|auto].
  - exists bs. split; [|done]. apply list_elem_of_lookup. exists j.
    by rewrite list_lookup_insert_ne.
Qed.

End blocks.

(** ** Installing a region *)

Definition apart (r r' : grub_mm_region) : Prop :=
  r_addr r + r_size r < r_addr r' ∨ r_addr r' + r_size r' < r_addr r.

Lemma separated_cons r rs :
  separated (r :: rs) ↔ (∀ r', r' ∈ rs → apart r r') ∧ separated rs.
Proof.
  split.
  - intros H. split.
    + intros r' (j & Hj)%list_elem_of_lookup. by apply (H 0%nat (S j)).
    + intros i j ri rj Hi Hj Hne. apply (H (S i) (S j)); [done|done|lia].
  - intros [H1 H2] [|i] [|j] ri rj Hi Hj Hne; simpl in *; simplify_eq.
    + apply H1. by eapply list_elem_of_lookup_2.
    + destruct (H1 ri); [by eapply list_elem_of_lookup_2|by right|by left].
    + apply (H2 i j); [done|done|lia].
Qed.

Lemma elem_of_insert_region r q rs : q ∈ insert_region r rs ↔ q = r ∨ q ∈ rs.
Proof.
  induction rs as [|q' rs IH]; simpl.
  - rewrite elem_of_cons. tauto.
  - destruct (_ <? _); rewrite !elem_of_cons; [tauto|]. rewrite IH. tauto.
Qed.

Lemma separated_insert r rs :
  separated rs → (∀ r', r' ∈ rs → apart r r') → separated (insert_region r rs).
Proof.
  induction rs as [|q rs IH]; simpl; intros Hs Hr.
  - apply separated_cons. split; [by intros ? ?%elem_of_nil|done].
  - destruct (_ <? _); [by apply separated_cons|].
    apply separated_cons in Hs as [Hq Hs]. apply separated_cons. split.
    + intros r' [->|?]%elem_of_insert_region; [|by apply Hq].
      destruct (Hr q); [left|by right|by left].
    + apply IH; [done|]. intros r' ?. apply Hr. by right.
Qed.

Lemma Forall2_insert_region (P : grub_mm_region → list block → Prop) r bs rs bss :
  Forall2 P rs bss → P r bs →
  ∃ bss', Forall2 P (insert_region r rs) bss' ∧ live bss' ≡ₚ allocs bs ++ live bss.
Proof.
  intros HF Hr. induction HF as [|q bq rs bss Hq HF (bss' & IH1 & IH2)]; simpl.
  - exists [bs]. split; [by repeat constructor|done].
  - destruct (_ <? _).
    + exists (bs :: bq :: bss). split; [by repeat constructor|done].
    + exists (bq :: bss'). split; [by constructor|].
      unfold live in *. simpl. rewrite IH2.
      rewrite !app_assoc. apply Permutation_app_tail, Permutation_app_comm.
Qed.

Section init.

Variable GRUB_MM_NPOLICIES : Z.

(** Where the free block of the new region starts, and its cells. *)
Definition init_first (addr : Z) : Z :=
  (addr + 15) / 16 * 16 + sizeof_region GRUB_MM_NPOLICIES.

Definition init_cells (addr size : Z) : Z :=
  (addr + size - init_first addr) / 16.

Lemma init_region_small st addr size policies :
  size < 64 → grub_mm_init_region GRUB_MM_NPOLICIES st addr size policies = st.
Proof.
  intros. unfold grub_mm_init_region.
  by rewrite GRUB_MM_ALIGN_16, (proj2 (Z.ltb_lt size (16 * 4))) by lia.
Qed.

Lemma init_region_eq st addr size policies :
  0 ≤ addr → addr + size < 2 ^ 32 → 0 ≤ GRUB_MM_NPOLICIES →
  64 ≤ size → sizeof_region GRUB_MM_NPOLICIES + 15 ≤ size →
  let h := init_first addr in
  let n := init_cells addr size in
  grub_mm_init_region GRUB_MM_NPOLICIES st addr size policies =
  with_mem (<[h := Header h h n GRUB_MM_FREE_MAGIC]> (heap st))
           (insert_region (Region h h (16 * n) policies) (base st)) st.
Proof.
  intros Ha Hs HN H64 Hsz. cbv zeta. unfold grub_mm_init_region.
  rewrite GRUB_MM_ALIGN_16, (proj2 (Z.ltb_ge size (16 * 4))) by lia.
  rewrite <- GRUB_MM_ALIGN_16, ALIGN_UP_cell, shiftr_cell.
  assert (0 ≤ sizeof_region GRUB_MM_NPOLICIES).
  { unfold sizeof_region, GRUB_CPU_SIZEOF_VOID_P. lia. }
  rewrite (word_small (addr + 15)) by lia.
  assert (addr ≤ (addr + 15) / 16 * 16 ≤ addr + 15)
    by (pose proof (Z.div_mod (addr + 15) 16);
        pose proof (Z.mod_pos_bound (addr + 15) 16); lia).
  rewrite (word_small (_ - addr)) by lia.
  rewrite (word_small (_ - addr + _)) by lia.
  rewrite (word_small (size - _)) by lia.
  rewrite (word_small (_ + sizeof_region _)) by lia.
  unfold init_cells. fold (init_first addr).
  replace (size - ((addr + 15) / 16 * 16 - addr + sizeof_region GRUB_MM_NPOLICIES))
    with (addr + size - init_first addr) by (unfold init_first; lia).
  assert (0 ≤ (addr + size - init_first addr) / 16 * 16 < 2 ^ 32).
  { pose proof (Z.div_mod (addr + size - init_first addr) 16);
    pose proof (Z.mod_pos_bound (addr + size - init_first addr) 16).
    unfold init_first in *. lia. }
  fields. rewrite decide_True by done. rewrite shiftl_cell, word_small by lia.
  rewrite (Z.mul_comm _ 16). f_equal.
  unfold set_size, set_magic, set_prev, set_next.
  rewrite !lookup_total_insert_eq, !insert_insert_eq. done.
Qed.

Hypothesis npolicies_pos : 0 ≤ GRUB_MM_NPOLICIES.
Hypothesis npolicies_cells : GRUB_MM_NPOLICIES mod 4 = 0.

Lemma init_first_aligned addr : init_first addr mod 16 = 0.
Proof.
  unfold init_first, sizeof_region, GRUB_CPU_SIZEOF_VOID_P.
  pose proof (Z.div_mod GRUB_MM_NPOLICIES 4).
  replace (4 * (4 + GRUB_MM_NPOLICIES))
    with ((1 + GRUB_MM_NPOLICIES / 4) * 16) by lia.
  rewrite <- Z.mul_add_distr_r. apply Z.mod_mul. lia.
Qed.

(** A span apart from the regions in place becomes a region of one free
    block. *)
Lemma init_region_inv st bss addr size policies :
  mm_inv (heap st) (base st) bss →
  0 ≤ addr → addr + size < 2 ^ 32 →
  64 ≤ size → sizeof_region GRUB_MM_NPOLICIES + 31 ≤ size →
  (∀ r, r ∈ base st → r_addr r + r_size r ≤ addr ∨ addr + size < r_addr r) →
  h_magic (heap st !!! (init_first addr + 16 * init_cells addr size))
    ≠ GRUB_MM_FREE_MAGIC →
  let st' := grub_mm_init_region GRUB_MM_NPOLICIES st addr size policies in
  ∃ bss', mm_inv (heap st') (base st') bss' ∧ live bss' ≡ₚ live bss.
Proof.
  intros (HF & Hsep & Hend) Ha Hs H64 Hsz Hap Hcl. cbv zeta.
  rewrite init_region_eq by (try done; lia). simpl.
  pose proof (init_first_aligned addr) as Hal.
  assert (16 ≤ sizeof_region GRUB_MM_NPOLICIES)
    by (unfold sizeof_region, GRUB_CPU_SIZEOF_VOID_P; lia).
  assert (addr ≤ (addr + 15) / 16 * 16 ≤ addr + 15)
    by (pose proof (Z.div_mod (addr + 15) 16);
        pose proof (Z.mod_pos_bound (addr + 15) 16); lia).
  assert (16 ≤ addr + size - init_first addr) as Hus by (unfold init_first; lia).
  assert (1 ≤ init_cells addr size ∧
          init_first addr + 16 * init_cells addr size ≤ addr + size) as [Hn Hfit].
  { unfold init_cells.
    pose proof (Z.div_mod (addr + size - init_first addr) 16);
    pose proof (Z.mod_pos_bound (addr + size - init_first addr) 16). lia. }
  assert (0 < init_first addr) as Hh by (unfold init_first; lia).
  assert (addr < init_first addr) as Hge by (unfold init_first; lia).
  clear Hus.
  set (h := init_first addr) in *. set (n := init_cells addr size) in *.
  set (m' := <[h := Header h h n GRUB_MM_FREE_MAGIC]> (heap st)).
  assert (Hm' : m' !!! h = Header h h n GRUB_MM_FREE_MAGIC)
    by apply lookup_total_insert_eq.
  assert (Hne : ∀ a, a ≠ h → m' !!! a = heap st !!! a)
    by (intros; by apply lookup_total_insert_ne).
  destruct (Forall2_insert_region (region_inv m') (Region h h (16 * n) policies)
    [Block h n true] (base st) bss) as (bss' & HF' & Hlive).
  - apply Forall2_same_length_lookup. split; [by eapply Forall2_length|].
    intros i r bs Hi Hbs. pose proof (Forall2_lookup_lr _ _ _ _ _ _ HF Hi Hbs) as Hr.
    eapply region_inv_frame; [|done]. intros a Hin. apply Hne.
    destruct (Hap r); [by eapply list_elem_of_lookup_2|lia|lia].
  - constructor; simpl; try done; try lia.
    + rewrite Hm'. simpl. split_and!; try done.
    + rewrite Hm'. done.
  - exists bss'. split; [|done]. split_and!; [done| |].
    + apply separated_insert; [done|]. intros r Hr. unfold apart. simpl.
      destruct (Hap r Hr); lia.
    + intros r [->|Hr]%elem_of_insert_region; simpl.
      * rewrite Hne by lia. done.
      * rewrite Hne; [by apply Hend|]. destruct (Hap r Hr); [lia|].
        destruct (mm_inv_range _ _ _ r (conj HF (conj Hsep Hend)) Hr) as (? & _).
        lia.
Qed.

End init.

(** ** The request size enters through the cell count only *)

Section cells.

Variable grub_disk_cache_invalidate_all grub_dl_unload_unneeded :
  gmap Z grub_mm_header * list grub_mm_region →
  gmap Z grub_mm_header * list grub_mm_region.




End cells.

Lemma cells_for_wrap size : 2 ^ 32 - 16 < size < 2 ^ 32 → cells_for size = 1.
Proof.
  intros. rewrite cells_for_eq. unfold word.
  replace ((size + 15) mod 2 ^ 32) with (size + 15 - 2 ^ 32)
    by (apply Z.mod_unique with 1; lia).
  rewrite Z.div_small by lia. done.
Qed.

Lemma insert_region_length r rs : length (insert_region r rs) = S (length rs).
Proof.
  induction rs as [|q rs IH]; simpl; [done|].
  destruct (_ <? _); simpl; by rewrite ?IH.
Qed.

Lemma scan_pass_calls fuel align size policy st p st' :
  scan_pass fuel align size policy st = Ok (p, st') →
  calls st' = calls st ∧ grub_errno st' = grub_errno st ∧
  grub_errmsg st' = grub_errmsg st.
Proof.
  unfold scan_pass.
  destruct (scan_regions _ _ _ _ _ _ _) as [[[p' m'] rs]| |]; simpl; [|done..].
  by intros [= <- <-].
Qed.

Lemma stage_calls disk dl j st :
  (j ≤ 2)%nat →
  calls (stage disk dl j st)
    = calls st ++ take j [DISK_CACHE_INVALIDATE_ALL; DL_UNLOAD_UNNEEDED] ∧
  grub_errno (stage disk dl j st) = grub_errno st ∧
  grub_errmsg (stage disk dl j st) = grub_errmsg st.
Proof.
  intros. destruct j as [|[|[|j]]]; simpl; rewrite <- ?app_assoc, ?app_nil_r;
    try done; lia.
Qed.

Lemma mm_inv_empty : mm_inv ∅ [] [].
Proof.
  split_and!; [constructor| |].
  - by intros i j ri rj ?.
  - by intros r ?%elem_of_nil.
Qed.


(** ** The order of the regions *)







(** ** A state to compute with

    One region: 4096 bytes handed over at 1 MiB, with four policies. *)

Definition example_policies : list allocator :=
  [GRUB_MM_ALLOCATOR_FIRST; GRUB_MM_ALLOCATOR_SECOND;
   GRUB_MM_ALLOCATOR_SKIP; GRUB_MM_ALLOCATOR_LAST].

Definition example_state : mm_state :=
  grub_mm_init_region 4 mm_empty 0x100000 4096 example_policies.

(** A hook with nothing to give back. *)
Definition idle (x : gmap Z grub_mm_header * list grub_mm_region)
    : gmap Z grub_mm_header * list grub_mm_region := x.

(** The example region with its one block handed out: 4048 bytes take all
    254 cells. *)
Definition example_full : mm_state :=
  match grub_malloc idle idle 4065 4048 example_state with
  | Ok (_, st) => st
  | _ => example_state
  end.

Lemma idle_keeps : hook_keeps mm_inv idle.
Proof. intros m rs bss H. simpl. eauto. Qed.

Lemma example_inv :
  ∃ bss, mm_inv (heap example_state) (base example_state) bss ∧ live bss = [].
Proof.
  destruct (init_region_inv 4 ltac:(lia) ltac:(done) mm_empty [] 0x100000 4096
              example_policies) as (bss & H1 & H2).
  - apply mm_inv_empty.
  - lia.
  - lia.
  - lia.
  - vm_compute. discriminate.
  - by intros r ?%elem_of_nil.
  - by vm_compute.
  - exists bss. split; [done|]. by apply Permutation_nil_r in H2.
Qed.

(** ** The checks of [grub_free] *)

(** What [get_header_from_pointer] refuses. *)
Definition bad_pointer (m : gmap Z grub_mm_header) (rs : list grub_mm_region)
    (ptr : Z) : Prop :=
  Z.land ptr (GRUB_MM_ALIGN - 1) ≠ 0 ∨
  (∀ r, r ∈ rs → ¬ owns r ptr) ∨
  h_magic (m !!! hdr_add ptr (-1)) ≠ GRUB_MM_ALLOC_MAGIC.

Section checks.
Implicit Types (m : gmap Z grub_mm_header) (rs : list grub_mm_region)
  (bss : list (list block)) (r : grub_mm_region) (bs : list block).

Lemma get_header_cases m rs ptr :
  (bad_pointer m rs ptr ∧ ∃ msg, get_header_from_pointer m rs ptr = Fatal msg) ∨
  (¬ bad_pointer m rs ptr ∧ ∃ i r,
     get_header_from_pointer m rs ptr = Ok (hdr_add ptr (-1), i, r) ∧
     rs !! i = Some r ∧ owns r ptr).
Proof.
  unfold get_header_from_pointer, bad_pointer.
  destruct (Z.eqb_spec (Z.land ptr (GRUB_MM_ALIGN - 1)) 0) as [Ha|Ha]; simpl;
    [|left; eauto].
  destruct (find_region ptr rs 0) as [[i r]|] eqn:Hf.
  - apply find_region_Some in Hf as (j & -> & Hj & Ho & _). simpl.
    destruct (Z.eqb_spec (h_magic (m !!! hdr_add ptr (-1))) GRUB_MM_ALLOC_MAGIC)
      as [Hm|Hm]; simpl; [|left; eauto].
    right. split; [|by eauto]. intros [?|[Hno|?]]; [done| |done].
    apply (Hno r); [by eapply list_elem_of_lookup_2|done].
  - left. split; [|by eauto]. right. left. by apply (find_region_None ptr rs 0).
Qed.

Lemma tiling_frees_sorted m a e bs :
  tiling m a e bs → StronglySorted Z.lt (frees bs).
Proof.
  revert a. induction bs as [|b bs IH]; intros a; simpl; [constructor|].
  intros (<- & ? & _ & _ & Ht). destruct (b_free b); [|by eapply IH].
  constructor; [by eapply IH|]. apply Forall_forall. intros x Hx.
  destruct (tiling_frees _ _ _ _ _ Ht Hx). lia.
Qed.

Lemma sorted_split (F : list Z) p :
  StronglySorted Z.lt F → p ∉ F →
  ∃ F1 F2, F = F1 ++ F2 ∧ (∀ x, x ∈ F1 → x < p) ∧ (∀ x, x ∈ F2 → p < x).
Proof.
  induction F as [|a F IH]; intros Hs Hp.
  - exists [], []. split_and!; [done|by intros ? ?%elem_of_nil..].
  - apply StronglySorted_inv in Hs as [Hs Ha]. apply not_elem_of_cons in Hp as [? Hp].
    destruct (decide (a < p)).
    + destruct (IH Hs Hp) as (F1 & F2 & -> & H1 & H2). exists (a :: F1), F2.
      split_and!; [done| |done]. intros x [->|?]%elem_of_cons; auto.
    + exists [], (a :: F). split_and!; [done|by intros ? ?%elem_of_nil|].
      intros x [->|Hx]%elem_of_cons; [lia|].
      eapply Forall_forall in Ha; [|done]. lia.
Qed.

(** On a state at rest the walk of [grub_free] comes to an end without a
    fatal error, wherever [p] points, as long as it is no ring node. *)
Lemma free_walk_total m r bs fuel p :
  region_inv m r bs → frees bs ≠ [] → p ∉ frees bs →
  (length (frees bs) < fuel)%nat →
  ∃ q, free_walk fuel m (r_first r) p (r_first r) = Ok q.
Proof.
  intros [_ _ _ Ht _ Hring Hfirst] Hne Hp Hfuel.
  destruct (sorted_split _ p (tiling_frees_sorted _ _ _ _ Ht) Hp)
    as (F1 & F2 & E & H1 & H2).
  rewrite E in *. eexists.
  replace (r_first r) with (hd 0 (F1 ++ F2)) by (by destruct (F1 ++ F2)).
  eapply (free_walk_spec m _ p F1 F2 Hring) with (done := []); try done.
  - rewrite <- E. by eapply tiling_frees_NoDup.
  - intros x Hx. rewrite <- E in Hx. by eapply tiling_frees.
  - rewrite length_app in Hfuel. lia.
Qed.

Lemma grub_free_total st bss fuel ptr :
  mm_inv (heap st) (base st) bss → (fuel_for (base st) ≤ fuel)%nat →
  ptr ≠ 0 → ¬ bad_pointer (heap st) (base st) ptr →
  ∃ st', grub_free fuel ptr st = Ok st'.
Proof.
  intros Hinv Hfuel Hptr Hgood. unfold grub_free.
  rewrite (proj2 (Z.eqb_neq ptr 0)) by done.
  destruct (get_header_cases (heap st) (base st) ptr)
    as [[? _]|(_ & i & r & -> & Hi & _)]; [done|].
  cbn -[free_insert free_walk].
  destruct (h_magic (heap st !!! r_first r) =? GRUB_MM_ALLOC_MAGIC) eqn:Hfull;
    [by eexists|].
  destruct (mm_inv_lookup _ _ _ _ _ Hinv Hi) as (bs & _ & Hr).
  apply Z.eqb_neq in Hfull.
  destruct (free_walk_total (heap st) r bs fuel (hdr_add ptr (-1)) Hr) as (q & ->).
  - intros Hnil. destruct Hr as [_ _ _ Ht _ _ Hf]. rewrite Hnil in Hf.
    by destruct (tiling_allocs _ _ _ _ _ Ht Hf) as (_ & _ & _ & ?).
  - intros Hin. destruct Hr as [_ _ _ Ht _ _ _].
    destruct (tiling_frees _ _ _ _ _ Ht Hin) as (_ & _ & _ & Hm).
    apply Hgood. right. right. by rewrite Hm.
  - eapply fuel_for_ring; [by eapply list_elem_of_lookup_2|done|done].
  - cbn -[free_insert]. destruct (free_insert _ _ _ _). by eexists.
Qed.

End checks.

(** ** What an allocation leaves behind *)

Section memalign_spec.

Variable grub_disk_cache_invalidate_all grub_dl_unload_unneeded :
  gmap Z grub_mm_header * list grub_mm_region →
  gmap Z grub_mm_header * list grub_mm_region.
Variable Inv :
  gmap Z grub_mm_header → list grub_mm_region → list (list block) → Prop.
Hypothesis Inv_mm_inv : ∀ m rs bss, Inv m rs bss → mm_inv m rs bss.
Hypothesis disk_keeps : hook_keeps Inv grub_disk_cache_invalidate_all.
Hypothesis dl_keeps : hook_keeps Inv grub_dl_unload_unneeded.

(** The call returns; [s] is the state the last scan started from, after
    the hooks that ran.  Either nothing was found and memory is as in
    [s], or one region of [s] served the request. *)
Lemma memalign_policy_spec st bss fuel align size policy :
  Inv (heap st) (base st) bss → (fuel_for (base st) ≤ fuel)%nat →
  0 ≤ align < 2 ^ 32 →
  ∃ p st' m0 rs0 bss0,
    grub_memalign_policy grub_disk_cache_invalidate_all grub_dl_unload_unneeded
      fuel align size policy st = Ok (p, st') ∧
    Inv m0 rs0 bss0 ∧ static <$> rs0 = static <$> base st ∧
    ((p = 0 ∧ heap st' = m0 ∧ base st' = rs0) ∨
     (p ≠ 0 ∧ grub_errno st' = grub_errno st ∧ ∃ k bss',
        mm_inv (heap st') (base st') bss' ∧
        alloc_step m0 rs0 bss0 size p k (heap st') (base st') bss')).
Proof.
  intros HI Hfuel Hal.
  destruct (memalign_policy_stages grub_disk_cache_invalidate_all
              grub_dl_unload_unneeded Inv Inv_mm_inv disk_keeps dl_keeps
              st bss fuel align size policy HI Hfuel Hal)
    as (p & st' & j & Hrun & Hj & _ & Hlast).
  destruct (stage_inv grub_disk_cache_invalidate_all grub_dl_unload_unneeded
              Inv disk_keeps dl_keeps st bss j HI) as (Hst & bssj & HIj).
  destruct (stage_calls grub_disk_cache_invalidate_all grub_dl_unload_unneeded
              j st Hj) as (_ & He & _).
  set (s := stage grub_disk_cache_invalidate_all grub_dl_unload_unneeded j st) in *.
  exists p, st', (heap s), (base s), bssj. split_and!; try done.
  destruct Hlast as [(-> & -> & _ & ->)|(Hp & Hs)]; [by left|]. right.
  destruct (scan_pass_spec s bssj fuel align size policy (Inv_mm_inv _ _ _ HIj))
    as (p' & st'' & Hs' & He' & _ & _ & H); [by rewrite (fuel_for_static _ _ Hst)|done|].
  rewrite Hs in Hs'. injection Hs' as <- <-.
  destruct H as [(? & _)|(_ & k & bss' & Hinv' & Hstep & _)]; [done|].
  split_and!; [done|congruence|]. by exists k, bss'.
Qed.

End memalign_spec.

(** With hooks that keep the state at rest, so does the allocation. *)
Lemma memalign_policy_inv disk dl st bss fuel align size policy :
  hook_keeps mm_inv disk → hook_keeps mm_inv dl →
  mm_inv (heap st) (base st) bss → (fuel_for (base st) ≤ fuel)%nat →
  0 ≤ align < 2 ^ 32 →
  ∃ p st' bss',
    grub_memalign_policy disk dl fuel align size policy st = Ok (p, st') ∧
    mm_inv (heap st') (base st') bss' ∧
    static <$> base st' = static <$> base st ∧
    (p ≠ 0 → held_block bss' (Block (p - 16) (cells_for size) false)).
Proof.
  intros Hdisk Hdl Hinv Hfuel Hal.
  destruct (memalign_policy_spec disk dl mm_inv (λ _ _ _ H, H) Hdisk Hdl
              st bss fuel align size policy Hinv Hfuel Hal)
    as (p & st' & m0 & rs0 & bss0 & Hrun & Hinv0 & Hst & H).
  exists p, st'.
  destruct H as [(-> & -> & ->)|(Hp & _ & k & bss' & Hinv' & Hstep)].
  - exists bss0. by split_and!.
  - exists bss'. split_and!; try done.
    + by rewrite (alloc_step_static _ _ _ _ _ _ _ _ _ Hstep).
    + intros _. by eapply alloc_step_new.
Qed.

Lemma example_full_inv :
  ∃ bss, mm_inv (heap example_full) (base example_full) bss.
Proof.
  destruct example_inv as (bss & Hinv & _).
  destruct (memalign_policy_inv idle idle example_state bss 4065 0 4048
              GRUB_MM_MALLOC_DEFAULT idle_keeps idle_keeps Hinv)
    as (p & st' & bss' & Hrun & Hinv' & _); [vm_compute; lia|lia|].
  exists bss'. unfold example_full, grub_malloc, grub_memalign. by rewrite Hrun.
Qed.

(** ** Facts about blocks in use *)

Section held.
Implicit Types (m : gmap Z grub_mm_header) (rs : list grub_mm_region)
  (bss : list (list block)) (r : grub_mm_region) (bs : list block) (b : block).

Lemma elem_of_allocs_block bs b : b ∈ bs → b_free b = false → b_addr b ∈ allocs bs.
Proof. intros. apply elem_of_allocs. by exists b. Qed.

Lemma held_block_header m rs bss b :
  mm_inv m rs bss → held_block bss b →
  b_addr b mod 16 = 0 ∧ 1 ≤ b_size b ∧
  h_magic (m !!! b_addr b) = GRUB_MM_ALLOC_MAGIC ∧
  h_size (m !!! b_addr b) = b_size b ∧
  ∃ i r bs, rs !! i = Some r ∧ bss !! i = Some bs ∧ b ∈ bs ∧
    r_addr r ≤ b_addr b ∧ b_addr b + 16 * b_size b ≤ r_addr r + r_size r ∧
    get_header_from_pointer m rs (b_addr b + 16) = Ok (b_addr b, i, r).
Proof.
  intros Hinv (Hf & bs & (i & Hi)%list_elem_of_lookup & Hb).
  destruct (mm_inv_lookup_r _ _ _ _ _ Hinv Hi) as (r & Hr & Hreg).
  pose proof Hreg as [_ _ Hal Ht _ _ _].
  destruct (tiling_block _ _ _ _ _ Ht Hb) as (? & ? & ? & Hsz & Hmg).
  rewrite Hf in Hmg. pose proof (elem_of_allocs_block _ _ Hb Hf) as Hin.
  split_and!; try done.
  - by eapply (tiling_aligned _ _ _ _ _ Ht Hal), or_intror.
  - exists i, r, bs. split_and!; try done. by eapply get_header_live.
Qed.

Lemma get_header_not_bad m rs ptr res :
  get_header_from_pointer m rs ptr = Ok res → ¬ bad_pointer m rs ptr.
Proof.
  intros H. destruct (get_header_cases m rs ptr) as [(_ & msg & E)|[? _]]; [|done].
  congruence.
Qed.

Lemma elem_of_concat (ls : list (list Z)) x :
  x ∈ concat ls ↔ ∃ l, x ∈ l ∧ l ∈ ls.
Proof.
  induction ls as [|l ls IH]; simpl.
  - split; [by intros ?%elem_of_nil|by intros (? & _ & ?%elem_of_nil)].
  - rewrite elem_of_app, IH. split.
    + intros [?|(l' & ? & ?)]; [exists l|exists l']; split; try done; by constructor.
    + intros (l' & ? & [->|?]%elem_of_cons); eauto.
Qed.

(** Every address of the live list is the header of a block in use. *)
Lemma elem_of_live bss x :
  x ∈ live bss ↔ ∃ i bs1 n bs2, bss !! i = Some (bs1 ++ Block x n false :: bs2).
Proof.
  unfold live. rewrite elem_of_concat. split.
  - intros (l & Hx & (bs & -> & (i & Hi)%list_elem_of_lookup)%list_elem_of_fmap).
    apply elem_of_allocs_split in Hx as (bs1 & n & bs2 & ->). by exists i, bs1, n, bs2.
  - intros (i & bs1 & n & bs2 & Hi).
    exists (allocs (bs1 ++ Block x n false :: bs2)). split.
    + rewrite (allocs_focus bs1 x n bs2), elem_of_app, elem_of_cons. auto.
    + apply list_elem_of_fmap. eexists. split; [done|]. by eapply list_elem_of_lookup_2.
Qed.

Lemma held_block_split bss b :
  held_block bss b →
  ∃ i bs1 bs2, bss !! i = Some (bs1 ++ Block (b_addr b) (b_size b) false :: bs2).
Proof.
  intros (Hf & bs & (i & Hi)%list_elem_of_lookup & (bs1 & bs2 & ->)%list_elem_of_split).
  exists i, bs1, bs2. by destruct b; simpl in *; subst.
Qed.


End held.

(** ** The magic a free leaves behind *)






(** ** What a free leaves behind *)

Section free_held.
Implicit Types (m : gmap Z grub_mm_header) (rs : list grub_mm_region)
  (bss : list (list block)) (r : grub_mm_region) (bs : list block) (b : block).

Lemma in_block_self b : 1 ≤ b_size b → in_block b (b_addr b).
Proof. unfold in_block. lia. Qed.

Lemma block_eq b b' :
  b_addr b = b_addr b' → b_size b = b_size b' → b_free b = b_free b' → b = b'.
Proof. destruct b, b'. simpl. by intros -> -> ->. Qed.

(** [grub_free] of the pointer of a block in use: the state stays at rest,
    the block leaves the live list, every other block in use stays as it
    is, byte for byte. *)
Lemma grub_free_held st bss fuel b :
  mm_inv (heap st) (base st) bss → (fuel_for (base st) ≤ fuel)%nat →
  held_block bss b →
  ∃ st' bss',
    grub_free fuel (b_addr b + 16) st = Ok st' ∧
    mm_inv (heap st') (base st') bss' ∧
    static <$> base st' = static <$> base st ∧
    grub_errno st' = grub_errno st ∧ calls st' = calls st ∧
    live bss ≡ₚ b_addr b :: live bss' ∧
    (∀ b', held_block bss b' → b' ≠ b →
       held_block bss' b' ∧ ∀ a, in_block b' a → heap st' !!! a = heap st !!! a).
Proof.
  intros Hinv Hfuel Hb. destruct b as [p n f].
  assert (f = false) as -> by (by destruct Hb).
  destruct (held_block_split _ _ Hb) as (i & bs1 & bs2 & Hi).
  destruct (held_block_header _ _ _ _ Hinv Hb) as (_ & Hn & _). simpl in *.
  destruct (grub_free_spec st bss i bs1 p n bs2 fuel Hinv Hi Hfuel)
    as (m' & rs' & bs' & Hrun & Hinv' & Hal & Hst & Hfoot).
  exists (with_mem m' rs' st), (<[i := bs']> bss). simpl.
  assert (Hframe : ∀ b' a, held_block bss b' → b' ≠ Block p n false → in_block b' a →
            m' !!! a = heap st !!! a).
  { intros b' a Hb' Hne Ha.
    destruct (held_block_apart _ _ _ b' a i _ (Block p n false) Hinv Hb' Ha Hi)
      as (Hn1 & Hn2).
    { apply elem_of_app. right. left. }
    { done. }
    rewrite frees_focus in Hn2. apply Hfoot; [|done].
    intros ->. apply Hn1. by apply in_block_self. }
  split_and!; try done.
  - rewrite (live_lookup _ _ _ Hi), (live_insert _ _ _ _ Hi), allocs_focus, Hal.
    rewrite <- !app_assoc, !(app_assoc (live _) (allocs bs1)).
    symmetry. apply Permutation_middle.
  - intros b' Hb' Hne. split; [|intros a; by apply Hframe].
    pose proof Hb' as (Hf' & bs0 & (j & Hj)%list_elem_of_lookup & Hin).
    split; [done|]. destruct (decide (j = i)) as [->|Hji].
    + exists bs'. split.
      { apply list_elem_of_lookup. exists i. apply list_lookup_insert_eq.
        by eapply lookup_lt_Some. }
      rewrite Hi in Hj. injection Hj as <-.
      assert (b_addr b' ∈ allocs bs') as Hin'.
      { rewrite Hal. rewrite elem_of_app, elem_of_cons in Hin.
        rewrite elem_of_app. destruct Hin as [?|[E|?]].
        - left. by apply elem_of_allocs_block.
        - done.
        - right. by apply elem_of_allocs_block. }
      apply elem_of_allocs in Hin' as (c & Hc & Hca & Hcf).
      replace b' with c; [done|]. apply block_eq; [done| |congruence].
      destruct (mm_inv_lookup_r _ _ (<[i:=bs']> bss) i bs' Hinv') as (r' & _ & Hr').
      { apply list_lookup_insert_eq. by eapply lookup_lt_Some. }
      destruct Hr' as [_ _ _ Ht' _ _ _].
      destruct (tiling_block _ _ _ _ _ Ht' Hc) as (_ & _ & _ & <- & _).
      destruct (held_block_header _ _ _ _ Hinv Hb') as (_ & Hn' & _ & <- & _).
      rewrite Hca. f_equal. apply Hframe with b'; [done|done|by apply in_block_self].
    + exists bs0. split; [|done]. apply list_elem_of_lookup. exists j.
      by rewrite list_lookup_insert_ne.
Qed.

End free_held.

(** ** Blocks an allocation leaves alone *)

(** Block [b] is in use and holds what it holds in [m0]. *)
Definition kept (b : block) (m0 : gmap Z grub_mm_header)
    (m : gmap Z grub_mm_header) (rs : list grub_mm_region)
    (bss : list (list block)) : Prop :=
  mm_inv m rs bss ∧ held_block bss b ∧ ∀ a, in_block b a → m !!! a = m0 !!! a.

Lemma idle_keeps_kept b m0 : hook_keeps (kept b m0) idle.
Proof. intros m rs bss H. simpl. eauto. Qed.

Lemma alloc_step_fresh m rs bss size p k m' rs' bss' b :
  mm_inv m rs bss → alloc_step m rs bss size p k m' rs' bss' →
  held_block bss b → ¬ in_block b (p - 16).
Proof.
  intros Hinv (r & bs1 & q & sz & bs2 & w & f & _ & Hk & Hw & -> & _ & _ & _) Hb Hin.
  pose proof (cells_for_range size).
  destruct (held_block_apart m rs bss b (q + 16 * (w - cells_for size) + 16 - 16)
              k _ (Block q sz true) Hinv Hb Hin Hk) as (Hn & _).
  - apply elem_of_app. right. left.
  - intros <-. by destruct Hb.
  - apply Hn. unfold in_block. simpl. lia.
Qed.

Lemma memalign_policy_kept disk dl b m0 st bss fuel align size policy :
  hook_keeps (kept b m0) disk → hook_keeps (kept b m0) dl →
  kept b m0 (heap st) (base st) bss → (fuel_for (base st) ≤ fuel)%nat →
  0 ≤ align < 2 ^ 32 →
  ∃ p st' bss',
    grub_memalign_policy disk dl fuel align size policy st = Ok (p, st') ∧
    kept b m0 (heap st') (base st') bss' ∧
    static <$> base st' = static <$> base st ∧
    (p ≠ 0 →
       held_block bss' (Block (p - 16) (cells_for size) false) ∧
       ¬ in_block b (p - 16)).
Proof.
  intros Hdisk Hdl Hkept Hfuel Hal.
  destruct (memalign_policy_spec disk dl (kept b m0) (λ _ _ _ H, proj1 H) Hdisk Hdl
              st bss fuel align size policy Hkept Hfuel Hal)
    as (p & st' & m1 & rs1 & bss1 & Hrun & (Hinv1 & Hb1 & Hbytes) & Hst & H).
  exists p, st'.
  destruct H as [(-> & -> & ->)|(Hp & _ & k & bss' & Hinv' & Hstep)].
  - exists bss1. by split_and!.
  - exists bss'. split_and!; try done.
    + split_and!; [done|by eapply alloc_step_held|].
      intros a Ha. rewrite <- Hbytes by done. by eapply alloc_step_frame.
    + by rewrite (alloc_step_static _ _ _ _ _ _ _ _ _ Hstep).
    + intros _. split; [by eapply alloc_step_new|].
      eapply alloc_step_fresh; [exact Hinv1|exact Hstep|exact Hb1].
Qed.

(** The example region after [grub_malloc (100)]: eight cells are in use
    at the low end. *)
Definition example_used : mm_state :=
  match grub_malloc idle idle 4065 100 example_state with
  | Ok (_, st) => st
  | _ => example_state
  end.

Lemma example_used_inv :
  ∃ bss, mm_inv (heap example_used) (base example_used) bss ∧
         held_block bss (Block 0x100020 8 false).
Proof.
  destruct example_inv as (bss & Hinv & _).
  destruct (memalign_policy_inv idle idle example_state bss 4065 0 100
              GRUB_MM_MALLOC_DEFAULT idle_keeps idle_keeps Hinv)
    as (p & st' & bss' & Hrun & Hinv' & _ & Hheld); [vm_compute; lia|lia|].
  assert (grub_memalign_policy idle idle 4065 0 100 GRUB_MM_MALLOC_DEFAULT
            example_state = Ok (0x100030, example_used)) as E
    by (vm_compute; reflexivity).
  rewrite E in Hrun. injection Hrun as <- <-.
  exists bss'. split; [done|]. by apply Hheld.
Qed.

(** ** A region with nothing in use *)

Section all_free.
Implicit Types (m : gmap Z grub_mm_header) (rs : list grub_mm_region)
  (bss : list (list block)) (r : grub_mm_region) (bs : list block) (b : block).

Lemma allocs_nil_free bs b : allocs bs = [] → b ∈ bs → b_free b = true.
Proof.
  intros Hnil Hb. destruct (b_free b) eqn:Hf; [done|].
  pose proof (elem_of_allocs_block _ _ Hb Hf) as Hin. rewrite Hnil in Hin.
  by apply elem_of_nil in Hin.
Qed.

(** With no block in use, a region at rest is one free block linked to
    itself. *)
Lemma region_inv_all_free m r bs :
  region_inv m r bs → allocs bs = [] →
  bs = [Block (r_addr r) (r_size r / 16) true] ∧ r_first r = r_addr r ∧
  m !!! r_addr r
    = Header (r_addr r) (r_addr r) (r_size r / 16) GRUB_MM_FREE_MAGIC.
Proof.
  intros [_ _ _ Ht Hna Hring Hfirst] Hnil.
  destruct bs as [|b1 [|b2 bs]].
  - simpl in Hfirst. by apply elem_of_nil in Hfirst.
  - pose proof (allocs_nil_free _ b1 Hnil ltac:(left)) as Hf1.
    simpl in Ht, Hring, Hfirst. rewrite Hf1 in *. simpl in *.
    destruct Ht as (Ha & ? & Hs & Hm & He). destruct Hring as (Hp & Hn & _).
    assert (b_size b1 = r_size r / 16) as Hsz
      by (apply Z.div_unique_exact; lia).
    rewrite Hfirst, Ha in *. split_and!; [|done|].
    + f_equal. apply block_eq; simpl; done.
    + apply header_ext; simpl; congruence.
  - pose proof (allocs_nil_free _ b1 Hnil ltac:(left)) as Hf1.
    pose proof (allocs_nil_free _ b2 Hnil ltac:(right; left)) as Hf2.
    destruct Hna as [Hna _]. by destruct Hna.
Qed.

Lemma live_nil_allocs bss bs : live bss = [] → bs ∈ bss → allocs bs = [].
Proof.
  intros Hnil Hbs. destruct (allocs bs) as [|x l] eqn:E; [done|].
  assert (x ∈ live bss) as Hx.
  { unfold live. apply elem_of_concat. exists (allocs bs). split.
    - rewrite E. left.
    - apply list_elem_of_fmap. by exists bs. }
  rewrite Hnil in Hx. by apply elem_of_nil in Hx.
Qed.

Lemma mm_inv_all_free m rs bss r :
  mm_inv m rs bss → live bss = [] → r ∈ rs →
  r_first r = r_addr r ∧
  m !!! r_addr r
    = Header (r_addr r) (r_addr r) (r_size r / 16) GRUB_MM_FREE_MAGIC.
Proof.
  intros Hinv Hnil (i & Hi)%list_elem_of_lookup.
  destruct (mm_inv_lookup _ _ _ _ _ Hinv Hi) as (bs & Hbs & Hr).
  destruct (region_inv_all_free _ _ _ Hr) as (_ & ? & ?); [|done].
  eapply live_nil_allocs; [done|]. by eapply list_elem_of_lookup_2.
Qed.

End all_free.

(** ** Sequences of requests *)

(** A client: allocations, and frees of pointers it was given.  [Free k]
    frees the pointer number [k] of those it still holds. *)
Inductive request :=
  | Alloc (align size : Z) (policy : nat)
  | Free (k : nat).

Section requests.

Variable grub_disk_cache_invalidate_all grub_dl_unload_unneeded :
  gmap Z grub_mm_header * list grub_mm_region →
  gmap Z grub_mm_header * list grub_mm_region.

Fixpoint run_requests (fuel : nat) (reqs : list request) (held : list Z)
    (st : mm_state) : outcome (list Z * mm_state) :=
  match reqs with
  | [] => Ok (held, st)
  | Alloc align size policy :: reqs' =>
      '(p, st) ← grub_memalign_policy grub_disk_cache_invalidate_all
                   grub_dl_unload_unneeded fuel align size policy st;
      run_requests fuel reqs' (held ++ [p]) st
  | Free k :: reqs' =>
      match held !! k with
      | Some p => st ← grub_free fuel p st; run_requests fuel reqs' (delete k held) st
      | None => run_requests fuel reqs' held st
      end
  end.

(** The hooks give the state back at rest, with the blocks in use that
    were in use. *)
Definition keeps_live
    (h : gmap Z grub_mm_header * list grub_mm_region →
         gmap Z grub_mm_header * list grub_mm_region) : Prop :=
  ∀ L, hook_keeps (λ m rs bss, mm_inv m rs bss ∧ live bss ≡ₚ L) h.

Definition request_ok (rq : request) : Prop :=
  match rq with
  | Alloc align _ _ => 0 ≤ align < 2 ^ 32
  | Free _ => True
  end.

(** The headers of the pointers held, null pointers left out. *)
Definition headers_of (held : list Z) : list Z :=
  (λ p, p - 16) <$> filter (λ p, p ≠ 0) held.

Hypothesis disk_keeps : keeps_live grub_disk_cache_invalidate_all.
Hypothesis dl_keeps : keeps_live grub_dl_unload_unneeded.

Lemma run_requests_spec fuel reqs : ∀ held st bss,
  Forall request_ok reqs →
  mm_inv (heap st) (base st) bss → live bss ≡ₚ headers_of held →
  (fuel_for (base st) ≤ fuel)%nat →
  ∃ held' st' bss',
    run_requests fuel reqs held st = Ok (held', st') ∧
    mm_inv (heap st') (base st') bss' ∧ live bss' ≡ₚ headers_of held' ∧
    static <$> base st' = static <$> base st.
Proof.
  induction reqs as [|[align size policy|k] reqs IH]; intros held st bss Hok Hinv Hlive Hfuel.
  - exists held, st, bss. by split_and!.
  - apply Forall_cons in Hok as [Hal Hok]. simpl in Hal.
    destruct (memalign_policy_spec _ _ _ (λ _ _ _ H, proj1 H)
                (disk_keeps (headers_of held)) (dl_keeps (headers_of held))
                st bss fuel align size policy (conj Hinv Hlive) Hfuel Hal)
      as (p & st1 & m0 & rs0 & bss0 & Hrun & (Hinv0 & Hlive0) & Hst0 & H).
    cbn -[grub_memalign_policy]. rewrite Hrun. cbn -[grub_memalign_policy].
    assert (∃ bss1, mm_inv (heap st1) (base st1) bss1 ∧
              live bss1 ≡ₚ headers_of (held ++ [p]) ∧
              static <$> base st1 = static <$> base st) as (bss1 & Hinv1 & Hlive1 & Hst1).
    { unfold headers_of. rewrite filter_app, fmap_app.
      destruct H as [(-> & -> & ->)|(Hp & _ & k & bss' & Hinv' & Hstep)].
      - exists bss0. rewrite filter_cons_False by (by intros ?). simpl.
        rewrite app_nil_r. by split_and!.
      - exists bss'. rewrite filter_cons_True by done. simpl.
        split_and!; [done| |by rewrite (alloc_step_static _ _ _ _ _ _ _ _ _ Hstep)].
        rewrite (alloc_step_live _ _ _ _ _ _ _ _ _ Hstep), Hlive0.
        unfold headers_of. by rewrite <- Permutation_cons_append. }
    destruct (IH (held ++ [p]) st1 bss1 Hok Hinv1 Hlive1)
      as (held' & st' & bss' & -> & ? & ? & ?);
      [by rewrite (fuel_for_static _ _ Hst1)|].
    exists held', st', bss'. split_and!; try done. congruence.
  - apply Forall_cons in Hok as [_ Hok]. cbn -[grub_free].
    destruct (held !! k) as [p|] eqn:Hk; [|by apply (IH held st bss)].
    assert (Hperm : held ≡ₚ p :: delete k held) by (by apply delete_Permutation).
    destruct (decide (p = 0)) as [->|Hp].
    + change (grub_free fuel 0 st) with (Ok st). cbn -[grub_free].
      apply (IH _ st bss); try done. rewrite Hlive. unfold headers_of.
      rewrite Hperm at 1. by rewrite filter_cons_False by (by intros ?).
    + assert (headers_of held ≡ₚ (p - 16) :: headers_of (delete k held)) as Hh.
      { unfold headers_of. rewrite Hperm at 1. by rewrite filter_cons_True by done. }
      assert (p - 16 ∈ live bss) as Hin by (rewrite Hlive, Hh; left).
      apply elem_of_live in Hin as (i & bs1 & n & bs2 & Hi).
      destruct (grub_free_held st bss fuel (Block (p - 16) n false) Hinv Hfuel)
        as (st1 & bss1 & Hrun & Hinv1 & Hst1 & _ & _ & Hlive1 & _).
      { split; [done|]. eexists. split; [by eapply list_elem_of_lookup_2|].
        apply elem_of_app. right. left. }
      simpl in Hrun, Hlive1. replace (p - 16 + 16) with p in Hrun by lia.
      rewrite Hrun. cbn -[grub_free].
      destruct (IH (delete k held) st1 bss1 Hok Hinv1)
        as (held' & st' & bss' & -> & ? & ? & ?).
      * apply (Permutation_cons_inv (a := p - 16)). by rewrite <- Hlive1, <- Hh.
      * by rewrite (fuel_for_static _ _ Hst1).
      * exists held', st', bss'. split_and!; try done. congruence.
Qed.

End requests.

Lemma idle_keeps_live : keeps_live idle.
Proof. intros L m rs bss H. simpl. eauto. Qed.

(** ** Bytes *)

Section bytes.
Implicit Types (m : gmap Z grub_mm_header) (c : grub_mm_header).

Lemma word_byte_range w i : 0 ≤ word_byte w i < 256.
Proof. unfold word_byte. apply Z.mod_pos_bound. lia. Qed.

Lemma word_bytes_sum w :
  word_byte w 0 + word_byte w 1 * 2 ^ 8 + word_byte w 2 * 2 ^ 16
    + w / 2 ^ 24 * 2 ^ 24 = w.
Proof.
  unfold word_byte. change (8 * 0) with 0. change (8 * 1) with 8.
  change (8 * 2) with 16. change (2 ^ 0) with 1. change (2 ^ 8) with 256.
  change (2 ^ 16) with 65536. change (2 ^ 24) with 16777216.
  rewrite Z.div_1_r.
  pose proof (Z.div_mod w 256 ltac:(lia)).
  pose proof (Z.div_mod (w / 256) 256 ltac:(lia)).
  pose proof (Z.div_mod (w / 256 / 256) 256 ltac:(lia)).
  rewrite !Z.div_div in * by lia.
  change (256 * 256) with 65536 in *. change (65536 * 256) with 16777216 in *.
  lia.
Qed.

(** The byte [i] of a word put together from four bytes. *)
Lemma word_byte_sum b0 b1 b2 b3 i :
  0 ≤ b0 < 256 → 0 ≤ b1 < 256 → 0 ≤ b2 < 256 → 0 ≤ i < 4 →
  word_byte (b0 + b1 * 2 ^ 8 + b2 * 2 ^ 16 + b3 * 2 ^ 24) i
    = if decide (i = 0) then b0 else if decide (i = 1) then b1
      else if decide (i = 2) then b2 else b3 mod 256.
Proof.
  intros ? ? ? ?. unfold word_byte.
  change (2 ^ 8) with 256. change (2 ^ 16) with 65536.
  change (2 ^ 24) with 16777216.
  assert (i = 0 ∨ i = 1 ∨ i = 2 ∨ i = 3) as [-> | [-> | [-> | ->]]] by lia;
    repeat case_decide; try lia.
  - change (2 ^ (8 * 0)) with 1. Z.div_mod_to_equations. lia.
  - change (2 ^ (8 * 1)) with 256. Z.div_mod_to_equations. lia.
  - change (2 ^ (8 * 2)) with 65536. Z.div_mod_to_equations. lia.
  - change (2 ^ (8 * 3)) with 16777216. Z.div_mod_to_equations. lia.
Qed.

Lemma word_byte_set_byte w i i' b :
  0 ≤ i < 4 → 0 ≤ i' < 4 →
  word_byte (word_set_byte w i b) i'
    = if decide (i' = i) then b mod 256 else word_byte w i'.
Proof.
  intros Hi Hi'. unfold word_set_byte.
  pose proof (word_byte_range w 0). pose proof (word_byte_range w 1).
  pose proof (word_byte_range w 2). pose proof (Z.mod_pos_bound b 256 ltac:(lia)).
  pose proof (word_bytes_sum w) as Hsum.
  assert (word_byte w 3 = (w / 2 ^ 24) mod 256) as H3 by done.
  pose proof (Z.div_mod (w / 2 ^ 24) 256 ltac:(lia)) as Hd.
  change (2 ^ 8) with 256 in *. change (2 ^ 16) with 65536 in *.
  change (2 ^ 24) with 16777216 in *.
  assert (i' = 0 ∨ i' = 1 ∨ i' = 2 ∨ i' = 3) as Hi'' by lia.
  assert (i = 0 ∨ i = 1 ∨ i = 2 ∨ i = 3) as [-> | [-> | [-> | ->]]] by lia.
  - change (2 ^ (8 * 0)) with 1.
    replace (w + _) with (b mod 256 + word_byte w 1 * 2 ^ 8
      + word_byte w 2 * 2 ^ 16 + w / 16777216 * 2 ^ 24)
      by (change (2 ^ 8) with 256; change (2 ^ 16) with 65536;
          change (2 ^ 24) with 16777216; lia).
    rewrite word_byte_sum by lia.
    destruct Hi'' as [-> | [-> | [-> | ->]]]; repeat case_decide; try lia; done.
  - change (2 ^ (8 * 1)) with 256.
    replace (w + _) with (word_byte w 0 + b mod 256 * 2 ^ 8
      + word_byte w 2 * 2 ^ 16 + w / 16777216 * 2 ^ 24)
      by (change (2 ^ 8) with 256; change (2 ^ 16) with 65536;
          change (2 ^ 24) with 16777216; lia).
    rewrite word_byte_sum by lia.
    destruct Hi'' as [-> | [-> | [-> | ->]]]; repeat case_decide; try lia; done.
  - change (2 ^ (8 * 2)) with 65536.
    replace (w + _) with (word_byte w 0 + word_byte w 1 * 2 ^ 8
      + b mod 256 * 2 ^ 16 + w / 16777216 * 2 ^ 24)
      by (change (2 ^ 8) with 256; change (2 ^ 16) with 65536;
          change (2 ^ 24) with 16777216; lia).
    rewrite word_byte_sum by lia.
    destruct Hi'' as [-> | [-> | [-> | ->]]]; repeat case_decide; try lia; done.
  - change (2 ^ (8 * 3)) with 16777216.
    replace (w + _) with (word_byte w 0 + word_byte w 1 * 2 ^ 8
      + word_byte w 2 * 2 ^ 16
      + (b mod 256 + w / 16777216 / 256 * 256) * 2 ^ 24)
      by (change (2 ^ 8) with 256; change (2 ^ 16) with 65536;
          change (2 ^ 24) with 16777216; lia).
    rewrite word_byte_sum by lia.
    destruct Hi'' as [-> | [-> | [-> | ->]]]; repeat case_decide; try lia; try done.
    rewrite Z.mod_add by lia. apply Z.mod_small. lia.
Qed.

End bytes.

Section cells.
Implicit Types (m : gmap Z grub_mm_header) (c : grub_mm_header).

Lemma cell_byte_range c j : 0 ≤ cell_byte c j < 256.
Proof. apply word_byte_range. Qed.

Lemma load8_range m a : 0 ≤ load8 m a < 256.
Proof. apply cell_byte_range. Qed.

Lemma byte_index j :
  0 ≤ j < 16 →
  0 ≤ j mod 4 < 4 ∧ j = 4 * (j / 4) + j mod 4 ∧
  (j / 4 = 0 ∨ j / 4 = 1 ∨ j / 4 = 2 ∨ j / 4 = 3).
Proof.
  intros. pose proof (Z.div_mod j 4 ltac:(lia)).
  pose proof (Z.mod_pos_bound j 4 ltac:(lia)). split_and!; [lia..|].
  assert (0 ≤ j / 4 < 4); [|lia].
  split; [apply Z.div_pos; lia|apply Z.div_lt_upper_bound; lia].
Qed.

Lemma cell_byte_set_byte c j j' b :
  0 ≤ j < 16 → 0 ≤ j' < 16 →
  cell_byte (cell_set_byte c j b) j'
    = if decide (j' = j) then b mod 256 else cell_byte c j'.
Proof.
  intros Hj Hj'. unfold cell_byte, cell_set_byte.
  destruct (byte_index j Hj) as (Hi & Ej & Hk).
  destruct (byte_index j' Hj') as (Hi' & Ej' & Hk').
  destruct Hk as [E | [E | [E | E]]], Hk' as [E' | [E' | [E' | E']]];
    rewrite E, E' in *; unfold cell_word, cell_set_word; simpl;
    rewrite ?word_byte_set_byte by done;
    repeat case_decide; try lia; done.
Qed.

Lemma cell_of_split a :
  a = cell_of a + a mod 16 ∧ 0 ≤ a mod 16 < 16.
Proof.
  unfold cell_of. rewrite GRUB_MM_ALIGN_16.
  pose proof (Z.mod_pos_bound a 16 ltac:(lia)). lia.
Qed.

Lemma load8_store8 m a a' b :
  load8 (store8 a b m) a' = if decide (a' = a) then b mod 256 else load8 m a'.
Proof.
  unfold load8, store8. rewrite GRUB_MM_ALIGN_16.
  destruct (cell_of_split a) as (Ea & Ha). destruct (cell_of_split a') as (Ea' & Ha').
  destruct (decide (cell_of a' = cell_of a)) as [E|E].
  - rewrite E, lookup_total_insert_eq, cell_byte_set_byte by done.
    repeat case_decide; try lia; done.
  - rewrite lookup_total_insert_ne by done. case_decide; [congruence|done].
Qed.

Lemma lookup_store8_ne m a b x : x ≠ cell_of a → store8 a b m !!! x = m !!! x.
Proof. intros. unfold store8. by rewrite lookup_total_insert_ne. Qed.

(** [grub_memcpy], byte by byte. *)
Lemma load8_copy_bytes n m0 dst src m a :
  0 ≤ dst → dst + Z.of_nat n ≤ 2 ^ 32 →
  load8 (copy_bytes n m0 dst src m) a
    = if decide (dst ≤ a < dst + Z.of_nat n)
      then load8 m0 (word (src + (a - dst))) else load8 m a.
Proof.
  intros Hd. induction n as [|n IH]; intros Hn; simpl copy_bytes.
  - case_decide; [lia|done].
  - rewrite load8_store8, word_small by lia. rewrite IH by lia.
    repeat case_decide; try lia; subst; try done.
    replace (dst + Z.of_nat n - dst) with (Z.of_nat n) by lia.
    apply Z.mod_small, load8_range.
Qed.

Lemma lookup_copy_bytes_ne n m0 dst src m x :
  0 ≤ dst → dst mod 16 = 0 → dst + Z.of_nat n ≤ 2 ^ 32 →
  ¬ (dst ≤ x < dst + Z.of_nat n) →
  copy_bytes n m0 dst src m !!! x = m !!! x.
Proof.
  intros Hd Hal. induction n as [|n IH]; intros Hn Hx; simpl copy_bytes; [done|].
  rewrite lookup_store8_ne; [apply IH; lia|].
  rewrite word_small by lia. destruct (cell_of_split (dst + Z.of_nat n)) as (E & ?).
  pose proof (Z.div_mod (dst + Z.of_nat n) 16 ltac:(lia)).
  pose proof (Z.div_mod dst 16 ltac:(lia)).
  pose proof (Z.div_le_mono dst (dst + Z.of_nat n) 16 ltac:(lia) ltac:(lia)). lia.
Qed.

(** [grub_memset] with the value zero. *)
Lemma lookup_memset m dst n a :
  grub_memset_zero m dst n !!! a = clear_cell dst n a (m !!! a).
Proof.
  unfold grub_memset_zero. rewrite !lookup_total_alt, map_lookup_imap.
  destruct (m !! a) as [c|]; simpl; [done|].
  assert (∀ x, clear_word dst n x 0 = 0) as E.
  { intros x. unfold clear_word.
    by destruct (in_span dst n x), (in_span dst n (x + 1)),
      (in_span dst n (x + 2)), (in_span dst n (x + 3)). }
  unfold clear_cell. simpl. by rewrite !E.
Qed.

Lemma clear_word_out dst n a w :
  in_span dst n a = false → in_span dst n (a + 1) = false →
  in_span dst n (a + 2) = false → in_span dst n (a + 3) = false →
  clear_word dst n a w = w.
Proof. unfold clear_word. intros -> -> -> ->. apply word_bytes_sum. Qed.

Lemma clear_cell_out dst n a c :
  (∀ k, 0 ≤ k < 16 → in_span dst n (a + k) = false) → clear_cell dst n a c = c.
Proof.
  intros H. unfold clear_cell.
  pose proof (H 0 ltac:(lia)) as H0. rewrite Z.add_0_r in H0.
  rewrite !clear_word_out; rewrite <- ?Z.add_assoc; simpl; try (apply H; lia);
    try done. by destruct c.
Qed.

Lemma in_span_out dst n x :
  16 ≤ dst → 0 ≤ n → dst + n < 2 ^ 32 → 0 ≤ x < 2 ^ 32 + 16 →
  x < dst ∨ dst + n ≤ x → in_span dst n x = false.
Proof.
  intros ? ? ? ? Hx. unfold in_span. apply Z.ltb_ge. unfold word.
  destruct (decide (x < dst)).
  - replace ((x - dst) mod 2 ^ 32) with (x - dst + 2 ^ 32); [lia|].
    apply Z.mod_unique with (-1); lia.
  - rewrite Z.mod_small by lia. lia.
Qed.

Lemma memset_frame m dst n a :
  16 ≤ dst → 0 ≤ n → dst + n < 2 ^ 32 → 0 ≤ a < 2 ^ 32 →
  a + 15 < dst ∨ dst + n ≤ a →
  grub_memset_zero m dst n !!! a = m !!! a.
Proof.
  intros. rewrite lookup_memset. apply clear_cell_out.
  intros k ?. apply in_span_out; lia.
Qed.

Lemma word_byte_clear_word dst n a w i :
  0 ≤ i < 4 → in_span dst n (a + i) = true →
  word_byte (clear_word dst n a w) i = 0.
Proof.
  intros Hi Hin. unfold clear_word.
  pose proof (word_byte_range w 0). pose proof (word_byte_range w 1).
  pose proof (word_byte_range w 2).
  rewrite word_byte_sum;
    [|destruct (in_span dst n a); lia|destruct (in_span dst n (a + 1)); lia
     |destruct (in_span dst n (a + 2)); lia|done].
  assert (i = 0 ∨ i = 1 ∨ i = 2 ∨ i = 3) as [-> | [-> | [-> | ->]]] by lia;
    rewrite ?Z.add_0_r in Hin; repeat case_decide; try lia; by rewrite Hin.
Qed.

Lemma cell_byte_clear_cell dst n a c j :
  0 ≤ j < 16 → in_span dst n (a + j) = true →
  cell_byte (clear_cell dst n a c) j = 0.
Proof.
  intros Hj Hin. unfold cell_byte, clear_cell.
  destruct (byte_index j Hj) as (Hi & Ej & Hk). rewrite Ej in Hin.
  destruct Hk as [E | [E | [E | E]]]; rewrite E in *; unfold cell_word; simpl;
    (apply word_byte_clear_word; [done|rewrite <- Hin; f_equal; lia]).
Qed.

(** The bytes [grub_memset] clears read zero. *)
Lemma load8_memset m dst n j :
  dst mod 16 = 0 → 0 ≤ dst → 0 ≤ j < n → dst + j < 2 ^ 32 →
  load8 (grub_memset_zero m dst n) (dst + j) = 0.
Proof.
  intros Hal ? ? ?. unfold load8. rewrite lookup_memset, GRUB_MM_ALIGN_16.
  destruct (cell_of_split (dst + j)) as (E & ?).
  apply cell_byte_clear_cell; [done|]. rewrite <- E.
  unfold in_span. apply Z.ltb_lt.
  replace (dst + j - dst) with j by lia. rewrite word_small by lia. lia.
Qed.

End cells.

(** ** Stores into the payload of a block *)

Global Instance block_eq_dec : EqDecision block.
Proof. solve_decision. Defined.

Section payload.
Implicit Types (m : gmap Z grub_mm_header) (rs : list grub_mm_region)
  (bss : list (list block)) (r : grub_mm_region) (bs : list block) (b : block).

Lemma tiling_frame_headers m m' a e bs :
  (∀ b, b ∈ bs → m' !!! b_addr b = m !!! b_addr b) →
  tiling m a e bs → tiling m' a e bs.
Proof.
  revert a. induction bs as [|b bs IH]; [done|].
  intros a Hf (<- & ? & Hs & Hm & Ht). simpl.
  rewrite (Hf b) by left. split_and!; [done..|].
  apply IH; [|done]. intros b' ?. apply Hf. by right.
Qed.

Lemma region_inv_frame_headers m m' r bs :
  (∀ b, b ∈ bs → m' !!! b_addr b = m !!! b_addr b) →
  region_inv m r bs → region_inv m' r bs.
Proof.
  intros Hf [Hlo Hhi Hal Ht Hna Hr Hfi]. constructor; try done.
  - by eapply tiling_frame_headers.
  - eapply ring_frame; [| |done]; intros a (b & Hb & <- & _)%elem_of_frees;
      by rewrite Hf.
Qed.

(** Stores strictly inside the block [c], behind its header, leave the
    state at rest and the other blocks alone. *)
Lemma payload_write_inv m m' rs bss c :
  mm_inv m rs bss → held_block bss c →
  (∀ a, 0 ≤ a < 2 ^ 32 → ¬ (b_addr c < a < b_addr c + 16 * b_size c) →
        m' !!! a = m !!! a) →
  mm_inv m' rs bss ∧
  (m' !!! b_addr c = m !!! b_addr c) ∧
  ∀ b' a, held_block bss b' → b' ≠ c → in_block b' a → m' !!! a = m !!! a.
Proof.
  intros Hinv Hc Hfoot. pose proof Hinv as (HF & Hsep & Hend).
  pose proof Hc as (_ & bsc & (k & Hk)%list_elem_of_lookup & Hcin).
  destruct (mm_inv_lookup_r _ _ _ _ _ Hinv Hk) as (rk & Hrk & Hregk).
  pose proof Hregk as [Hlok Hhik _ Htk _ _ _].
  destruct (tiling_block _ _ _ _ _ Htk Hcin) as (Hc1 & Hc2 & Hc3 & _).
  assert (Hblock : ∀ i bs b a, bss !! i = Some bs → b ∈ bs → in_block b a →
            b ≠ c → m' !!! a = m !!! a).
  { intros i bs b a Hi Hb Ha Hne.
    destruct (mm_inv_lookup_r _ _ _ _ _ Hinv Hi) as (r & Hr & Hreg).
    pose proof (region_inv_block _ _ _ _ _ Hreg Hb Ha). destruct Hreg as [? ? _ _ _ _ _].
    apply Hfoot; [lia|]. intros Hin.
    destruct (mm_inv_disjoint _ _ _ _ _ _ _ _ _ a Hinv Hi Hk Hb Hcin Ha); [|done].
    unfold in_block. lia. }
  assert (Hhdr : ∀ i bs b, bss !! i = Some bs → b ∈ bs →
            m' !!! b_addr b = m !!! b_addr b).
  { intros i bs b Hi Hb.
    destruct (mm_inv_lookup_r _ _ _ _ _ Hinv Hi) as (r & Hr & Hreg).
    pose proof Hreg as [? ? _ Ht _ _ _].
    destruct (tiling_block _ _ _ _ _ Ht Hb) as (? & ? & ? & _).
    destruct (decide (b = c)) as [->|Hne].
    - apply Hfoot; lia.
    - eapply Hblock; [done|done|by apply in_block_self|done]. }
  split_and!.
  - split_and!; [|done|].
    + apply Forall2_same_length_lookup. split; [by eapply Forall2_length|].
      intros i r bs Hi Hbs. pose proof (Forall2_lookup_lr _ _ _ _ _ _ HF Hi Hbs).
      eapply region_inv_frame_headers; [|done]. intros b Hb. by eapply Hhdr.
    + intros r (j & Hj)%list_elem_of_lookup. rewrite Hfoot; [by apply Hend; eapply list_elem_of_lookup_2| |].
      * destruct (mm_inv_lookup _ _ _ _ _ Hinv Hj) as (bsj & _ & [? ? _ Ht%tiling_le _ _ _]).
        lia.
      * destruct (decide (j = k)) as [->|Hjk].
        { rewrite Hrk in Hj. injection Hj as <-. lia. }
        destruct (mm_inv_lookup _ _ _ _ _ Hinv Hj) as (bsj & _ & [? ? _ Ht%tiling_le _ _ _]).
        destruct (Hsep j k r rk Hj Hrk Hjk); lia.
  - by eapply Hhdr.
  - intros b' a (_ & bs' & (i & Hi)%list_elem_of_lookup & Hb') Hne Ha.
    by eapply Hblock.
Qed.

End payload.

Lemma cells_for_fits size :
  0 ≤ size ≤ 2 ^ 32 - 16 →
  size ≤ 16 * (cells_for size - 1) < size + 16.
Proof.
  intros. rewrite cells_for_eq, (word_small (size + 15)) by lia.
  pose proof (Z.div_mod (size + 15) 16 ltac:(lia)).
  pose proof (Z.mod_pos_bound (size + 15) 16 ltac:(lia)).
  rewrite word_small by lia. lia.
Qed.



(** ** Growing a block in place *)

Section grow.
Implicit Types (m : gmap Z grub_mm_header) (r : grub_mm_region)
  (bs : list block) (b : block).

(** The stores of [grub_rememalign_policy] when the block behind [p] is
    free and large enough: [n] cells for [p], the rest stays free. *)
Definition grow_in_place (p n : Z) (first : Z) (m : gmap Z grub_mm_header)
    : gmap Z grub_mm_header * Z :=
  let p2 := hdr_add p (h_size (m !!! p)) in
  let m := split_chunk p2 (word (n - h_size (m !!! p))) m in
  let m := set_prev (h_next (m !!! p2)) (h_prev (m !!! p2)) m in
  let m := set_next (h_prev (m !!! p2)) (h_next (m !!! p2)) m in
  let first := if first =? p2 then h_next (m !!! p2) else first in
  let first := if first =? p2 then p else first in
  (set_size p n m, first).

Lemma grow_in_place_spec m r bs1 p s1 k bs2 n :
  region_inv m r (bs1 ++ [Block p s1 false; Block (p + 16 * s1) k true] ++ bs2) →
  s1 < n ≤ s1 + k →
  let rest :=
    if decide (n < s1 + k) then [Block (p + 16 * n) (s1 + k - n) true] else [] in
  ∃ m' first',
    grow_in_place p n (r_first r) m = (m', first') ∧
    region_inv m' (with_first first' r) (bs1 ++ Block p n false :: rest ++ bs2) ∧
    (∀ a, a ≠ p → ¬ (p + 16 * s1 ≤ a < p + 16 * s1 + 16 * k) →
          a ∉ frees (bs1 ++ [Block p s1 false; Block (p + 16 * s1) k true] ++ bs2) →
          m' !!! a = m !!! a).
Proof.
  intros [Hlo Hhi Hal Ht Hna Hr Hf] Hn rest.
  pose proof Ht as Ht0.
  apply (tiling_focus _ _ _ bs1 (Block p s1 false)) in Ht0
    as (_ & ? & ? & Hsz & _ & Ht2 & _). simpl in *.
  destruct Ht2 as (_ & ? & Hsz2 & _ & Ht2). pose proof (tiling_le _ _ _ _ Ht2).
  unfold grow_in_place. rewrite Hsz. rewrite hdr_add_small, (word_small (n - s1)) by lia.
  set (p2 := p + 16 * s1) in *. set (w := n - s1).
  destruct (split_stage m (r_addr r) (r_addr r + r_size r)
              (bs1 ++ [Block p s1 false]) p2 k bs2 w) as (Ht' & Hr' & Hfs);
    [done|done|by rewrite <- app_assoc|by rewrite <- app_assoc|lia|].
  fold p2 in Hfs. set (m0 := split_chunk p2 w m) in *.
  set (post := if decide (w < k) then [Block (p2 + 16 * w) (k - w) true] else []) in *.
  assert (Hpost : post = rest).
  { unfold post, rest, w, p2. repeat case_decide; try lia; [|done].
    do 2 f_equal; lia. }
  rewrite <- app_assoc in Ht', Hr'. simpl in Ht', Hr'.
  destruct (grow_spec m0 (r_addr r) (r_addr r + r_size r) bs1 p s1 p2 w (post ++ bs2))
    as (Ht3 & Hr3 & Hfg); [done|done|done|done|].
  cbv zeta in Ht3, Hr3, Hfg.
  replace (s1 + w) with n in * by (unfold w; lia).
  set (m1 := set_prev (h_next (m0 !!! p2)) (h_prev (m0 !!! p2)) m0) in *.
  set (m2 := set_next (h_prev (m1 !!! p2)) (h_next (m1 !!! p2)) m1) in *.
  assert (Hnx : h_next (m2 !!! p2) = h_next (m0 !!! p2)).
  { unfold m2, m1. fields. by repeat case_decide. }
  rewrite Hnx. eexists _, _. split; [done|].
  rewrite !frees_app in Hr', Hf, Hr3. simpl in Hr', Hf, Hr3.
  rewrite !frees_app in Hr'. rewrite frees_app in Hr3.
  pose proof (ring_next m0 (frees bs1) p2 (frees post ++ frees bs2) Hr') as Hn2.
  pose proof (tiling_frees_NoDup _ _ _ _ Ht') as Hnd.
  rewrite !frees_app in Hnd. simpl in Hnd. rewrite frees_app in Hnd.
  rewrite <- Hpost. split_and!.
  - constructor; simpl; try done.
    + apply no_adj_app in Hna as (Ha1 & (Ha2 & Ha4)%no_adj_cons & Ha3).
      apply no_adj_cons in Ha4 as (Ha4 & Ha5). simpl in Ha2, Ha3, Ha4.
      apply no_adj_app. split_and!; [done| |simpl; intuition congruence].
      apply no_adj_cons. split; [simpl; intuition congruence|].
      unfold post. case_decide; simpl app; [|done].
      apply no_adj_cons. split; [|done]. simpl. intuition congruence.
    + rewrite frees_app. simpl. by rewrite frees_app.
    + rewrite frees_app. simpl. rewrite frees_app.
      destruct (frees bs1) as [|f F1] eqn:EF1; simpl in *.
      * rewrite Hf, Z.eqb_refl, Hn2.
        destruct (frees post ++ frees bs2) as [|g F2] eqn:EF2; simpl.
        -- rewrite Z.eqb_refl. rewrite allocs_app. simpl.
           rewrite elem_of_app, elem_of_cons. auto.
        -- rewrite (proj2 (Z.eqb_neq g p2)); [done|].
           apply NoDup_cons in Hnd as [Hnd _]. intros ->. apply Hnd. left.
      * rewrite Hf. assert (f ≠ p2) as Hne.
        { apply NoDup_cons in Hnd as [Hnd _]. intros ->. apply Hnd.
          rewrite elem_of_app, elem_of_cons. auto. }
        by rewrite !(proj2 (Z.eqb_neq f p2)).
  - intros a Hap Hspan Hfree. rewrite frees_app in Hfree. simpl in Hfree.
    assert (Hin : ∀ x, x ∈ frees bs1 ++ p2 :: frees post ++ frees bs2 →
              x ≠ a) .
    { intros x Hx ->. rewrite !elem_of_app, elem_of_cons, elem_of_app in Hx.
      rewrite !elem_of_app, elem_of_cons in Hfree.
      destruct Hx as [?|[->|[Hx|?]]]; [tauto|lia| |tauto].
      unfold post in Hx. case_decide; [|by apply elem_of_nil in Hx].
      apply elem_of_cons in Hx as [->|Hx%elem_of_nil]; [|done]. simpl in *.
      unfold w in *. lia. }
    assert (m0 !!! a = m !!! a) as E0.
    { apply Hfs; [lia|]. intros E. apply Hfree. rewrite E.
      eapply (ring_next_elem_of m); [by rewrite frees_app in Hr|].
      rewrite elem_of_app, elem_of_cons. auto. }
    rewrite <- E0. apply Hfg; [done| |].
    + intros E. apply (Hin a); [|done]. rewrite E.
      eapply (ring_prev_elem_of m0); [exact Hr'|].
      rewrite elem_of_app, elem_of_cons. auto.
    + intros E. apply (Hin a); [|done]. rewrite E.
      eapply (ring_next_elem_of m0); [exact Hr'|].
      rewrite elem_of_app, elem_of_cons. auto.
Qed.

End grow.

(** ** Resizing *)

Lemma load8_ext m m' a :
  m' !!! cell_of a = m !!! cell_of a → load8 m' a = load8 m a.
Proof. unfold load8. by intros ->. Qed.

Lemma cell_of_range x j :
  x mod 16 = 0 → 0 ≤ j → x ≤ cell_of (x + j) ≤ x + j ∧ x + j < cell_of (x + j) + 16.
Proof.
  intros Hx Hj. destruct (cell_of_split (x + j)) as (E & ?).
  pose proof (Z.div_mod (x + j) 16 ltac:(lia)).
  pose proof (Z.div_mod x 16 ltac:(lia)).
  pose proof (Z.div_le_mono x (x + j) 16 ltac:(lia) ltac:(lia)). lia.
Qed.

Lemma cells_for_two size :
  0 ≤ size < 2 ^ 32 → 2 ≤ cells_for size → size ≤ 2 ^ 32 - 16.
Proof.
  intros Hs Hn. destruct (decide (size ≤ 2 ^ 32 - 16)); [done|].
  rewrite cells_for_wrap in Hn by lia. lia.
Qed.

Lemma tag_free b : tag b = GRUB_MM_FREE_MAGIC → b = true.
Proof. by destruct b. Qed.

Section resize_spec.

Variable grub_disk_cache_invalidate_all grub_dl_unload_unneeded :
  gmap Z grub_mm_header * list grub_mm_region →
  gmap Z grub_mm_header * list grub_mm_region.

(** The branch of [grub_rememalign_policy] that extends the block. *)
Lemma rememalign_in_place_eq fuel ptr align size policy st p i r :
  ptr ≠ 0 → size ≠ 0 →
  get_header_from_pointer (heap st) (base st) ptr = Ok (p, i, r) →
  ¬ (cells_for size ≤ h_size (heap st !!! p)) →
  let p2 := hdr_add p (h_size (heap st !!! p)) in
  h_magic (heap st !!! p2) = GRUB_MM_FREE_MAGIC →
  (p2 <? word (r_addr r + word (Z.shiftl (r_size r) GRUB_MM_ALIGN_LOG2))) = true →
  cells_for size ≤ word (h_size (heap st !!! p) + h_size (heap st !!! p2)) →
  grub_rememalign_policy grub_disk_cache_invalidate_all grub_dl_unload_unneeded
    fuel ptr align size policy st
  = Ok (ptr, with_mem (grow_in_place p (cells_for size) (r_first r) (heap st)).1
               (<[i := with_first
                   (grow_in_place p (cells_for size) (r_first r) (heap st)).2 r]>
                  (base st)) st).
Proof.
  intros Hptr Hsize Hget Hn p2 Hm Hb Hfit. unfold grub_rememalign_policy.
  rewrite (proj2 (Z.eqb_neq ptr 0)), (proj2 (Z.eqb_neq size 0)) by done.
  rewrite Hget. cbn -[grub_memalign_policy grub_free split_chunk].
  rewrite (proj2 (Z.leb_gt _ _)) by lia. fold p2.
  rewrite Hb, Hm, Z.eqb_refl, (proj2 (Z.leb_le _ _) Hfit). reflexivity.
Qed.

(** The branch that moves the block. *)
Lemma rememalign_move_eq fuel ptr align size policy st p i r :
  ptr ≠ 0 → size ≠ 0 →
  get_header_from_pointer (heap st) (base st) ptr = Ok (p, i, r) →
  ¬ (cells_for size ≤ h_size (heap st !!! p)) →
  let p2 := hdr_add p (h_size (heap st !!! p)) in
  (h_magic (heap st !!! p2) ≠ GRUB_MM_FREE_MAGIC ∨
   (p2 <? word (r_addr r + word (Z.shiftl (r_size r) GRUB_MM_ALIGN_LOG2))) = false ∨
   ¬ (cells_for size ≤ word (h_size (heap st !!! p) + h_size (heap st !!! p2)))) →
  grub_rememalign_policy grub_disk_cache_invalidate_all grub_dl_unload_unneeded
    fuel ptr align size policy st
  = ('(q, st) ← grub_memalign_policy grub_disk_cache_invalidate_all
                  grub_dl_unload_unneeded fuel align size policy st;
     if q =? 0 then Ok (q, st)
     else
       st ← grub_free fuel ptr (with_heap (grub_memcpy (heap st) q ptr size) st);
       Ok (q, st)).
Proof.
  intros Hptr Hsize Hget Hn p2 Hno. unfold grub_rememalign_policy.
  rewrite (proj2 (Z.eqb_neq ptr 0)), (proj2 (Z.eqb_neq size 0)) by done.
  rewrite Hget. cbn -[grub_memalign_policy grub_free split_chunk grub_memcpy].
  rewrite (proj2 (Z.leb_gt _ _)) by lia. fold p2.
  assert ((p2 <? word (r_addr r + word (Z.shiftl (r_size r) GRUB_MM_ALIGN_LOG2)))
          && (h_magic (heap st !!! p2) =? GRUB_MM_FREE_MAGIC)
          && (cells_for size <=? word (h_size (heap st !!! p) + h_size (heap st !!! p2)))
          = false) as ->; [|done].
  destruct Hno as [H|[H|H]].
  - rewrite (proj2 (Z.eqb_neq _ _) H). by rewrite andb_false_r.
  - by rewrite H.
  - rewrite (proj2 (Z.leb_gt _ _)) by lia. by rewrite andb_false_r.
Qed.

End resize_spec.

Section resize_sound.

Variable grub_disk_cache_invalidate_all grub_dl_unload_unneeded :
  gmap Z grub_mm_header * list grub_mm_region →
  gmap Z grub_mm_header * list grub_mm_region.

Implicit Types (m : gmap Z grub_mm_header) (rs : list grub_mm_region)
  (bss : list (list block)) (r : grub_mm_region) (bs : list block) (b : block).

(** What the caller has after [grub_rememalign_policy] on the pointer of
    the block [b] of the state [st0]. *)
Definition resized (st0 : mm_state) (b : block) (size q : Z) (st' : mm_state)
    (bss' : list (list block)) : Prop :=
  mm_inv (heap st') (base st') bss' ∧
  static <$> base st' = static <$> base st0 ∧
  (q = 0 → held_block bss' b ∧
           ∀ a, in_block b a → heap st' !!! a = heap st0 !!! a) ∧
  (q ≠ 0 → ∃ n, cells_for size ≤ n ∧ held_block bss' (Block (q - 16) n false) ∧
           ∀ j, 0 ≤ j < size → j < 16 * (b_size b - 1) →
                load8 (heap st') (q + j) = load8 (heap st0) (b_addr b + 16 + j)).

(** The block is large enough: nothing happens. *)
Lemma rememalign_keep st bss b fuel align size policy :
  mm_inv (heap st) (base st) bss → held_block bss b → size ≠ 0 →
  cells_for size ≤ b_size b →
  grub_rememalign_policy grub_disk_cache_invalidate_all grub_dl_unload_unneeded
    fuel (b_addr b + 16) align size policy st = Ok (b_addr b + 16, st).
Proof.
  intros Hinv Hb Hsize Hn.
  destruct (held_block_header _ _ _ _ Hinv Hb)
    as (_ & _ & _ & Hs & i & r & bs & Hi & _ & _ & Hlo & _ & Hget).
  destruct (mm_inv_lookup _ _ _ _ _ Hinv Hi) as (? & _ & [? _ _ _ _ _ _]).
  unfold grub_rememalign_policy.
  rewrite (proj2 (Z.eqb_neq (b_addr b + 16) 0)), (proj2 (Z.eqb_neq size 0)) by lia.
  rewrite Hget. cbn -[grub_memalign_policy grub_free split_chunk].
  by rewrite Hs, (proj2 (Z.leb_le _ _) Hn).
Qed.

(** An allocated block whose successor cell carries the free magic is
    followed, inside its region, by a free block. *)
Lemma next_free_block m rs bss b i r bs :
  mm_inv m rs bss → held_block bss b →
  rs !! i = Some r → bss !! i = Some bs → b ∈ bs →
  h_magic (m !!! (b_addr b + 16 * b_size b)) = GRUB_MM_FREE_MAGIC →
  ∃ bs1 k bs2,
    bs = bs1 ++ [Block (b_addr b) (b_size b) false;
                 Block (b_addr b + 16 * b_size b) k true] ++ bs2 ∧
    h_size (m !!! (b_addr b + 16 * b_size b)) = k ∧ 1 ≤ k ∧
    b_addr b + 16 * b_size b + 16 * k ≤ r_addr r + r_size r.
Proof.
  intros Hinv Hb Hi Hbs Hbin Hm.
  destruct (mm_inv_lookup _ _ _ _ _ Hinv Hi) as (bs' & Hbs' & Hreg).
  rewrite Hbs in Hbs'. injection Hbs' as <-.
  destruct Hreg as [_ _ _ Ht _ _ _].
  assert (Hbeq : b = Block (b_addr b) (b_size b) false)
    by (destruct Hb as [Hf _]; by apply block_eq).
  apply list_elem_of_split in Hbin as (bs1 & bs2 & ->).
  destruct (tiling_focus _ _ _ _ _ _ Ht) as (_ & _ & _ & _ & _ & Ht2 & _).
  destruct bs2 as [|b2 bs2].
  { simpl in Ht2. destruct Hinv as (_ & _ & Hend).
    destruct (Hend r); [by eapply list_elem_of_lookup_2|]. by rewrite <- Ht2. }
  destruct Ht2 as (Ha2 & ? & Hsz2 & Hm2 & Ht2). rewrite Hm in Hm2.
  symmetry in Hm2. apply tag_free in Hm2.
  assert (Hb2eq : b2 = Block (b_addr b + 16 * b_size b) (b_size b2) true)
    by (apply block_eq; simpl; congruence).
  pose proof (tiling_le _ _ _ _ Ht2).
  exists bs1, (b_size b2), bs2.
  split_and!; [by rewrite <- Hbeq, <- Hb2eq|done|lia|lia].
Qed.

(** The free block behind [b] is large enough: the block grows where it is,
    whatever the alignment asked for, and no hook is called. *)
Lemma rememalign_grow st bss b fuel align size policy i r bs :
  mm_inv (heap st) (base st) bss → held_block bss b → 0 < size < 2 ^ 32 →
  base st !! i = Some r → bss !! i = Some bs → b ∈ bs →
  get_header_from_pointer (heap st) (base st) (b_addr b + 16) = Ok (b_addr b, i, r) →
  ¬ cells_for size ≤ b_size b →
  let p2 := b_addr b + 16 * b_size b in
  h_magic (heap st !!! p2) = GRUB_MM_FREE_MAGIC →
  (p2 <? word (r_addr r + word (Z.shiftl (r_size r) GRUB_MM_ALIGN_LOG2))) = true →
  cells_for size ≤ b_size b + h_size (heap st !!! p2) →
  ∃ st' bss',
    grub_rememalign_policy grub_disk_cache_invalidate_all grub_dl_unload_unneeded
      fuel (b_addr b + 16) align size policy st = Ok (b_addr b + 16, st') ∧
    mm_inv (heap st') (base st') bss' ∧
    static <$> base st' = static <$> base st ∧
    grub_errno st' = grub_errno st ∧ calls st' = calls st ∧
    held_block bss' (Block (b_addr b) (cells_for size) false) ∧
    (∀ a, in_block b a → a ≠ b_addr b → heap st' !!! a = heap st !!! a) ∧
    (∀ b', held_block bss b' → b' ≠ b →
       held_block bss' b' ∧ ∀ a, in_block b' a → heap st' !!! a = heap st !!! a).
Proof.
  intros Hinv Hb Hsize Hi Hbs Hbin Hget Hbig p2 Hm Hbd Hfit.
  destruct (held_block_header _ _ _ _ Hinv Hb) as (Hpal & Hs1 & Hmg & Hsz & _).
  destruct (mm_inv_lookup _ _ _ _ _ Hinv Hi) as (bs' & Hbs' & Hreg).
  rewrite Hbs in Hbs'. injection Hbs' as <-.
  pose proof Hreg as [Hrlo Hrhi _ Ht _ _ _].
  destruct (next_free_block _ _ _ _ _ _ _ Hinv Hb Hi Hbs Hbin Hm)
    as (bs1 & k & bs2 & -> & Hsz2 & Hk & Hhi2).
  fold p2 in Hsz2, Hhi2. rewrite Hsz2 in Hfit.
  destruct (tiling_focus _ _ _ _ _ _ Ht) as (_ & Hlo & _). simpl in Hlo.
  assert (Hp2 : hdr_add (b_addr b) (h_size (heap st !!! b_addr b)) = p2)
    by (unfold p2; rewrite Hsz, hdr_add_small by lia; done).
  destruct (grow_in_place_spec (heap st) r bs1 (b_addr b) (b_size b) k
              bs2 (cells_for size) Hreg) as (m' & first' & Hgrow & Hreg' & Hfoot);
    [lia|].
  assert (b_addr b + 16 ≠ 0) as Hptr by lia. assert (size ≠ 0) as Hsize0 by lia.
  rewrite (rememalign_in_place_eq _ _ fuel (b_addr b + 16) align size policy st
             (b_addr b) i r Hptr Hsize0 Hget);
    [|by rewrite Hsz|by rewrite Hp2|by rewrite Hp2|
     rewrite Hp2, Hsz, Hsz2, word_small by lia; lia].
  rewrite Hgrow. simpl.
  match type of Hreg' with region_inv _ _ ?l => set (nb := l) in * end.
  assert (Hfree2 : ∀ b' a, held_block bss b' → b' ≠ b → in_block b' a →
            a ≠ b_addr b ∧ ¬ (p2 ≤ a < p2 + 16 * k) ∧
            a ∉ frees (bs1 ++ [Block (b_addr b) (b_size b) false;
                               Block (b_addr b + 16 * b_size b) k true] ++ bs2)).
  { intros b' a Hb' Hne Ha.
    destruct (held_block_apart (heap st) (base st) bss b' a i _ b Hinv Hb' Ha Hbs Hbin)
      as (Hn1 & Hnf); [done|].
    destruct (held_block_apart (heap st) (base st) bss b' a i _
                (Block p2 k true) Hinv Hb' Ha Hbs) as (Hn2 & _).
    { apply elem_of_app. right. right. left. }
    { intros E. rewrite <- E in Hb'. by destruct Hb'. }
    unfold in_block in Hn1, Hn2. simpl in Hn2. split_and!; [|done|done].
    intros ->. apply Hn1. lia. }
  eexists _, (<[i := nb]> bss). split; [done|]. simpl.
  split_and!; [|by apply static_insert|done|done| | |].
  - apply (mm_inv_update (heap st) m' (base st) bss i r nb first');
      [done|done|exact Hreg'|]. intros a Ha.
    apply Hfoot; [lia|fold p2; lia|]. intros Hin.
    destruct (tiling_frees _ _ _ _ a Ht Hin) as (? & _). lia.
  - split; [done|]. eexists. split.
    + apply list_elem_of_lookup. exists i. apply list_lookup_insert_eq.
      by eapply lookup_lt_Some.
    + apply elem_of_app. right. left.
  - intros a Ha Hne. apply Hfoot; [done|fold p2; unfold in_block in Ha; lia|].
    intros Hin. destruct (elem_of_frees_block _ _ _ _ _ Ht Hin) as (c & Hc & Hfc & _ & Hca).
    destruct (tiling_disjoint _ _ _ _ _ _ _ Ht Hc Hbin Hca Ha).
    destruct Hb. congruence.
  - intros b' Hb' Hne. split.
    + destruct Hb' as (Hf' & bs' & (j & Hj)%list_elem_of_lookup & Hb'in).
      split; [done|]. destruct (decide (j = i)) as [->|Hji].
      * exists nb. split.
        { apply list_elem_of_lookup. exists i. apply list_lookup_insert_eq.
          by eapply lookup_lt_Some. }
        rewrite Hbs in Hj. injection Hj as <-. unfold nb.
        assert (Hbeq : b = Block (b_addr b) (b_size b) false)
          by (destruct Hb as [? _]; by apply block_eq).
        rewrite !elem_of_app, !elem_of_cons in Hb'in.
        rewrite !elem_of_app, !elem_of_cons.
        destruct Hb'in as [?|[E|[E|?]]];
          [by left|congruence| |right; right; apply elem_of_app; by right].
        rewrite E in Hf'. done.
      * exists bs'. split; [|done]. apply list_elem_of_lookup. exists j.
        by rewrite list_lookup_insert_ne.
    + intros a Ha. destruct (Hfree2 b' a Hb' Hne Ha) as (? & ? & ?).
      by apply Hfoot.
Qed.

Lemma rememalign_policy_spec st bss b fuel align size policy :
  hook_keeps (kept b (heap st)) grub_disk_cache_invalidate_all →
  hook_keeps (kept b (heap st)) grub_dl_unload_unneeded →
  mm_inv (heap st) (base st) bss → held_block bss b →
  (fuel_for (base st) ≤ fuel)%nat → 0 ≤ align < 2 ^ 32 → 0 < size < 2 ^ 32 →
  ∃ q st' bss',
    grub_rememalign_policy grub_disk_cache_invalidate_all grub_dl_unload_unneeded
      fuel (b_addr b + 16) align size policy st = Ok (q, st') ∧
    resized st b size q st' bss'.
Proof.
  intros Hdisk Hdl Hinv Hb Hfuel Hal Hsize.
  destruct (held_block_header _ _ _ _ Hinv Hb)
    as (Hpal & Hs1 & Hmg & Hsz & i & r & bs & Hi & Hbs & Hbin & Hlo & Hhi & Hget).
  destruct (mm_inv_lookup _ _ _ _ _ Hinv Hi) as (bs' & Hbs' & Hreg).
  rewrite Hbs in Hbs'. injection Hbs' as <-.
  pose proof Hreg as [Hrlo Hrhi _ Ht _ _ _].
  assert (Hbeq : b = Block (b_addr b) (b_size b) false)
    by (destruct Hb as [Hf _]; by apply block_eq).
  destruct (decide (cells_for size ≤ b_size b)) as [Hkeep|Hbig].
  { exists (b_addr b + 16), st, bss.
    split; [apply (rememalign_keep st bss); [done|done|lia|done]|].
    split_and!; [done|done|lia|]. intros _. exists (b_size b).
    replace (b_addr b + 16 - 16) with (b_addr b) by lia. rewrite <- Hbeq.
    by split_and!. }
  set (p2 := hdr_add (b_addr b) (h_size (heap st !!! b_addr b))).
  assert (Hp2 : p2 = b_addr b + 16 * b_size b)
    by (unfold p2; rewrite Hsz, hdr_add_small by lia; done).
  destruct (decide (h_magic (heap st !!! p2) = GRUB_MM_FREE_MAGIC ∧
      (p2 <? word (r_addr r + word (Z.shiftl (r_size r) GRUB_MM_ALIGN_LOG2))) = true ∧
      cells_for size ≤ word (h_size (heap st !!! b_addr b) + h_size (heap st !!! p2))))
    as [(Hm & Hbd & Hfit)|Hno].
  - (* the block grows where it is *)
    rewrite Hp2 in Hm, Hbd, Hfit.
    destruct (next_free_block _ _ _ _ _ _ _ Hinv Hb Hi Hbs Hbin Hm)
      as (bs1 & k & bs2 & _ & Hsz2 & Hk & Hhi2).
    rewrite Hsz, word_small in Hfit by lia.
    destruct (rememalign_grow st bss b fuel align size policy i r _ Hinv Hb Hsize
                Hi Hbs Hbin Hget Hbig Hm Hbd Hfit)
      as (st' & bss' & Hrun & Hinv' & Hst' & _ & _ & Hheld & Hbytes & _).
    exists (b_addr b + 16), st', bss'. split; [done|].
    split_and!; [done|done|lia|]. intros _. exists (cells_for size).
    replace (b_addr b + 16 - 16) with (b_addr b) by lia.
    split_and!; [done|done|]. intros j Hj1 Hj2. apply load8_ext.
    destruct (cell_of_range (b_addr b + 16) j) as (? & ?); [|lia|].
    { rewrite Z.add_mod, Hpal by lia. done. }
    apply Hbytes; unfold in_block; lia.
  - (* the block moves *)
    assert (b_addr b + 16 ≠ 0) as Hptr by lia. assert (size ≠ 0) as Hsize0 by lia.
    rewrite (rememalign_move_eq _ _ fuel (b_addr b + 16) align size policy st
               (b_addr b) i r Hptr Hsize0 Hget); [|by rewrite Hsz|].
    2:{ fold p2.
        destruct (decide (h_magic (heap st !!! p2) = GRUB_MM_FREE_MAGIC)); [|tauto].
        destruct (p2 <? word (r_addr r + word (Z.shiftl (r_size r) GRUB_MM_ALIGN_LOG2)))
          eqn:E; [|tauto].
        right. right. intros ?. apply Hno. done. }
    destruct (memalign_policy_kept grub_disk_cache_invalidate_all
                grub_dl_unload_unneeded b (heap st) st bss fuel align size policy
                Hdisk Hdl)
      as (q & st1 & bss1 & Hrun & (Hinv1 & Hb1 & Hbytes1) & Hst1 & Hnew);
      [by split_and!|done|done|].
    rewrite Hrun. cbn -[grub_free grub_memcpy].
    destruct (Z.eqb_spec q 0) as [Hq|Hq].
    { exists q, st1, bss1. split; [done|]. by split_and!. }
    destruct (Hnew Hq) as (Hc & Hfresh).
    set (c := Block (q - 16) (cells_for size) false) in *.
    destruct (held_block_header _ _ _ _ Hinv1 Hc)
      as (Hcal & _ & _ & _ & i' & r' & bsc & Hi' & _ & _ & Hclo & Hchi & _).
    simpl in Hcal, Hclo, Hchi.
    destruct (mm_inv_lookup _ _ _ _ _ Hinv1 Hi') as (? & _ & [? ? _ _ _ _ _]).
    pose proof (cells_for_range size).
    pose proof (cells_for_two size ltac:(lia) ltac:(lia)) as Hsz16.
    pose proof (cells_for_fits size ltac:(lia)) as Hfits.
    assert (q mod 16 = 0) as Hqal
      by (rewrite <- (Z.sub_add 16 q), Z.add_mod, Hcal by lia; done).
    set (m2 := grub_memcpy (heap st1) q (b_addr b + 16) size).
    destruct (payload_write_inv (heap st1) m2 (base st1) bss1 c Hinv1 Hc)
      as (Hinv2 & _ & Hother).
    { intros a Ha Hout. simpl in Hout. unfold m2, grub_memcpy.
      apply lookup_copy_bytes_ne; rewrite ?Z2Nat.id by lia; lia. }
    assert (b ≠ c) as Hbc.
    { intros E. apply Hfresh. rewrite E. unfold in_block, c. simpl. lia. }
    destruct (grub_free_held (with_heap m2 st1) bss1 fuel b)
      as (st3 & bss3 & Hfree & Hinv3 & Hst3 & _ & _ & _ & Hkeep);
      [done|simpl; by rewrite (fuel_for_static _ _ Hst1)|done|].
    rewrite Hfree. simpl. exists q, st3, bss3. split; [done|].
    destruct (Hkeep c Hc) as (Hc3 & Hcbytes); [done|].
    split_and!; [done|by rewrite Hst3|done|]. intros _.
    exists (cells_for size). split_and!; [done|done|]. intros j Hj1 Hj2.
    destruct (cell_of_range q j Hqal ltac:(lia)) as (? & ?).
    destruct (cell_of_range (b_addr b + 16) j) as (? & ?); [|lia|].
    { rewrite Z.add_mod, Hpal by lia. done. }
    rewrite (load8_ext m2 (heap st3)).
    2:{ apply Hcbytes. unfold in_block, c. simpl. lia. }
    unfold m2, grub_memcpy. rewrite load8_copy_bytes by (rewrite ?Z2Nat.id by lia; lia).
    rewrite Z2Nat.id by lia. rewrite decide_True by lia.
    replace (q + j - q) with j by lia. rewrite word_small by lia.
    apply load8_ext. apply Hbytes1. unfold in_block. lia.
Qed.

End resize_sound.

(** ** The order of the search *)

(** The free blocks of a region in the order [grub_real_malloc] visits
    them: from [*first] upwards, from the second block upwards with
    [*first] last, or downwards from the block before [*first]. *)
Definition walk (al : allocator) (F : list Z) : list Z :=
  match al with
  | GRUB_MM_ALLOCATOR_SECOND => tail F ++ take 1 F
  | GRUB_MM_ALLOCATOR_LAST => rev F
  | _ => F
  end.

Lemma walk_perm al (F : list Z) : walk al F ≡ₚ F.
Proof.
  destruct al; simpl; try done.
  - destruct F as [|f F]; [done|]. simpl. rewrite take_0.
    by rewrite Permutation_app_comm.
  - symmetry. apply Permutation_rev.
Qed.

Section first_fit.
Implicit Types (m : gmap Z grub_mm_header) (l : list Z) (r : grub_mm_region)
  (bs : list block).

Lemma last_NoDup_cons a l : NoDup (a :: l) → a = List.last (a :: l) 0 → l = [].
Proof.
  intros [Ha _]%NoDup_cons E. destruct l as [|b l]; [done|].
  exfalso. apply Ha. rewrite E, List_last_cons. by apply List_last_elem_of.
Qed.

(** The loop takes the first node of its walk that fits; it gives up only
    after it has seen that none does. *)
Lemma malloc_loop_first_fit m al align n first lst l :
  NoDup l →
  (∀ x, x ∈ l → x ≠ 0 ∧ h_magic (m !!! x) = GRUB_MM_FREE_MAGIC) →
  chain (step_of al m) l → l ≠ [] → lst = List.last l 0 →
  ∀ fuel, (length l ≤ fuel)%nat →
  ∃ res, malloc_loop fuel al align n (hd 0 l) lst first m = Ok res ∧
    ((res = (0, m, first) ∧
      ∀ x, x ∈ l → h_size (m !!! x) < want_of align n x) ∨
     ∃ l1 x l2, l = l1 ++ x :: l2 ∧
       (∀ y, y ∈ l1 → h_size (m !!! y) < want_of align n y) ∧
       want_of align n x ≤ h_size (m !!! x) ∧
       res = carve al align n (want_of align n x) x first m).
Proof.
  induction l as [|a l IH]; [done|].
  intros Hnd0 Hm Hc _ Hl [|fuel] Hf; [simpl in Hf; lia|].
  pose proof Hnd0 as [Ha Hnd]%NoDup_cons.
  simpl hd. simpl malloc_loop. fold (want_of align n a).
  destruct (Hm a) as [Ha0 Hma]; [apply list_elem_of_here|].
  rewrite (proj2 (Z.eqb_neq a 0)) by done.
  rewrite Hma, Z.eqb_refl. simpl negb. cbv iota.
  destruct (Z.leb_spec (want_of align n a) (h_size (m !!! a))).
  { eexists. split; [done|]. right. exists [], a, l. split_and!; try done.
    by intros y ?%elem_of_nil. }
  destruct (Z.eqb_spec a lst) as [E|E].
  { eexists. split; [done|]. left. split; [done|]. rewrite Hl in E.
    rewrite (last_NoDup_cons a l Hnd0 E). by intros x ->%list_elem_of_singleton. }
  destruct l as [|b l]; [by rewrite Hl in E|].
  destruct Hc as [Hab Hc]. fold (step_of al m a). rewrite Hab.
  destruct (IH Hnd) with (fuel := fuel) as (res & Hres & Hcase).
  - intros x Hx. apply Hm. by apply list_elem_of_further.
  - done.
  - done.
  - by rewrite Hl, List_last_cons, (List_last_default _ a 0).
  - simpl in Hf |- *. lia.
  - exists res. split; [done|].
    destruct Hcase as [(-> & Hno)|(l1 & x & l2 & El & Hno & ? & ?)].
    + left. split; [done|]. intros x [->|Hx]%elem_of_cons; [done|by apply Hno].
    + right. exists (a :: l1), x, l2. rewrite El. split_and!; try done.
      intros y [->|Hy]%elem_of_cons; [done|by apply Hno].
Qed.

(** The walk of each allocator is a ring walk over all free blocks. *)
Lemma walk_chain m al f F :
  ring m (f :: F) →
  walk al (f :: F) ≠ [] ∧ walk al (f :: F) ≡ₚ f :: F ∧
  chain (step_of al m) (walk al (f :: F)) ∧
  match al with
  | GRUB_MM_ALLOCATOR_SECOND =>
      h_next (m !!! f) = hd 0 (walk al (f :: F)) ∧
      f = List.last (walk al (f :: F)) 0
  | GRUB_MM_ALLOCATOR_LAST =>
      h_prev (m !!! f) = hd 0 (walk al (f :: F)) ∧
      f = List.last (walk al (f :: F)) 0
  | _ => f = hd 0 (walk al (f :: F)) ∧
         h_prev (m !!! f) = List.last (walk al (f :: F)) 0
  end.
Proof.
  intros Hr.
  pose proof (ring_next m [] f F Hr) as Hnx.
  pose proof (ring_prev m [] f F Hr) as Hpv. simpl in Hnx, Hpv.
  assert (Hd : dll m (List.last (f :: F) f) (f :: F) f) by done.
  destruct (decide (al = GRUB_MM_ALLOCATOR_SECOND)) as [->|];
    [|destruct (decide (al = GRUB_MM_ALLOCATOR_LAST)) as [->|]].
  - change (walk GRUB_MM_ALLOCATOR_SECOND (f :: F)) with (F ++ [f]). split_and!.
    + by destruct F.
    + by rewrite Permutation_app_comm.
    + apply (ring_rotate m [f] F) in Hr.
      destruct (F ++ [f]) eqn:E; [done|]. by eapply dll_chain_next.
    + by rewrite Hnx, hd_app.
    + by rewrite List_last_app.
  - change (walk GRUB_MM_ALLOCATOR_LAST (f :: F)) with (rev (f :: F)). split_and!.
    + simpl. by destruct (rev F).
    + symmetry. apply Permutation_rev.
    + by eapply dll_chain_prev.
    + by rewrite hd_rev, Hpv, List_last_cons.
    + simpl rev. by rewrite List_last_app.
  - assert (walk al (f :: F) = f :: F) as -> by (by destruct al).
    split_and!; [done|done| |].
    { eapply chain_ext; [|by eapply dll_chain_next].
      intros x. unfold step_of. by rewrite decide_False. }
    rewrite Hpv, List_last_cons. destruct al; done.
Qed.

(** [grub_real_malloc] on a region at rest serves the request from the
    first free block of its walk that fits, and gives up only when no free
    block fits. *)
Lemma grub_real_malloc_first_fit m r bs fuel align size al :
  region_inv m r bs → 0 ≤ align < 2 ^ 32 →
  (length (frees bs) ≤ fuel)%nat →
  let want := want_of (align_cells align) (cells_for size) in
  ∃ ptr m' first',
    grub_real_malloc fuel align size (r_first r) al m = Ok (ptr, m', first') ∧
    ((ptr = 0 ∧ ∀ x, x ∈ frees bs → h_size (m !!! x) < want x) ∨
     (ptr ≠ 0 ∧ ∃ l1 x l2,
        walk al (frees bs) = l1 ++ x :: l2 ∧
        (∀ y, y ∈ l1 → h_size (m !!! y) < want y) ∧
        want x ≤ h_size (m !!! x) ∧
        x ≤ ptr - 16 ∧ ptr - 16 + 16 * cells_for size ≤ x + 16 * h_size (m !!! x))).
Proof.
  intros Hinv Hal Hfuel want. unfold grub_real_malloc. fold (align_cells align).
  pose proof (cells_for_range size) as Hn.
  pose proof (align_cells_range _ Hal) as Hac.
  pose proof Hinv as [Hlo Hhi Haln Ht Hna Hr Hf].
  destruct (frees bs) as [|f F] eqn:EF.
  { destruct (tiling_allocs _ _ _ _ _ Ht Hf) as (_ & _ & _ & ->).
    rewrite Z.eqb_refl. eexists _, _, _. split; [done|]. left.
    split; [done|]. by intros x ?%elem_of_nil. }
  assert (Hfr : ∀ x, x ∈ f :: F → x ≠ 0 ∧ h_magic (m !!! x) = GRUB_MM_FREE_MAGIC).
  { intros x Hx. rewrite <- EF in Hx.
    by destruct (region_inv_frees_range _ _ _ _ Hinv Hx) as (_ & ? & ?). }
  pose proof (tiling_frees_NoDup _ _ _ _ Ht) as Hnd. rewrite EF in Hnd.
  destruct (Hfr f) as [_ Hmf]; [apply list_elem_of_here|].
  rewrite Hf, Hmf. change (GRUB_MM_FREE_MAGIC =? GRUB_MM_ALLOC_MAGIC) with false.
  cbv iota.
  destruct (walk_chain m al f F Hr) as (Hl & Hperm & Hch & Hends).
  remember (walk al (f :: F)) as l eqn:El0.
  assert (NoDup l) by (by rewrite Hperm).
  assert (Hlen : (length l ≤ fuel)%nat) by (by rewrite (Permutation_length Hperm)).
  assert (Hfr' : ∀ x, x ∈ l → x ≠ 0 ∧ h_magic (m !!! x) = GRUB_MM_FREE_MAGIC).
  { intros x Hx. apply Hfr. by rewrite <- Hperm. }
  assert (∃ res,
    match al with
    | GRUB_MM_ALLOCATOR_SECOND =>
        malloc_loop fuel al (align_cells align) (cells_for size)
          (h_next (m !!! f)) f f m
    | GRUB_MM_ALLOCATOR_LAST =>
        malloc_loop fuel al (align_cells align) (cells_for size)
          (h_prev (m !!! f)) f f m
    | _ =>
        malloc_loop fuel al (align_cells align) (cells_for size)
          f (h_prev (m !!! f)) f m
    end = Ok res ∧
    ((res = (0, m, f) ∧ ∀ x, x ∈ l → h_size (m !!! x) < want x) ∨
     ∃ l1 x l2, l = l1 ++ x :: l2 ∧
       (∀ y, y ∈ l1 → h_size (m !!! y) < want y) ∧
       want x ≤ h_size (m !!! x) ∧
       res = carve al (align_cells align) (cells_for size) (want x) x f m))
    as (res & -> & Hres).
  { destruct al; destruct Hends as [-> ->];
      by apply malloc_loop_first_fit. }
  destruct Hres as [(-> & Hno)|(l1 & x & l2 & El & Hno & Hwant & ->)].
  { eexists _, _, _. split; [done|]. left. split; [done|].
    intros x Hx. apply Hno. by rewrite Hperm. }
  assert (Hx : x ∈ frees bs).
  { rewrite EF, <- Hperm, El. apply elem_of_app. right. apply list_elem_of_here. }
  rewrite El in El0. symmetry in El0.
  destruct (elem_of_frees_split _ _ Hx) as (bs1 & sz & bs2 & ->).
  destruct (tiling_focus _ _ _ _ _ _ Ht) as (_ & ? & _ & Hsz & _).
  simpl in Hsz. pose proof Hwant as Hwant'. rewrite Hsz in Hwant.
  destruct (want_of_range (align_cells align) (cells_for size) x) as [_ ?];
    [done|done|]. fold (want x) in *.
  destruct (carve al (align_cells align) (cells_for size) (want x) x f m)
    as [[ptr m'] first'] eqn:Hc.
  rewrite <- Hf in Hc.
  eapply carve_spec in Hc as (w & ? & -> & ? & ?); [|exact Hinv|lia|lia|lia].
  eexists _, _, _. split; [done|]. right.
  destruct (carved_first _ _ _ _ _ _ Hinv).
  split; [lia|]. exists l1, x, l2. rewrite Hsz.
  split_and!; [done|done|done|lia|lia].
Qed.

End first_fit.

(** ** What a failed search says *)

(** Region [r] has no free block for the request: it is skipped under the
    policy, or each of its free blocks is smaller than the cells of the
    request plus the pad the loop adds for it. *)
Definition no_fit (align size : Z) (policy : nat) (m : gmap Z grub_mm_header)
    (r : grub_mm_region) (bs : list block) : Prop :=
  policy_of r policy = GRUB_MM_ALLOCATOR_SKIP ∨
  ∀ x, x ∈ frees bs →
    h_size (m !!! x) < want_of (align_cells align) (cells_for size) x.

Section exhausted.
Implicit Types (m : gmap Z grub_mm_header) (rs : list grub_mm_region)
  (bss : list (list block)) (r : grub_mm_region) (bs : list block).

Lemma region_fails_no_fit m r bs fuel align size policy :
  region_inv m r bs → 0 ≤ align < 2 ^ 32 → (length (frees bs) ≤ fuel)%nat →
  region_fails fuel align size policy m r → no_fit align size policy m r bs.
Proof.
  intros Hinv Hal Hfuel [Hskip|Hrun]; [by left|]. right.
  destruct (grub_real_malloc_first_fit m r bs fuel align size (policy_of r policy)
              Hinv Hal Hfuel) as (ptr & m' & f' & Hrun' & H).
  rewrite Hrun in Hrun'. injection Hrun' as <- <- <-.
  by destruct H as [(_ & ?)|(? & _)].
Qed.

Lemma no_fit_region_fails m r bs fuel align size policy :
  region_inv m r bs → 0 ≤ align < 2 ^ 32 → (length (frees bs) ≤ fuel)%nat →
  no_fit align size policy m r bs → region_fails fuel align size policy m r.
Proof.
  intros Hinv Hal Hfuel [Hskip|Hno]; [by left|]. right.
  destruct (grub_real_malloc_first_fit m r bs fuel align size (policy_of r policy)
              Hinv Hal Hfuel) as (ptr & m' & f' & Hrun' & H).
  destruct (grub_real_malloc_spec m r bs fuel align size (policy_of r policy)
              Hinv Hal Hfuel) as (ptr2 & m2 & f2 & Hrun2 & H2).
  rewrite Hrun' in Hrun2. injection Hrun2 as <- <- <-.
  destruct H as [(-> & _)|(_ & l1 & x & l2 & Hw & _ & Hfit & _)].
  - destruct H2 as [(_ & -> & ->)|(bs1 & q & sz & bs2 & w & -> & ? & ? & _)]; [done|].
    destruct (carved_first _ _ _ _ _ _ Hinv). lia.
  - assert (x ∈ walk (policy_of r policy) (frees bs))
      by (rewrite Hw; apply elem_of_app; right; apply list_elem_of_here).
    assert (x ∈ frees bs) by (by rewrite <- (walk_perm (policy_of r policy))).
    specialize (Hno x ltac:(done)). lia.
Qed.

Lemma mm_inv_no_fit st bss fuel align size policy n :
  mm_inv (heap st) (base st) bss → (fuel_for (base st) ≤ fuel)%nat →
  0 ≤ align < 2 ^ 32 →
  Forall (region_fails fuel align size policy (heap st)) (take n (base st)) →
  ∀ i r bs, (i < n)%nat → base st !! i = Some r → bss !! i = Some bs →
    no_fit align size policy (heap st) r bs.
Proof.
  intros Hinv Hfuel Hal Hfail i r bs Hi Hk Hbs.
  destruct (mm_inv_lookup _ _ _ _ _ Hinv Hk) as (bs' & Hbs' & Hreg).
  rewrite Hbs in Hbs'. injection Hbs' as <-.
  apply (region_fails_no_fit _ _ _ fuel); [done|done| |].
  - assert (length (frees bs) < fuel)%nat; [|lia].
    eapply fuel_for_ring; [by eapply list_elem_of_lookup_2|done|done].
  - apply (proj1 (Forall_forall _ _) Hfail).
    apply list_elem_of_lookup. exists i. by rewrite lookup_take_lt.
Qed.

Lemma want_of_one n x : 1 ≤ n ≤ 2 ^ 28 → want_of 1 n x = n.
Proof.
  intros. destruct (want_of_range 1 n x) as [_ ?]; [done|lia|]. lia.
Qed.

Lemma align_cells_small align : 0 ≤ align < 32 → align_cells align = 1.
Proof.
  intros. unfold align_cells. rewrite shiftr_cell.
  destruct (Z.eqb_spec (align / 16) 0) as [|Hne]; [done|].
  assert (align / 16 < 2) by (apply Z.div_lt_upper_bound; lia).
  pose proof (Z.div_pos align 16 ltac:(lia) ltac:(lia)). lia.
Qed.

(** The example after one allocation: the block in use and the free block
    behind it. *)
Lemma example_used_blocks :
  ∃ bss r bs,
    mm_inv (heap example_used) (base example_used) bss ∧
    held_block bss (Block 0x100020 8 false) ∧
    base example_used !! 0%nat = Some r ∧ bss !! 0%nat = Some bs ∧
    policy_of r GRUB_MM_MALLOC_DEFAULT ≠ GRUB_MM_ALLOCATOR_SKIP ∧
    Block 0x1000a0 246 true ∈ bs.
Proof.
  destruct example_used_inv as (bss & Hinv & Hb).
  destruct (held_block_header _ _ _ _ Hinv Hb)
    as (_ & _ & _ & _ & i & r & bs & Hi & Hbs & Hbin & _).
  assert (i = 0%nat) as ->.
  { apply lookup_lt_Some in Hi.
    assert (length (base example_used) = 1%nat) as E by (vm_compute; reflexivity).
    rewrite E in Hi. lia. }
  destruct (next_free_block _ _ _ _ _ _ _ Hinv Hb Hi Hbs Hbin)
    as (bs1 & k & bs2 & Ebs & Hk & _).
  { vm_compute. reflexivity. }
  assert (k = 246) as -> by (rewrite <- Hk; vm_compute; reflexivity).
  exists bss, r, bs. split_and!; [done|done|done|done| |].
  - assert (base example_used !! 0%nat
            = Some (Region 0x1000a0 0x100020 4064 example_policies)) as E
      by (vm_compute; reflexivity).
    rewrite E in Hi. injection Hi as <-. vm_compute. discriminate.
  - rewrite Ebs. apply elem_of_app. right. right. left.
Qed.

End exhausted.

(** * The claims *)

(** C1, evaluated: [grub_memalign (64, 1)] on the example state.  The only
    free block starts at 0x100020, so [p + 1] is cell 0x10003 and the
    padding is [0x10003 & 3 = 3] cells; the block is carved at the end of
    the span of [n + 3] cells and the pointer returned is 0x100060, which
    is 32 modulo 64: cell-aligned, not aligned to the 64 bytes asked for. *)
Theorem C1_memalign_misaligned :
  ∃ st', grub_memalign idle idle 8 64 1 example_state = Ok (0x100060, st') ∧
         h_magic (heap st' !!! 0x100050) = GRUB_MM_ALLOC_MAGIC ∧
         0x100060 mod 16 = 0 ∧ 0x100060 mod 64 = 32.
Proof. eexists. split; [vm_compute; reflexivity|]. by vm_compute. Qed.



(** C9 as stated fails: 64 bytes handed over at 1 MiB leave 32 usable
    bytes, two cells, behind the 32-byte region header, and the region is
    installed all the same, with a free block of two cells. *)
Lemma C9_two_cell_span_installed :
  0x100000 + 64 - init_first 4 0x100000 = 32 ∧
  base (grub_mm_init_region 4 mm_empty 0x100000 64 example_policies)
    = [Region 0x100020 0x100020 32 example_policies] ∧
  heap (grub_mm_init_region 4 mm_empty 0x100000 64 example_policies) !!! 0x100020
    = Header 0x100020 0x100020 2 GRUB_MM_FREE_MAGIC.
Proof. by vm_compute. Qed.

(** C9, amended: [grub_mm_init_region] changes nothing exactly when the
    size handed over, before alignment and before the region header is
    taken off, is below four cells.  Otherwise the usable span starts at
    [init_first addr], behind the aligned base and the header, and the
    region is inserted with one free block of [init_cells addr size] cells,
    the usable span rounded down to cells, linked to itself; the error
    code is not touched in either case. *)
Theorem C9_init_region (GRUB_MM_NPOLICIES : Z) (st : mm_state) (addr size : Z)
    (policies : list allocator) :
  0 ≤ addr → addr + size < 2 ^ 32 →
  0 ≤ GRUB_MM_NPOLICIES → sizeof_region GRUB_MM_NPOLICIES + 15 ≤ 64 →
  let st' := grub_mm_init_region GRUB_MM_NPOLICIES st addr size policies in
  let h := init_first GRUB_MM_NPOLICIES addr in
  let n := init_cells GRUB_MM_NPOLICIES addr size in
  (st' = st ↔ size < GRUB_MM_ALIGN * 4) ∧
  grub_errno st' = grub_errno st ∧
  (GRUB_MM_ALIGN * 4 ≤ size →
     base st' = insert_region (Region h h (16 * n) policies) (base st) ∧
     heap st' = <[h := Header h h n GRUB_MM_FREE_MAGIC]> (heap st) ∧
     16 * n ≤ addr + size - h < 16 * n + 16).
Proof.
  intros Ha Hs HN Hsz. cbv zeta. rewrite GRUB_MM_ALIGN_16.
  destruct (decide (size < 64)) as [Hlt|Hge].
  - rewrite init_region_small by done. split_and!; [tauto|done|lia].
  - rewrite init_region_eq by lia. split_and!; [|done|].
    + split; [|lia]. intros E. apply (f_equal (λ s, length (base s))) in E.
      simpl in E. rewrite insert_region_length in E. lia.
    + intros _. split_and!; try done; unfold init_cells;
        pose proof (Z.div_mod (addr + size - init_first GRUB_MM_NPOLICIES addr) 16);
        pose proof (Z.mod_pos_bound (addr + size - init_first GRUB_MM_NPOLICIES addr) 16);
        lia.
Qed.

Lemma C9_init_region_witness :
  base example_state = [Region 0x100020 0x100020 4064 example_policies] ∧
  heap example_state = {[ 0x100020 := Header 0x100020 0x100020 254 GRUB_MM_FREE_MAGIC ]}.
Proof.
  destruct (C9_init_region 4 mm_empty 0x100000 4096 example_policies)
    as (_ & _ & H); [lia|lia|lia|vm_compute; discriminate|].
  destruct H as (H1 & H2 & _); [vm_compute; discriminate|].
  split; [exact H1|exact H2].
Defined.

(** C7: when the header at [r->first] carries the ALLOC magic, the search
    of [grub_real_malloc] in that region returns null before it looks at
    any block, whatever the fuel, and leaves memory and [first] as they
    were; [grub_free] of a pointer of such a region gives the header the
    FREE magic, makes [prev] and [next] point to the header itself and sets
    [r->first] to it, touching no other cell. *)
Theorem C7_region_full (fuel fuel' : nat) (align size : Z) (al : allocator)
    (st : mm_state) (ptr p : Z) (i : nat) (r : grub_mm_region) :
  ptr ≠ 0 →
  get_header_from_pointer (heap st) (base st) ptr = Ok (p, i, r) →
  h_magic (heap st !!! r_first r) = GRUB_MM_ALLOC_MAGIC →
  grub_real_malloc fuel align size (r_first r) al (heap st)
    = Ok (0, heap st, r_first r) ∧
  ∃ st', grub_free fuel' ptr st = Ok st' ∧
    base st' !! i = Some (with_first p r) ∧
    base st' = <[i := with_first p r]> (base st) ∧
    heap st' !!! p = Header p p (h_size (heap st !!! p)) GRUB_MM_FREE_MAGIC ∧
    (∀ a, a ≠ p → heap st' !!! a = heap st !!! a) ∧
    grub_errno st' = grub_errno st.
Proof.
  intros Hptr Hget Hfull. split.
  - unfold grub_real_malloc. by rewrite Hfull.
  - unfold grub_free. rewrite (proj2 (Z.eqb_neq ptr 0)) by done.
    rewrite Hget. simpl. rewrite Hfull. simpl. eexists. split; [done|]. simpl.
    assert (base st !! i = Some r) as Hi.
    { unfold get_header_from_pointer in Hget.
      destruct (negb _); [done|].
      destruct (find_region ptr (base st) 0) as [[j r']|] eqn:Hf; [|done].
      destruct (negb _); [done|]. injection Hget as _ <- <-.
      by apply find_region_Some in Hf as (? & -> & ? & _). }
    split_and!; try done.
    + apply list_lookup_insert_eq. by eapply lookup_lt_Some.
    + apply header_ext; fields; cases.
    + intros a ?. apply header_ext; fields; cases.
Qed.

Lemma C7_region_full_witness :
  grub_real_malloc 0 0 16 0x100020 GRUB_MM_ALLOCATOR_FIRST (heap example_full)
    = Ok (0, heap example_full, 0x100020) ∧
  ∃ st', grub_free 0 0x100030 example_full = Ok st' ∧
         heap st' !!! 0x100020
           = Header 0x100020 0x100020 254 GRUB_MM_FREE_MAGIC.
Proof.
  destruct (C7_region_full 0 0 0 16 GRUB_MM_ALLOCATOR_FIRST example_full
              0x100030 0x100020 0
              (Region 0x100020 0x100020 4064 example_policies))
    as (H1 & st' & H2 & _ & _ & H3 & _);
    [discriminate|vm_compute; reflexivity|vm_compute; reflexivity|].
  split; [exact H1|]. exists st'. split; [exact H2|]. exact H3.
Defined.

(** C5: on a state at rest, with hooks that leave it at rest,
    [grub_memalign_policy] returns after [j + 1] scans of the region list,
    [j] at most 2: every scan before the last found nothing and changed
    nothing, the disk cache hook ran between the first scan and the
    second, the module unloading hook between the second and the third,
    so that the calls made are the first [j] of the two, each at most
    once.  A non-null result is the result of the last scan and leaves the
    error code alone; a null result comes after three scans, with the
    error code set to GRUB_ERR_OUT_OF_MEMORY and the message
    "out of memory". *)
Theorem C5_reclaim_then_fail
    (disk dl : gmap Z grub_mm_header * list grub_mm_region →
               gmap Z grub_mm_header * list grub_mm_region)
    (st : mm_state) (bss : list (list block)) (fuel : nat)
    (align size : Z) (policy : nat) :
  hook_keeps mm_inv disk → hook_keeps mm_inv dl →
  mm_inv (heap st) (base st) bss → (fuel_for (base st) ≤ fuel)%nat →
  0 ≤ align < 2 ^ 32 →
  ∃ p st' j,
    grub_memalign_policy disk dl fuel align size policy st = Ok (p, st') ∧
    (j ≤ 2)%nat ∧
    calls st' = calls st ++ take j [DISK_CACHE_INVALIDATE_ALL; DL_UNLOAD_UNNEEDED] ∧
    (∀ i, (i < j)%nat →
       scan_pass fuel align size policy (stage disk dl i st)
         = Ok (0, stage disk dl i st)) ∧
    (p ≠ 0 →
       scan_pass fuel align size policy (stage disk dl j st) = Ok (p, st') ∧
       grub_errno st' = grub_errno st ∧ grub_errmsg st' = grub_errmsg st) ∧
    (p = 0 →
       j = 2%nat ∧
       scan_pass fuel align size policy (stage disk dl 2 st)
         = Ok (0, stage disk dl 2 st) ∧
       st' = grub_error GRUB_ERR_OUT_OF_MEMORY "out of memory" (stage disk dl 2 st) ∧
       grub_errno st' = GRUB_ERR_OUT_OF_MEMORY ∧
       grub_errmsg st' = "out of memory").
Proof.
  intros Hdisk Hdl Hinv Hfuel Hal.
  destruct (memalign_policy_stages disk dl mm_inv (λ _ _ _ H, H) Hdisk Hdl
              st bss fuel align size policy Hinv Hfuel Hal)
    as (p & st' & j & Hrun & Hj & Hbefore & Hlast).
  exists p, st', j. destruct (stage_calls disk dl j st Hj) as (Hc & He & Hm).
  split_and!; try done.
  - destruct Hlast as [(_ & -> & _ & ->)|(_ & (-> & _)%scan_pass_calls)]; done.
  - intros Hp. destruct Hlast as [(? & _)|(_ & Hs)]; [done|].
    pose proof (scan_pass_calls _ _ _ _ _ _ _ Hs) as (_ & -> & ->). done.
  - intros Hp. destruct Hlast as [(_ & -> & Hs & ->)|(? & _)]; done.
Qed.

Lemma C5_reclaim_then_fail_witness :
  ∃ st', grub_malloc idle idle 4065 5000 example_state = Ok (0, st') ∧
         calls st' = [DISK_CACHE_INVALIDATE_ALL; DL_UNLOAD_UNNEEDED] ∧
         grub_errno st' = GRUB_ERR_OUT_OF_MEMORY.
Proof.
  destruct example_inv as (bss & Hinv & _).
  destruct (C5_reclaim_then_fail idle idle example_state bss 4065 0 5000
              GRUB_MM_MALLOC_DEFAULT idle_keeps idle_keeps Hinv)
    as (p & st' & j & Hrun & _ & Hcalls & _ & Hok & Hnull);
    [vm_compute; lia|lia|].
  destruct (decide (p = 0)) as [->|Hp].
  - destruct (Hnull eq_refl) as (-> & _ & _ & He & _). by exists st'.
  - destruct (Hok Hp) as (Hs & _). exfalso.
    destruct j as [|[|[|j]]]; vm_compute in Hs; [| | |].
    all: injection Hs as Hs _; by apply Hp.
Defined.


(** C8: [grub_free (0)] returns the state as it was.  For a non-null
    pointer on a state at rest, [grub_free] ends in [grub_fatal], with no
    state left behind, exactly when the pointer is not cell-aligned, or no
    region owns it, or the header one cell below it does not carry the
    ALLOC magic; in every other case it returns. *)
Theorem C8_free_checks (st : mm_state) (bss : list (list block)) (fuel : nat)
    (ptr : Z) :
  mm_inv (heap st) (base st) bss → (fuel_for (base st) ≤ fuel)%nat →
  grub_free fuel 0 st = Ok st ∧
  (ptr ≠ 0 →
     ((∃ msg, grub_free fuel ptr st = Fatal msg)
        ↔ bad_pointer (heap st) (base st) ptr) ∧
     (¬ bad_pointer (heap st) (base st) ptr →
        ∃ st', grub_free fuel ptr st = Ok st')).
Proof.
  intros Hinv Hfuel. split; [done|]. intros Hptr.
  assert (Hok : ¬ bad_pointer (heap st) (base st) ptr →
                ∃ st', grub_free fuel ptr st = Ok st')
    by (by apply (grub_free_total st bss)).
  split; [|done]. split.
  - intros (msg & Hf).
    destruct (get_header_cases (heap st) (base st) ptr) as [[? _]|[Hgood _]]; [done|].
    destruct (Hok Hgood) as (st' & Hst'). congruence.
  - intros Hbad.
    destruct (get_header_cases (heap st) (base st) ptr)
      as [(_ & msg & Hg)|[? _]]; [|done].
    exists msg. unfold grub_free. rewrite (proj2 (Z.eqb_neq ptr 0)) by done.
    by rewrite Hg.
Qed.

Lemma C8_free_checks_witness :
  grub_free 4065 0 example_full = Ok example_full ∧
  (∃ msg, grub_free 4065 0x100038 example_full = Fatal msg) ∧
  (∃ st', grub_free 4065 0x100030 example_full = Ok st').
Proof.
  destruct example_full_inv as (bss & Hinv).
  destruct (C8_free_checks example_full bss 4065 0x100038 Hinv) as (H0 & H1);
    [vm_compute; lia|].
  destruct (C8_free_checks example_full bss 4065 0x100030 Hinv) as (_ & H2);
    [vm_compute; lia|].
  split; [exact H0|]. split.
  - apply H1; [discriminate|]. left. vm_compute. discriminate.
  - apply H2; [discriminate|]. clear H0 H1 H2. intros [H|[H|H]].
    + apply H. vm_compute. reflexivity.
    + apply (H (Region 0x100020 0x100020 4064 example_policies)).
      * vm_compute. left.
      * vm_compute. split; [reflexivity|discriminate].
    + apply H. vm_compute. reflexivity.
Defined.
(** * Further properties of the code *)

(** X1 ([grub_memalign_policy], [grub_real_malloc], [split_chunk]): on a
    state at rest, with hooks that leave it at rest, an allocation returns
    and the state is at rest again, with the regions where they were.  A
    non-null result is cell-aligned, the header one cell below it carries
    the ALLOC magic and the cell count of the request, the block lies
    inside one region, and the pointer passes the checks of [grub_free]. *)
Theorem memalign_policy_sound
    (disk dl : gmap Z grub_mm_header * list grub_mm_region →
               gmap Z grub_mm_header * list grub_mm_region)
    (st : mm_state) (bss : list (list block)) (fuel : nat)
    (align size : Z) (policy : nat) :
  hook_keeps mm_inv disk → hook_keeps mm_inv dl →
  mm_inv (heap st) (base st) bss → (fuel_for (base st) ≤ fuel)%nat →
  0 ≤ align < 2 ^ 32 →
  ∃ p st' bss',
    grub_memalign_policy disk dl fuel align size policy st = Ok (p, st') ∧
    mm_inv (heap st') (base st') bss' ∧
    static <$> base st' = static <$> base st ∧
    (p ≠ 0 →
       p mod 16 = 0 ∧
       h_magic (heap st' !!! (p - 16)) = GRUB_MM_ALLOC_MAGIC ∧
       h_size (heap st' !!! (p - 16)) = cells_for size ∧
       (∃ r, r ∈ base st' ∧ r_addr r < p ∧
             p - 16 + 16 * cells_for size ≤ r_addr r + r_size r) ∧
       ¬ bad_pointer (heap st') (base st') p).
Proof.
  intros Hdisk Hdl Hinv Hfuel Hal.
  destruct (memalign_policy_inv disk dl st bss fuel align size policy
              Hdisk Hdl Hinv Hfuel Hal)
    as (p & st' & bss' & Hrun & Hinv' & Hst & Hheld).
  exists p, st', bss'. split_and!; try done. intros Hp.
  destruct (held_block_header _ _ _ _ Hinv' (Hheld Hp))
    as (Ha & _ & Hm & Hs & i & r & bs & Hi & _ & _ & ? & ? & Hget). simpl in *.
  replace (p - 16 + 16) with p in Hget by lia.
  split_and!; try done.
  - rewrite <- (Z.sub_add 16 p), Z.add_mod, Ha by lia. done.
  - exists r. split_and!; [by eapply list_elem_of_lookup_2|lia|lia].
  - by eapply get_header_not_bad.
Qed.

Lemma memalign_policy_sound_witness :
  ∃ p st', grub_memalign_policy idle idle 4065 64 100 GRUB_MM_MALLOC_LOW_END
             example_state = Ok (p, st') ∧
           (p ≠ 0 → h_size (heap st' !!! (p - 16)) = 8).
Proof.
  destruct example_inv as (bss & Hinv & _).
  destruct (memalign_policy_sound idle idle example_state bss 4065 64 100
              GRUB_MM_MALLOC_LOW_END idle_keeps idle_keeps Hinv)
    as (p & st' & _ & Hrun & _ & _ & H); [vm_compute; lia|lia|].
  exists p, st'. split; [exact Hrun|]. intros Hp.
  destruct (H Hp) as (_ & _ & Hs & _). exact Hs.
Defined.

(** X2 ([grub_memalign_policy], [grub_real_malloc]): an allocation never
    touches a block in use.  If the hooks leave the block [b] in use and
    its cells as they are, then after the call [b] is still in use, every
    cell of it, header and payload, holds what it held, and a non-null
    result is the start of a block that shares no cell with [b]. *)
Theorem memalign_policy_frame
    (disk dl : gmap Z grub_mm_header * list grub_mm_region →
               gmap Z grub_mm_header * list grub_mm_region)
    (st : mm_state) (bss : list (list block)) (b : block) (fuel : nat)
    (align size : Z) (policy : nat) :
  hook_keeps (kept b (heap st)) disk → hook_keeps (kept b (heap st)) dl →
  mm_inv (heap st) (base st) bss → held_block bss b →
  (fuel_for (base st) ≤ fuel)%nat → 0 ≤ align < 2 ^ 32 →
  ∃ p st' bss',
    grub_memalign_policy disk dl fuel align size policy st = Ok (p, st') ∧
    mm_inv (heap st') (base st') bss' ∧ held_block bss' b ∧
    (∀ a, in_block b a → heap st' !!! a = heap st !!! a) ∧
    (p ≠ 0 → ∀ a, p - 16 ≤ a < p - 16 + 16 * cells_for size → ¬ in_block b a).
Proof.
  intros Hdisk Hdl Hinv Hb Hfuel Hal.
  destruct (memalign_policy_kept disk dl b (heap st) st bss fuel align size policy
              Hdisk Hdl) as (p & st' & bss' & Hrun & (Hinv' & Hb' & Hbytes) & _ & Hnew);
    [by split_and!|done|done|].
  exists p, st', bss'. split_and!; try done. intros Hp a Ha Hin.
  destruct (Hnew Hp) as ((_ & bs & (k & Hk)%list_elem_of_lookup & Hc) & Hfresh).
  destruct (held_block_apart _ _ _ b a k bs _ Hinv' Hb' Hin Hk Hc) as (Hn & _).
  - intros <-. apply Hfresh. unfold in_block. simpl.
    pose proof (cells_for_range size). lia.
  - apply Hn. unfold in_block. simpl. lia.
Qed.

Lemma memalign_policy_frame_witness :
  ∃ p st', grub_memalign_policy idle idle 4065 0 32 GRUB_MM_MALLOC_DEFAULT
             example_used = Ok (p, st') ∧
           heap st' !!! 0x100020 = heap example_used !!! 0x100020 ∧
           heap st' !!! 0x100030 = heap example_used !!! 0x100030.
Proof.
  destruct example_used_inv as (bss & Hinv & Hb).
  destruct (memalign_policy_frame idle idle example_used bss
              (Block 0x100020 8 false) 4065 0 32 GRUB_MM_MALLOC_DEFAULT
              (idle_keeps_kept _ _) (idle_keeps_kept _ _) Hinv Hb)
    as (p & st' & _ & Hrun & _ & _ & Hbytes & _); [vm_compute; lia|lia|].
  exists p, st'. split; [exact Hrun|].
  split; apply Hbytes; unfold in_block; simpl; lia.
Defined.

(** X3 ([grub_free]): on a state at rest, [grub_free] of the pointer of a
    block in use returns, whatever the shape of the ring around it, and
    the state is at rest again: the block has left the list of blocks in
    use, every other block in use is still in use and holds what it held,
    the regions are where they were and the error code is not touched. *)
Theorem grub_free_sound (st : mm_state) (bss : list (list block)) (fuel : nat)
    (b : block) :
  mm_inv (heap st) (base st) bss → (fuel_for (base st) ≤ fuel)%nat →
  held_block bss b →
  ∃ st' bss',
    grub_free fuel (b_addr b + 16) st = Ok st' ∧
    mm_inv (heap st') (base st') bss' ∧
    static <$> base st' = static <$> base st ∧
    grub_errno st' = grub_errno st ∧
    live bss ≡ₚ b_addr b :: live bss' ∧
    (∀ b', held_block bss b' → b' ≠ b →
       held_block bss' b' ∧ ∀ a, in_block b' a → heap st' !!! a = heap st !!! a).
Proof.
  intros Hinv Hfuel Hb.
  destruct (grub_free_held st bss fuel b Hinv Hfuel Hb)
    as (st' & bss' & ? & ? & ? & ? & _ & ? & ?).
  by exists st', bss'.
Qed.

Lemma grub_free_sound_witness :
  ∃ st', grub_free 4065 0x100030 example_used = Ok st' ∧
         grub_errno st' = grub_errno example_used.
Proof.
  destruct example_used_inv as (bss & Hinv & Hb).
  destruct (grub_free_sound example_used bss 4065 (Block 0x100020 8 false) Hinv)
    as (st' & _ & Hrun & _ & _ & He & _); [vm_compute; lia|exact Hb|].
  exists st'. split; [exact Hrun|exact He].
Defined.


(** X5 ([grub_memalign_policy], [grub_free], [grub_real_malloc]): round
    trip.  A client starts on a state at rest with no block in use and
    makes any sequence of allocations, under any policy and alignment, and
    of frees of pointers it holds; the hooks return what they take.  Every
    call returns, and once the client holds no pointer but null ones,
    every region is a single free block again: [first] is the start of
    the region and the header there is linked to itself, FREE, with all
    the cells of the region. *)
Theorem alloc_free_round_trip
    (disk dl : gmap Z grub_mm_header * list grub_mm_region →
               gmap Z grub_mm_header * list grub_mm_region)
    (st : mm_state) (bss : list (list block)) (fuel : nat)
    (reqs : list request) :
  keeps_live disk → keeps_live dl → Forall request_ok reqs →
  mm_inv (heap st) (base st) bss → live bss = [] →
  (fuel_for (base st) ≤ fuel)%nat →
  ∃ held st',
    run_requests disk dl fuel reqs [] st = Ok (held, st') ∧
    static <$> base st' = static <$> base st ∧
    (Forall (λ p, p = 0) held →
     ∀ r, r ∈ base st' →
       r_first r = r_addr r ∧
       heap st' !!! r_addr r
         = Header (r_addr r) (r_addr r) (r_size r / 16) GRUB_MM_FREE_MAGIC).
Proof.
  intros Hdisk Hdl Hok Hinv Hlive Hfuel.
  destruct (run_requests_spec disk dl Hdisk Hdl fuel reqs [] st bss Hok Hinv)
    as (held & st' & bss' & Hrun & Hinv' & Hlive' & Hst); [by rewrite Hlive|done|].
  exists held, st'. split_and!; [done|done|]. intros Hnull r Hr.
  eapply mm_inv_all_free; [done| |done].
  apply Permutation_nil_r. rewrite Hlive'. unfold headers_of.
  assert (filter (λ p, p ≠ 0) held = []) as ->; [|done].
  clear -Hnull. induction Hnull as [|p l -> _ IH]; [done|].
  by rewrite filter_cons_False by (by intros ?).
Qed.

Lemma alloc_free_round_trip_witness :
  ∃ st',
    run_requests idle idle 4065
      [Alloc 0 100 0; Alloc 64 1 3; Alloc 0 5000 0; Alloc 32 200 1;
       Free 1; Free 0; Free 1; Free 0] [] example_state = Ok ([], st') ∧
    heap st' !!! 0x100020
      = Header 0x100020 0x100020 254 GRUB_MM_FREE_MAGIC.
Proof.
  destruct example_inv as (bss & Hinv & Hlive).
  destruct (alloc_free_round_trip idle idle example_state bss 4065
      [Alloc 0 100 0; Alloc 64 1 3; Alloc 0 5000 0; Alloc 32 200 1;
       Free 1; Free 0; Free 1; Free 0]
      idle_keeps_live idle_keeps_live) as (held & st' & Hrun & Hst & H);
    [repeat constructor; simpl; lia|exact Hinv|exact Hlive|vm_compute; lia|].
  assert (held = [] ∧ base st' = [Region 0x100020 0x100020 4064 example_policies])
    as [-> Hbase].
  { clear -Hrun. vm_compute in Hrun. by injection Hrun as <- <-. }
  exists st'. split; [exact Hrun|].
  apply (H ltac:(constructor) (Region 0x100020 0x100020 4064 example_policies)).
  rewrite Hbase. left.
Defined.
(** X6 ([grub_zalloc]): for a size that leaves room for the header, at
    most [2^32 - 16], on a state at rest with hooks that leave it at rest,
    [grub_zalloc] returns and the state is at rest; a non-null result is
    the payload of a block in use, and each of the [size] bytes from the
    pointer on reads zero. *)
Theorem grub_zalloc_zeroed
    (disk dl : gmap Z grub_mm_header * list grub_mm_region →
               gmap Z grub_mm_header * list grub_mm_region)
    (st : mm_state) (bss : list (list block)) (fuel : nat) (size : Z) :
  hook_keeps mm_inv disk → hook_keeps mm_inv dl →
  mm_inv (heap st) (base st) bss → (fuel_for (base st) ≤ fuel)%nat →
  0 ≤ size ≤ 2 ^ 32 - 16 →
  ∃ ret st' bss',
    grub_zalloc disk dl fuel size st = Ok (ret, st') ∧
    mm_inv (heap st') (base st') bss' ∧
    (ret ≠ 0 →
       held_block bss' (Block (ret - 16) (cells_for size) false) ∧
       ∀ j, 0 ≤ j < size → load8 (heap st') (ret + j) = 0).
Proof.
  intros Hdisk Hdl Hinv Hfuel Hsize.
  destruct (memalign_policy_inv disk dl st bss fuel 0 size GRUB_MM_MALLOC_DEFAULT
              Hdisk Hdl Hinv Hfuel ltac:(lia))
    as (p & st1 & bss1 & Hrun & Hinv1 & _ & Hheld).
  unfold grub_zalloc, grub_memalign. rewrite Hrun. cbn -[grub_memset_zero].
  destruct (Z.eqb_spec p 0) as [E|Hp]; cbn -[grub_memset_zero].
  { exists p, st1, bss1. by split_and!. }
  specialize (Hheld Hp).
  destruct (held_block_header _ _ _ _ Hinv1 Hheld)
    as (Hal & _ & _ & _ & i & r & bs & Hi & Hbs & Hb & ? & ? & _). simpl in *.
  destruct (mm_inv_lookup _ _ _ _ _ Hinv1 Hi) as (? & _ & [? ? _ _ _ _ _]).
  pose proof (cells_for_fits size Hsize).
  assert (p mod 16 = 0) as Hpal
    by (rewrite <- (Z.sub_add 16 p), Z.add_mod, Hal by lia; done).
  destruct (payload_write_inv (heap st1)
              (grub_memset_zero (heap st1) p size) (base st1) bss1 _ Hinv1 Hheld)
    as (Hinv' & _).
  { intros a Ha Hout. simpl in Hout. apply memset_frame; lia. }
  eexists p, _, bss1. split; [done|]. simpl. split; [done|]. intros _.
  split; [done|]. intros j Hj. apply load8_memset; lia.
Qed.

Lemma grub_zalloc_zeroed_witness :
  ∃ ret st', grub_zalloc idle idle 4065 100 example_state = Ok (ret, st') ∧
             (ret ≠ 0 → load8 (heap st') (ret + 99) = 0).
Proof.
  destruct example_inv as (bss & Hinv & _).
  destruct (grub_zalloc_zeroed idle idle example_state bss 4065 100
              idle_keeps idle_keeps Hinv)
    as (ret & st' & bss' & Hrun & _ & H); [vm_compute; lia|lia|].
  exists ret, st'. split; [exact Hrun|]. intros Hret.
  destruct (H Hret) as (_ & Hz). apply Hz. lia.
Defined.



(** X8 ([grub_rememalign_policy], [grub_realloc]): on a state at rest, with
    hooks that leave the state at rest and the block alone, resizing a block
    in use to a size between 1 and [2^32 - 1] returns and the state is at
    rest.  When the result is null the old block is still in use and holds
    what it held.  When it is not null it is the payload of a block in use
    of at least the cells the size takes, and the first bytes of the new
    payload, up to the smaller of [size] and the old payload, read what the
    old payload read. *)
Theorem rememalign_policy_sound
    (disk dl : gmap Z grub_mm_header * list grub_mm_region →
               gmap Z grub_mm_header * list grub_mm_region)
    (st : mm_state) (bss : list (list block)) (b : block) (fuel : nat)
    (align size : Z) (policy : nat) :
  hook_keeps (kept b (heap st)) disk → hook_keeps (kept b (heap st)) dl →
  mm_inv (heap st) (base st) bss → held_block bss b →
  (fuel_for (base st) ≤ fuel)%nat → 0 ≤ align < 2 ^ 32 → 0 < size < 2 ^ 32 →
  ∃ q st' bss',
    grub_rememalign_policy disk dl fuel (b_addr b + 16) align size policy st
      = Ok (q, st') ∧
    mm_inv (heap st') (base st') bss' ∧
    static <$> base st' = static <$> base st ∧
    (q = 0 → held_block bss' b ∧
             ∀ a, in_block b a → heap st' !!! a = heap st !!! a) ∧
    (q ≠ 0 → ∃ n, cells_for size ≤ n ∧ held_block bss' (Block (q - 16) n false) ∧
             ∀ j, 0 ≤ j < size → j < 16 * (b_size b - 1) →
                  load8 (heap st') (q + j) = load8 (heap st) (b_addr b + 16 + j)).
Proof.
  intros Hdisk Hdl Hinv Hb Hfuel Hal Hsize.
  destruct (rememalign_policy_spec disk dl st bss b fuel align size policy
              Hdisk Hdl Hinv Hb Hfuel Hal Hsize)
    as (q & st' & bss' & Hrun & Hinv' & Hst & H0 & H1).
  by exists q, st', bss'.
Qed.

Lemma rememalign_policy_sound_witness :
  ∃ q st', grub_realloc idle idle 4065 0x100030 200 example_used = Ok (q, st') ∧
           (q ≠ 0 → load8 (heap st') (q + 99)
                    = load8 (heap example_used) (0x100030 + 99)).
Proof.
  destruct example_used_inv as (bss & Hinv & Hb).
  destruct (rememalign_policy_sound idle idle example_used bss
              (Block 0x100020 8 false) 4065 1 200 GRUB_MM_MALLOC_DEFAULT
              (idle_keeps_kept _ _) (idle_keeps_kept _ _) Hinv Hb)
    as (q & st' & bss' & Hrun & _ & _ & _ & H); [vm_compute; lia|lia|lia|].
  exists q, st'. split; [exact Hrun|]. intros Hq.
  destruct (H Hq) as (n & _ & _ & Hbytes). apply Hbytes; simpl; lia.
Defined.

(** X9 ([grub_rememalign_policy]): a block is never made smaller.  When the
    cells the new size takes fit the block, the call returns the pointer it
    was given and the state is what it was: no header is written, no hook is
    called, the alignment asked for is not looked at and no fuel is used. *)
Theorem rememalign_policy_fits
    (disk dl : gmap Z grub_mm_header * list grub_mm_region →
               gmap Z grub_mm_header * list grub_mm_region)
    (st : mm_state) (bss : list (list block)) (b : block) (fuel : nat)
    (align size : Z) (policy : nat) :
  mm_inv (heap st) (base st) bss → held_block bss b → size ≠ 0 →
  cells_for size ≤ b_size b →
  grub_rememalign_policy disk dl fuel (b_addr b + 16) align size policy st
    = Ok (b_addr b + 16, st).
Proof. apply rememalign_keep. Qed.

Lemma rememalign_policy_fits_witness :
  grub_rememalign_policy idle idle 0 0x100030 4096 40 GRUB_MM_MALLOC_DEFAULT
    example_used = Ok (0x100030, example_used).
Proof.
  destruct example_used_inv as (bss & Hinv & Hb).
  apply (rememalign_policy_fits idle idle example_used bss
           (Block 0x100020 8 false) 0 4096 40 GRUB_MM_MALLOC_DEFAULT Hinv Hb).
  - lia.
  - vm_compute. discriminate.
Defined.

(** X10 ([grub_rememalign_policy]): a size above [2^32 - 16] wraps to one
    cell, which fits every block: the call hands back the pointer it was
    given as if the block held [size] bytes, and changes nothing. *)
Theorem rememalign_policy_wrap
    (disk dl : gmap Z grub_mm_header * list grub_mm_region →
               gmap Z grub_mm_header * list grub_mm_region)
    (st : mm_state) (bss : list (list block)) (b : block) (fuel : nat)
    (align size : Z) (policy : nat) :
  mm_inv (heap st) (base st) bss → held_block bss b →
  2 ^ 32 - 16 < size < 2 ^ 32 →
  grub_rememalign_policy disk dl fuel (b_addr b + 16) align size policy st
    = Ok (b_addr b + 16, st) ∧
  16 * (b_size b - 1) < size.
Proof.
  intros Hinv Hb Hsize.
  destruct (held_block_header _ _ _ _ Hinv Hb)
    as (_ & Hs1 & _ & _ & i & r & bs & Hi & _ & _ & Hlo & Hhi & _).
  destruct (mm_inv_lookup _ _ _ _ _ Hinv Hi) as (? & _ & [? ? _ _ _ _ _]).
  split; [|lia].
  apply (rememalign_keep disk dl st bss); [done|done|lia|].
  rewrite cells_for_wrap by lia. done.
Qed.

Lemma rememalign_policy_wrap_witness :
  grub_realloc idle idle 0 0x100030 0xfffffff8 example_used
    = Ok (0x100030, example_used) ∧ 16 * (8 - 1) < 0xfffffff8.
Proof.
  destruct example_used_inv as (bss & Hinv & Hb).
  apply (rememalign_policy_wrap idle idle example_used bss
           (Block 0x100020 8 false) 0 1 0xfffffff8 GRUB_MM_MALLOC_DEFAULT Hinv Hb).
  lia.
Defined.

(** X11 ([grub_rememalign_policy], [split_chunk]): where the bound check of
    the code does not wrap, a block in use that is followed by a free block
    large enough for the missing cells grows where it is.  The call returns
    the pointer it was given; the state is at rest with the block in use at
    its new size; no hook is called and the error code is not touched; the
    payload the block had and every other block in use hold what they
    held. *)
Theorem rememalign_policy_grows
    (disk dl : gmap Z grub_mm_header * list grub_mm_region →
               gmap Z grub_mm_header * list grub_mm_region)
    (st : mm_state) (bss : list (list block)) (b : block) (fuel : nat)
    (align size : Z) (policy : nat) :
  mm_inv (heap st) (base st) bss → held_block bss b → 0 < size < 2 ^ 32 →
  (∀ r, r ∈ base st → r_addr r + 16 * r_size r < 2 ^ 32) →
  b_size b < cells_for size →
  h_magic (heap st !!! (b_addr b + 16 * b_size b)) = GRUB_MM_FREE_MAGIC →
  cells_for size ≤ b_size b + h_size (heap st !!! (b_addr b + 16 * b_size b)) →
  ∃ st' bss',
    grub_rememalign_policy disk dl fuel (b_addr b + 16) align size policy st
      = Ok (b_addr b + 16, st') ∧
    mm_inv (heap st') (base st') bss' ∧
    static <$> base st' = static <$> base st ∧
    grub_errno st' = grub_errno st ∧ calls st' = calls st ∧
    held_block bss' (Block (b_addr b) (cells_for size) false) ∧
    (∀ a, in_block b a → a ≠ b_addr b → heap st' !!! a = heap st !!! a) ∧
    (∀ b', held_block bss b' → b' ≠ b →
       held_block bss' b' ∧ ∀ a, in_block b' a → heap st' !!! a = heap st !!! a).
Proof.
  intros Hinv Hb Hsize Hsmall Hbig Hm Hfit.
  destruct (held_block_header _ _ _ _ Hinv Hb)
    as (_ & Hs1 & _ & _ & i & r & bs & Hi & Hbs & Hbin & Hlo & Hhi & Hget).
  destruct (mm_inv_lookup _ _ _ _ _ Hinv Hi) as (? & _ & [? ? _ _ _ _ _]).
  destruct (next_free_block _ _ _ _ _ _ _ Hinv Hb Hi Hbs Hbin Hm)
    as (_ & k & _ & _ & _ & Hk & Hhi2).
  pose proof (Hsmall r ltac:(by eapply list_elem_of_lookup_2)).
  apply (rememalign_grow disk dl st bss b fuel align size policy i r bs);
    try done; [lia|].
  apply Z.ltb_lt. unfold GRUB_MM_ALIGN_LOG2. rewrite Z.shiftl_mul_pow2 by lia.
  change (2 ^ 4) with 16. rewrite (word_small (r_size r * 16)) by lia.
  rewrite word_small by lia. lia.
Qed.

Lemma rememalign_policy_grows_witness :
  ∃ st', grub_realloc idle idle 0 0x100030 200 example_used = Ok (0x100030, st') ∧
         calls st' = calls example_used ∧
         heap st' !!! 0x100030 = heap example_used !!! 0x100030.
Proof.
  destruct example_used_inv as (bss & Hinv & Hb).
  destruct (rememalign_policy_grows idle idle example_used bss
              (Block 0x100020 8 false) 0 1 200 GRUB_MM_MALLOC_DEFAULT Hinv Hb)
    as (st' & bss' & Hrun & _ & _ & _ & Hc & _ & Hbytes & _).
  - lia.
  - intros r Hr. vm_compute in Hr. apply list_elem_of_singleton in Hr as ->.
    vm_compute. reflexivity.
  - vm_compute. reflexivity.
  - vm_compute. reflexivity.
  - vm_compute. discriminate.
  - exists st'. split; [exact Hrun|]. split; [exact Hc|].
    apply Hbytes; [unfold in_block; simpl; lia|simpl; lia].
Defined.

(** X12 ([grub_memalign_policy], [grub_real_malloc]): null means out of
    memory.  On a state at rest with hooks that leave it at rest the call
    returns and the state is at rest; when the result is null, then in the
    state it leaves no region that the policy does not skip has a free
    block of the cells the search wants from it, which are the cells of the
    request plus the pad of the alignment, and just the cells of the
    request for an alignment below two cells. *)
Theorem memalign_policy_exhausted
    (disk dl : gmap Z grub_mm_header * list grub_mm_region →
               gmap Z grub_mm_header * list grub_mm_region)
    (st : mm_state) (bss : list (list block)) (fuel : nat)
    (align size : Z) (policy : nat) :
  hook_keeps mm_inv disk → hook_keeps mm_inv dl →
  mm_inv (heap st) (base st) bss → (fuel_for (base st) ≤ fuel)%nat →
  0 ≤ align < 2 ^ 32 →
  ∃ p st' bss',
    grub_memalign_policy disk dl fuel align size policy st = Ok (p, st') ∧
    mm_inv (heap st') (base st') bss' ∧
    (p = 0 →
       ∀ k r bs b, base st' !! k = Some r → bss' !! k = Some bs →
         policy_of r policy ≠ GRUB_MM_ALLOCATOR_SKIP →
         b ∈ bs → b_free b = true →
         b_size b < want_of (align_cells align) (cells_for size) (b_addr b) ∧
         (align < 32 → b_size b < cells_for size)).
Proof.
  intros Hdisk Hdl Hinv Hfuel Hal.
  destruct (memalign_policy_stages disk dl mm_inv (λ _ _ _ H, H) Hdisk Hdl
              st bss fuel align size policy Hinv Hfuel Hal)
    as (p & st' & j & Hrun & Hj & _ & Hlast).
  destruct Hlast as [(-> & -> & Hscan & ->)|(Hp & _)].
  - destruct (stage_inv disk dl mm_inv Hdisk Hdl st bss 2 Hinv)
      as (Hst & bss2 & Hinv2).
    set (s := stage disk dl 2 st) in *.
    assert (fuel_for (base s) ≤ fuel)%nat as Hfuel2
      by (by rewrite (fuel_for_static _ _ Hst)).
    exists 0, (grub_error GRUB_ERR_OUT_OF_MEMORY "out of memory" s), bss2.
    split_and!; [done|done|]. intros _ k r bs b Hk Hbs Hsk Hb Hf. simpl in Hk |- *.
    destruct (scan_pass_spec s bss2 fuel align size policy Hinv2 Hfuel2 Hal)
      as (p' & st'' & Hscan' & _ & _ & _ & H).
    rewrite Hscan in Hscan'. injection Hscan' as <- <-.
    destruct H as [(_ & _ & Hfail)|(? & _)]; [|done].
    rewrite <- (take_ge (base s) (length (base s))) in Hfail by lia.
    destruct (mm_inv_no_fit s bss2 fuel align size policy _ Hinv2 Hfuel2 Hal Hfail
                k r bs) as [?|Hno]; [by eapply lookup_lt_Some|done|done|done|].
    destruct (mm_inv_lookup _ _ _ _ _ Hinv2 Hk) as (bs' & Hbs' & [_ _ _ Ht _ _ _]).
    rewrite Hbs in Hbs'. injection Hbs' as <-.
    destruct (tiling_block _ _ _ _ _ Ht Hb) as (_ & _ & _ & Hsz & _).
    specialize (Hno (b_addr b)). rewrite Hsz in Hno.
    assert (b_size b < want_of (align_cells align) (cells_for size) (b_addr b)) as Hlt.
    { apply Hno, elem_of_frees. by exists b. }
    split; [done|]. intros Hsmall.
    rewrite align_cells_small, want_of_one in Hlt by (try apply cells_for_range; lia).
    done.
  - destruct (memalign_policy_inv disk dl st bss fuel align size policy
                Hdisk Hdl Hinv Hfuel Hal) as (p' & st'' & bss' & Hrun' & Hinv' & _).
    rewrite Hrun in Hrun'. injection Hrun' as <- <-.
    exists p, st', bss'. by split_and!.
Qed.

Lemma memalign_policy_exhausted_witness :
  ∃ p st' bss',
    grub_memalign_policy idle idle 4065 0 4000 GRUB_MM_MALLOC_DEFAULT
      example_used = Ok (p, st') ∧
    mm_inv (heap st') (base st') bss'.
Proof.
  destruct example_used_inv as (bss & Hinv & _).
  destruct (memalign_policy_exhausted idle idle example_used bss 4065 0 4000
              GRUB_MM_MALLOC_DEFAULT idle_keeps idle_keeps Hinv)
    as (p & st' & bss' & Hrun & Hinv' & _); [vm_compute; lia|lia|].
  exists p, st', bss'. split; [exact Hrun|exact Hinv'].
Defined.

(** X13 ([grub_memalign_policy], [grub_real_malloc]): first fit.  On a
    state at rest in which some region that the policy does not skip has a
    free block of the cells the search wants from it, the call succeeds at
    the first scan: no hook is called and the error code is not touched.
    The request is served by the first region of the list that has such a
    block, from the first such block in the order its allocator walks the
    ring ([walk]); the new block lies inside that free block. *)
Theorem memalign_policy_first_fit
    (disk dl : gmap Z grub_mm_header * list grub_mm_region →
               gmap Z grub_mm_header * list grub_mm_region)
    (st : mm_state) (bss : list (list block)) (fuel : nat)
    (align size : Z) (policy : nat)
    (k : nat) (r : grub_mm_region) (bs : list block) (b : block) :
  mm_inv (heap st) (base st) bss → (fuel_for (base st) ≤ fuel)%nat →
  0 ≤ align < 2 ^ 32 →
  base st !! k = Some r → bss !! k = Some bs →
  policy_of r policy ≠ GRUB_MM_ALLOCATOR_SKIP →
  b ∈ bs → b_free b = true →
  want_of (align_cells align) (cells_for size) (b_addr b) ≤ b_size b →
  ∃ p st' bss',
    grub_memalign_policy disk dl fuel align size policy st = Ok (p, st') ∧
    p ≠ 0 ∧ calls st' = calls st ∧ grub_errno st' = grub_errno st ∧
    mm_inv (heap st') (base st') bss' ∧
    held_block bss' (Block (p - 16) (cells_for size) false) ∧
    ∃ k' r' bs' l1 x l2,
      base st !! k' = Some r' ∧ bss !! k' = Some bs' ∧
      (∀ i r0 bs0, (i < k')%nat → base st !! i = Some r0 → bss !! i = Some bs0 →
         no_fit align size policy (heap st) r0 bs0) ∧
      walk (policy_of r' policy) (frees bs') = l1 ++ x :: l2 ∧
      (∀ y, y ∈ l1 →
         h_size (heap st !!! y) < want_of (align_cells align) (cells_for size) y) ∧
      want_of (align_cells align) (cells_for size) x ≤ h_size (heap st !!! x) ∧
      x ≤ p - 16 ∧ p - 16 + 16 * cells_for size ≤ x + 16 * h_size (heap st !!! x).
Proof.
  intros Hinv Hfuel Hal Hk Hbs Hsk Hb Hf Hfit.
  destruct (scan_pass_spec st bss fuel align size policy Hinv Hfuel Hal)
    as (p & st' & Hscan & He & _ & Hc & H).
  destruct H as [(_ & _ & Hfail)|(Hp & k' & bss' & Hinv' & Hstep & Hserve & Hfail)].
  { exfalso.
    rewrite <- (take_ge (base st) (length (base st))) in Hfail by lia.
    destruct (mm_inv_no_fit st bss fuel align size policy _ Hinv Hfuel Hal Hfail
                k r bs) as [?|Hno]; [by eapply lookup_lt_Some|done|done|done|].
    destruct (mm_inv_lookup _ _ _ _ _ Hinv Hk) as (bs' & Hbs' & [_ _ _ Ht _ _ _]).
    rewrite Hbs in Hbs'. injection Hbs' as <-.
    destruct (tiling_block _ _ _ _ _ Ht Hb) as (_ & _ & _ & Hsz & _).
    specialize (Hno (b_addr b)). rewrite Hsz in Hno.
    assert (b_addr b ∈ frees bs) by (apply elem_of_frees; by exists b).
    specialize (Hno ltac:(done)). lia. }
  exists p, st', bss'. split.
  { unfold grub_memalign_policy. cbn -[scan_pass]. rewrite Hscan. cbn -[scan_pass].
    by rewrite (proj2 (Z.eqb_neq p 0)). }
  split_and!; [done|done|done|done|by eapply alloc_step_new|].
  destruct Hserve as (r' & f & Hk' & Hsk' & Hrun & _).
  destruct (mm_inv_lookup _ _ _ _ _ Hinv Hk') as (bs' & Hbs' & Hreg).
  destruct (grub_real_malloc_first_fit (heap st) r' bs' fuel align size
              (policy_of r' policy) Hreg Hal) as (ptr & m' & f' & Hrun' & H).
  { assert (length (frees bs') < fuel)%nat; [|lia].
    eapply fuel_for_ring; [by eapply list_elem_of_lookup_2|done|done]. }
  rewrite Hrun in Hrun'. injection Hrun' as <- <- <-.
  destruct H as [(? & _)|(_ & l1 & x & l2 & Hw & Hno & Hx & ? & ?)]; [done|].
  exists k', r', bs', l1, x, l2. split_and!; try done.
  intros i r0 bs0 Hi. by apply (mm_inv_no_fit st bss fuel align size policy k').
Qed.

Lemma memalign_policy_first_fit_witness :
  ∃ p st', grub_memalign_policy idle idle 4065 0 32 GRUB_MM_MALLOC_DEFAULT
             example_used = Ok (p, st') ∧ p ≠ 0 ∧
           calls st' = calls example_used.
Proof.
  destruct example_used_blocks as (bss & r & bs & Hinv & _ & Hr & Hbs & Hsk & Hb).
  destruct (memalign_policy_first_fit idle idle example_used bss 4065 0 32
              GRUB_MM_MALLOC_DEFAULT 0 r bs (Block 0x1000a0 246 true) Hinv)
    as (p & st' & bss' & Hrun & Hp & Hc & _);
    [vm_compute; lia|lia|exact Hr|exact Hbs|exact Hsk|exact Hb|reflexivity| |].
  - vm_compute. discriminate.
  - exists p, st'. split; [exact Hrun|]. split; [exact Hp|exact Hc].
Defined.
